(** * HARK portfolio-choice period solver: a shallow embedding

    The development follows [HARK/ConsumptionSaving/ConsPortfolioModel.py]:
    the record [PortfolioSolution], the terminal solution of
    [PortfolioConsumerType.update_solution_terminal] and the period solver
    [solve_one_period_ConsPortfolio].

    Numbers.  A numpy [float64] is modelled by [float]: either a finite value,
    held exactly as a rational, or [NonFinite], which stands for [nan] (and
    for the infinities).  Rounding is not represented; [NonFinite] is
    absorbing for the arithmetic and makes every ordered comparison false,
    as [nan] does.  Statements that branch on a comparison carry an explicit
    finiteness hypothesis where an infinity would behave differently. *)

From Stdlib Require Import QArith Qabs Lqa Bool String List Lia ZArith Setoid Morphisms.
Import ListNotations.



(* ================================================================== *)
(** ** Floating-point values *)
(* ================================================================== *)

Inductive float : Type :=
| Fin (q : Q)
| NonFinite.

Coercion Fin : Q >-> float.

Definition is_finite (x : float) : bool :=
  match x with Fin _ => true | NonFinite => false end.

Definition lift2 (op : Q -> Q -> Q) (x y : float) : float :=
  match x, y with
  | Fin a, Fin b => Fin (op a b)
  | _, _ => NonFinite
  end.

Definition fadd : float -> float -> float := lift2 Qplus.
Definition fsub : float -> float -> float := lift2 Qminus.
Definition fmul : float -> float -> float := lift2 Qmult.

(** numpy division: a zero divisor gives [nan] or an infinity, with a
    warning and no exception. *)
Definition fopp (x : float) : float :=
  match x with Fin a => Fin (- a) | NonFinite => NonFinite end.

Definition fdiv (x y : float) : float :=
  match x, y with
  | Fin a, Fin b => if Qeq_bool b 0 then NonFinite else Fin (a / b)
  | _, _ => NonFinite
  end.

Definition fleb (x y : float) : bool :=
  match x, y with Fin a, Fin b => Qle_bool a b | _, _ => false end.
Definition fltb (x y : float) : bool :=
  match x, y with Fin a, Fin b => negb (Qle_bool b a) | _, _ => false end.
Definition fgeb (x y : float) : bool := fleb y x.
Definition fgtb (x y : float) : bool := fltb y x.
Definition feqb (x y : float) : bool :=
  match x, y with Fin a, Fin b => Qeq_bool a b | _, _ => false end.
(** [x != y] is the negation of [x == y]: true as soon as one side is [nan]. *)
Definition fneb (x y : float) : bool := negb (feqb x y).

(** [np.maximum] and the binary steps of [np.min] / [np.max]: [nan] propagates. *)
Definition fmax (x y : float) : float :=
  match x, y with
  | Fin a, Fin b => if Qle_bool a b then Fin b else Fin a
  | _, _ => NonFinite
  end.
Definition fmin (x y : float) : float :=
  match x, y with
  | Fin a, Fin b => if Qle_bool a b then Fin a else Fin b
  | _, _ => NonFinite
  end.

Declare Scope float_scope.
Delimit Scope float_scope with fl.
Bind Scope float_scope with float.
Infix "+" := fadd : float_scope.
Infix "-" := fsub : float_scope.
Infix "*" := fmul : float_scope.
Infix "/" := fdiv : float_scope.
Notation "- x" := (fopp x) : float_scope.
Infix "<=?" := fleb (at level 70) : float_scope.
Infix "<?" := fltb (at level 70) : float_scope.
Infix ">=?" := fgeb (at level 70) : float_scope.
Infix ">?" := fgtb (at level 70) : float_scope.
Infix "==?" := feqb (at level 70) : float_scope.
Infix "!=?" := fneb (at level 70) : float_scope.

(** Equality of values: finite values up to equality of rationals. *)
Definition feq (x y : float) : Prop :=
  match x, y with
  | Fin a, Fin b => a == b
  | NonFinite, NonFinite => True
  | _, _ => False
  end.

Infix "=f=" := feq (at level 70).



Definition vec := list float.
Definition mat := list (list float).

Definition vec_eq : vec -> vec -> Prop := Forall2 feq.
Definition mat_eq : mat -> mat -> Prop := Forall2 vec_eq.

(** A value in the closed interval [[lo, hi]]. *)
Definition in_range (lo hi : Q) (x : float) : Prop :=
  match x with Fin q => lo <= q /\ q <= hi | NonFinite => False end.

(* ================================================================== *)
(** ** numpy array operations used by the solver *)
(* ================================================================== *)

Definition zipWith {A B C} (f : A -> B -> C) (xs : list A) (ys : list B) : list C :=
  map (fun p => f (fst p) (snd p)) (combine xs ys).

Definition mat_zipWith {A B C} (f : A -> B -> C)
  (X : list (list A)) (Y : list (list B)) : list (list C) :=
  zipWith (zipWith f) X Y.

Definition np_insert0 {A} (v : A) (xs : list A) : list A := v :: xs.
Definition np_append {A} (xs : list A) (v : A) : list A := xs ++ [v].

(** [np.min] / [np.max] of a one-dimensional array; the empty case raises in
    numpy and is guarded separately (see [raised]). *)
Definition np_min (xs : vec) : float :=
  match xs with [] => NonFinite | x :: tl => fold_left fmin tl x end.
Definition np_max (xs : vec) : float :=
  match xs with [] => NonFinite | x :: tl => fold_left fmax tl x end.

(** [np.meshgrid(xs, ys, indexing="ij")]: rows follow [xs], columns [ys]. *)
Definition meshgrid_ij (xs ys : vec) : mat * mat :=
  (map (fun x => map (fun _ => x) ys) xs, map (fun _ => ys) xs).
(** [np.meshgrid(xs, ys)] with the default ["xy"] indexing: rows follow [ys]. *)
Definition meshgrid_xy (xs ys : vec) : mat * mat :=
  (map (fun _ => xs) ys, map (fun y => map (fun _ => y) xs) ys).

(** [M[:, j]], [M[i, j]], [v[-1]] *)
Definition col (j : nat) (M : mat) : vec := map (fun row => nth j row NonFinite) M.
Definition at2 (M : mat) (i j : nat) : float := nth j (nth i M []) NonFinite.
Definition last_of (v : vec) : float := last v NonFinite.

(** [np.argmax] over booleans: the first [True], or 0 when there is none. *)
Fixpoint argmax_bool (bs : list bool) : nat :=
  match bs with
  | [] => 0
  | true :: _ => 0
  | false :: tl => if existsb (fun b => b) tl then S (argmax_bool tl) else 0
  end.

(** [np.argmax] over floats: the first index of the largest entry; a [nan]
    entry counts as the largest. *)
Fixpoint argmax_from (best : float) (ibest i : nat) (xs : vec) : nat :=
  match xs with
  | [] => ibest
  | x :: tl =>
      match best with
      | NonFinite => ibest
      | Fin _ =>
          if is_finite x then
            if fltb best x then argmax_from x i (S i) tl
            else argmax_from best ibest (S i) tl
          else i
      end
  end.
Definition argmax_float (xs : vec) : nat :=
  match xs with [] => 0%nat | x :: tl => argmax_from x 0 1 tl end.

(** [np.transpose(np.vstack((u, v))).flatten()]: the two arrays interleaved. *)
Fixpoint interleave (u v : vec) : vec :=
  match u, v with
  | a :: u', b :: v' => a :: b :: interleave u' v'
  | _, _ => []
  end.

(** [v[1:]], [v[:-1]], [v[2:]], [v[1:-1]] *)
Definition drop1 {A} (v : list A) : list A := tl v.
Definition init {A} (v : list A) : list A := removelast v.

(** [v[0] = x] on a non-empty array. *)
Definition set0 {A} (x : A) (v : list A) : list A :=
  match v with [] => [] | _ :: tl => x :: tl end.

(* ================================================================== *)
(** ** Discrete distributions and the expectation operator *)
(* ================================================================== *)

(** A discrete distribution: probability weight and atom, node by node. *)
Definition Distribution (A : Type) := list (float * A).

Record IncShk := { PermShk : float; TranShk : float }.
Record JointShk := { Inc : IncShk; Risky : float }.

Definition atoms {A} (d : Distribution A) : list A := map snd d.
Definition pmv {A} (d : Distribution A) : vec := map fst d.

Local Open Scope Q_scope.
Local Open Scope float_scope.

(** Modelled from the spec: the expectation operator of [HARK.distribution]
    (absent from the sources at hand), "the probability-weighted sum of [f]
    evaluated at each atom". *)
Definition expected {A} (f : A -> float) (d : Distribution A) : float :=
  fold_right (fun pa acc => f (snd pa) * fst pa + acc) (Fin 0) d.


(** The independent product of an income distribution and a return
    distribution: every pair of atoms, weighted by the product of weights. *)
Definition product_dstn (I : Distribution IncShk) (R : Distribution float)
  : Distribution JointShk :=
  flat_map (fun r => map (fun i => (fst i * fst r, {| Inc := snd i; Risky := snd r |})) I) R.

(* ================================================================== *)
(** ** Function objects *)
(* ================================================================== *)

(** The function objects of [HARK.interpolation] that the model builds, as
    data: the constructor called and its arguments. *)
#[warnings="-register-all"]
Inductive Func : Type :=
| NullFunc
| IdentityFunction (i_dim n_dims : nat)
| ConstantFunction (value : float)
| LinearInterp (x_list y_list : vec) (intercept_limit slope_limit : option float)
| CubicInterp (x_list f_list dfdx_list : vec)
| BilinearInterp (f_values : mat) (x_list y_list : vec)
| LinearInterpOnInterp1D (xInterpolators : list Func) (y_values : vec)
| MargValueFuncCRRA (cFunc : Func) (CRRA : float)
| ValueFuncCRRA (vFuncNvrs : Func) (CRRA : float).

(** What the numerical libraries supply and the sources at hand do not
    define: the power [x ** y], the natural logarithm and the exponential at
    finite arguments, and the value of an interpolant where the spec says
    nothing precise (below its first node, cubic interpolation). *)
Class NumLib : Type := {
  pow : Q -> Q -> float;
  log : Q -> float;
  exp : Q -> float;
  extern_call : Func -> list float -> float
}.

Section Library.
Context {lib : NumLib}.

Definition fpow (x y : float) : float :=
  match x, y with
  | Fin a, Fin b => pow a b
  | _, _ => NonFinite
  end.
Infix "**" := fpow (at level 30, right associativity) : float_scope.

Definition flog (x : float) : float :=
  match x with Fin a => log a | NonFinite => NonFinite end.
Definition fexp (x : float) : float :=
  match x with Fin a => exp a | NonFinite => NonFinite end.

(** Modelled from the spec: the CRRA utility primitive of [HARK.rewards]
    (absent from the sources at hand), "[u(c) = c^(1-rho)/(1-rho)], or
    [log(c)] at [rho = 1]", its derivative, the inverse of each, and the
    derivative of the inverse.  At [rho = 1] the inverse of [u] is the
    exponential, and so is the derivative of the inverse; marginal utility
    and its inverse are the same formula at every [rho]. *)
Definition u (rho c : float) : float :=
  if rho ==? 1 then flog c else c ** (1 - rho) / (1 - rho).
Definition uP (rho c : float) : float := c ** (- rho).
Definition uPinv (rho x : float) : float := x ** (- 1 / rho).
Definition uinv (rho v : float) : float :=
  if rho ==? 1 then fexp v else ((1 - rho) * v) ** (1 / (1 - rho)).
Definition uinvP (rho v : float) : float :=
  if rho ==? 1 then fexp v else ((1 - rho) * v) ** (rho / (1 - rho)).

(** The segment of a node list that brackets [x]: the index of its lower
    node and the fractional distance of [x] from it.  The upper node is the
    first one not below [x]; a non-finite node sorts after every finite
    value.  [None] below the first node, above the last, or for fewer than
    two nodes. *)
Fixpoint locate_from (i : nat) (x : float) (xs : vec) : option (nat * float) :=
  match xs with
  | x0 :: ((x1 :: _) as tl) =>
      if (x <=? x1) || negb (is_finite x1)
      then Some (i, (x - x0) / (x1 - x0))
      else locate_from (S i) x tl
  | _ => None
  end.

Definition locate (x : float) (xs : vec) : option (nat * float) :=
  match xs with
  | x0 :: _ => if x0 <=? x then locate_from 0 x xs else None
  | [] => None
  end.

Definition lerp (alpha y0 y1 : float) : float := (1 - alpha) * y0 + alpha * y1.

Definition fabs (x : float) : float :=
  match x with Fin a => Fin (Qabs a) | NonFinite => NonFinite end.

(** [np.isclose(a, b, atol=1e-15)], with numpy's default relative tolerance
    [1e-05]: [|a - b| <= atol + rtol * |b|]. *)
Definition isclose (a b : float) : bool :=
  fabs (a - b) <=? Fin (1 # 1000000000000000) + Fin (1 # 100000) * fabs b.

Section LinearInterpolant.
Variables (x_list y_list : vec) (intercept_limit slope_limit : option float).

(** The last segment: its two abscissas, its two ordinates and its slope. *)
Definition x_top : float := last_of x_list.
Definition x_below_top : float := nth (length x_list - 2) x_list NonFinite.
Definition y_top : float := nth (length x_list - 1) y_list NonFinite.
Definition y_below_top : float := nth (length x_list - 2) y_list NonFinite.
Definition slope_at_top : float := (y_top - y_below_top) / (x_top - x_below_top).

(** Whether the interpolant approaches its limiting line beyond the last
    node: a limiting line was given, and its slope is not (nearly) the slope
    of the last segment. *)
Definition decay_extrap : bool :=
  match intercept_limit, slope_limit with
  | Some _, Some s => negb (isclose s slope_at_top)
  | _, _ => false
  end.

(** What the constructor stores in that case, for the limiting line
    [i + s * x]: the gap between the line and the last node
    ([decay_extrap_A]) and the rate at which the gap shrinks beyond it
    ([decay_extrap_B]), chosen to make the slope continuous at the last
    node. *)
Definition level_diff (i s : float) : float := i + s * x_top - y_top.
Definition slope_diff (s : float) : float := s - slope_at_top.
Definition decay_extrap_A (i s : float) : float := level_diff i s.
Definition decay_extrap_B (i s : float) : float := - slope_diff s / level_diff i s.

(** The share of the gap that is left at [x]. *)
Definition decay_factor (i s x : float) : float :=
  fexp (- decay_extrap_B i s * (x - x_top)).

(** The value beyond the last node in that case: the limiting line, less
    what is left of the gap. *)
Definition decay_value (x : float) : float :=
  match intercept_limit, slope_limit with
  | Some i, Some s => i + s * x - decay_extrap_A i s * decay_factor i s x
  | _, _ => NonFinite
  end.

(** Beyond every node (the search of [locate] having found no segment):
    from the first node on, and above the last one. *)
Definition above_nodes (x : float) : bool :=
  match x_list with
  | x0 :: _ :: _ => (x0 <=? x) && (x_top <? x)
  | _ => false
  end.

(** The last segment, continued. *)
Definition last_segment_value (x : float) : float :=
  lerp ((x - x_below_top) / (x_top - x_below_top)) y_below_top y_top.

(** Modelled from the spec: evaluation of a "1-D piecewise-linear (with
    configurable lower/upper extrapolation slope)" interpolant of
    [HARK.interpolation] (absent from the sources at hand).  Between two
    consecutive nodes it is linear.  Above the last node, an interpolant
    built with a limiting line ("extrapolated with the asymptotic
    slope/intercept") approaches that line by an exponential decay of the
    gap, unless the slope of its last segment already is the limiting slope;
    otherwise its last segment continues, as a linear interpolator does (the
    repository's tests compare [LinearInterp] with one at points outside the
    grid).  Below the first node the value is left to [outside]. *)
Definition eval_LinearInterp (x outside : float) : float :=
  if decay_extrap && (x_top <? x) then decay_value x
  else match locate x x_list with
       | Some (i, alpha) => lerp alpha (nth i y_list NonFinite) (nth (S i) y_list NonFinite)
       | None => if above_nodes x then last_segment_value x else outside
       end.

End LinearInterpolant.

(** Modelled from the spec: evaluation of the function objects of
    [HARK.interpolation] (absent from the sources at hand).  The identity
    selects one argument, a constant ignores them, a piecewise-linear
    interpolant is evaluated by [eval_LinearInterp], a bilinear interpolant
    is linear in each coordinate within a grid cell, an interpolant over a
    family of one-dimensional interpolants is linear in the second
    coordinate, the CRRA wrappers apply utility or marginal utility to the
    wrapped function, and [NullFunc] returns [nan].  Everything else is left
    to [extern_call]. *)
Fixpoint call (f : Func) (args : list float) {struct f} : float :=
  match f with
  | NullFunc => NonFinite
  | IdentityFunction i _ => nth i args NonFinite
  | ConstantFunction v => v
  | LinearInterp xs ys il sl =>
      match args with
      | [x] => eval_LinearInterp xs ys il sl x (extern_call f args)
      | _ => extern_call f args
      end
  | BilinearInterp fv xs ys =>
      match args with
      | [x; y] =>
          match locate x xs, locate y ys with
          | Some (i, alpha), Some (j, beta) =>
                (1 - alpha) * (1 - beta) * at2 fv i j
              + (1 - alpha) * beta * at2 fv i (S j)
              + alpha * (1 - beta) * at2 fv (S i) j
              + alpha * beta * at2 fv (S i) (S j)
          | _, _ => extern_call f args
          end
      | _ => extern_call f args
      end
  | LinearInterpOnInterp1D fs ys =>
      match args with
      | [x; y] =>
          match locate y ys with
          | Some (j, beta) =>
              let vals := map (fun g => call g [x]) fs in
              lerp beta (nth j vals NonFinite) (nth (S j) vals NonFinite)
          | None => extern_call f args
          end
      | _ => extern_call f args
      end
  | MargValueFuncCRRA c rho => uP rho (call c args)
  | ValueFuncCRRA v rho => u rho (call v args)
  | CubicInterp _ _ _ => extern_call f args
  end.

Definition call1 (f : Func) (x : float) : float := call f [x].
Definition call2 (f : Func) (x y : float) : float := call f [x; y].

End Library.

Infix "**" := fpow (at level 30, right associativity) : float_scope.

(* ================================================================== *)
(** ** The period solution record *)
(* ================================================================== *)

Module PortfolioSolution.

(** The attributes of a [PortfolioSolution] object.  [hNrm] and [MPCmin] are
    not set by the constructor: the callers attach them afterwards. *)
Record t : Type := {
  cFuncAdj : Func;
  ShareFuncAdj : Func;
  vFuncAdj : Func;
  vPfuncAdj : Func;
  cFuncFxd : Func;
  ShareFuncFxd : Func;
  vFuncFxd : Func;
  dvdmFuncFxd : Func;
  dvdsFuncFxd : Func;
  aGrid : option vec;
  Share_adj : option vec;
  EndOfPrddvda_adj : option vec;
  ShareGrid : option vec;
  EndOfPrddvda_fxd : option mat;
  EndOfPrddvds_fxd : option mat;
  AdjPrb : option float;
  hNrm : option float;
  MPCmin : option float
}.

(** "Change any missing function inputs to NullFunc" *)
Definition or_NullFunc (f : option Func) : Func :=
  match f with None => NullFunc | Some g => g end.

(** [PortfolioSolution.__init__]; every argument defaults to [None]. *)
Definition __init__
  (cFuncAdj ShareFuncAdj vFuncAdj vPfuncAdj cFuncFxd ShareFuncFxd
   vFuncFxd dvdmFuncFxd dvdsFuncFxd : option Func)
  (aGrid Share_adj EndOfPrddvda_adj ShareGrid : option vec)
  (EndOfPrddvda_fxd EndOfPrddvds_fxd : option mat)
  (AdjPrb : option float) : t :=
  {| cFuncAdj := or_NullFunc cFuncAdj;
     cFuncFxd := or_NullFunc cFuncFxd;
     ShareFuncAdj := or_NullFunc ShareFuncAdj;
     ShareFuncFxd := or_NullFunc ShareFuncFxd;
     vFuncAdj := or_NullFunc vFuncAdj;
     vFuncFxd := or_NullFunc vFuncFxd;
     vPfuncAdj := or_NullFunc vPfuncAdj;
     dvdmFuncFxd := or_NullFunc dvdmFuncFxd;
     dvdsFuncFxd := or_NullFunc dvdsFuncFxd;
     aGrid := aGrid;
     Share_adj := Share_adj;
     EndOfPrddvda_adj := EndOfPrddvda_adj;
     ShareGrid := ShareGrid;
     EndOfPrddvda_fxd := EndOfPrddvda_fxd;
     EndOfPrddvds_fxd := EndOfPrddvds_fxd;
     AdjPrb := AdjPrb;
     hNrm := None;
     MPCmin := None |}.

(** [solution.hNrm = h; solution.MPCmin = k] *)
Definition set_hNrm_MPCmin (s : t) (h k : float) : t :=
  {| cFuncAdj := cFuncAdj s; ShareFuncAdj := ShareFuncAdj s;
     vFuncAdj := vFuncAdj s; vPfuncAdj := vPfuncAdj s;
     cFuncFxd := cFuncFxd s; ShareFuncFxd := ShareFuncFxd s;
     vFuncFxd := vFuncFxd s; dvdmFuncFxd := dvdmFuncFxd s;
     dvdsFuncFxd := dvdsFuncFxd s;
     aGrid := aGrid s; Share_adj := Share_adj s;
     EndOfPrddvda_adj := EndOfPrddvda_adj s; ShareGrid := ShareGrid s;
     EndOfPrddvda_fxd := EndOfPrddvda_fxd s;
     EndOfPrddvds_fxd := EndOfPrddvds_fxd s;
     AdjPrb := AdjPrb s;
     hNrm := Some h; MPCmin := Some k |}.

End PortfolioSolution.

(* ================================================================== *)
(** ** The terminal period *)
(* ================================================================== *)

Section Terminal.
Variable CRRA : float.

Definition cFuncAdj_terminal : Func := IdentityFunction 0 1.
Definition cFuncFxd_terminal : Func := IdentityFunction 0 2.
Definition ShareFuncAdj_terminal : Func := ConstantFunction 0.
Definition ShareFuncFxd_terminal : Func := IdentityFunction 1 2.
Definition vFuncAdj_terminal : Func := ValueFuncCRRA cFuncAdj_terminal CRRA.
Definition vFuncFxd_terminal : Func := ValueFuncCRRA cFuncFxd_terminal CRRA.
Definition vPfuncAdj_terminal : Func := MargValueFuncCRRA cFuncAdj_terminal CRRA.
Definition dvdmFuncFxd_terminal : Func := MargValueFuncCRRA cFuncFxd_terminal CRRA.
Definition dvdsFuncFxd_terminal : Func := ConstantFunction 0.

(** [PortfolioConsumerType.update_solution_terminal]: the value it stores in
    [self.solution_terminal]. *)
Definition update_solution_terminal : PortfolioSolution.t :=
  PortfolioSolution.set_hNrm_MPCmin
    (PortfolioSolution.__init__
       (Some cFuncAdj_terminal) (Some ShareFuncAdj_terminal)
       (Some vFuncAdj_terminal) (Some vPfuncAdj_terminal)
       (Some cFuncFxd_terminal) (Some ShareFuncFxd_terminal)
       (Some vFuncFxd_terminal) (Some dvdmFuncFxd_terminal)
       (Some dvdsFuncFxd_terminal)
       None None None None None None None)
    0 1.

End Terminal.

(* ================================================================== *)
(** ** Optimal share at each asset gridpoint *)
(* ================================================================== *)

(** [v[mask] = x] and [v[mask] = w[mask]] *)
Definition mask_fill (mask : list bool) (x : float) (v : vec) : vec :=
  zipWith (fun (m : bool) old => if m then x else old) mask v.
Definition mask_assign (mask : list bool) (new v : vec) : vec :=
  zipWith (fun (m : bool) no => if m then fst no else snd no) mask (combine new v).

(** [M[np.arange(n), idx]] *)
Definition pick (M : mat) (idx : list nat) : vec :=
  zipWith (fun row k => nth k row NonFinite) M idx.
(** [v[idx]] *)
Definition take_at (v : vec) (idx : list nat) : vec :=
  map (fun k => nth k v NonFinite) idx.

Section DiscreteShare.
Variables (ShareGrid : vec) (EndOfPrd_v EndOfPrd_dvdaNvrs : mat).

(** Lines 764-771: the share with the highest value at each asset gridpoint. *)
Definition opt_idx : list nat := map argmax_float EndOfPrd_v.
Definition ShareAdj_discrete : vec := take_at ShareGrid opt_idx.
Definition cNrmAdj_discrete : vec := pick EndOfPrd_dvdaNvrs opt_idx.

End DiscreteShare.

(** One row of [np.logical_and(FOC_s[:, 1:] <= 0.0, FOC_s[:, :-1] >= 0.0)]. *)
Definition crossing_row (row : vec) : list bool :=
  zipWith (fun hi lo => (hi <=? 0) && (lo >=? 0)) (drop1 row) (init row).

Section ContinuousShare.
Variables (ShareGrid : vec) (EndOfPrd_dvds EndOfPrd_dvdaNvrs : mat).

(** Lines 773-809: the first-order condition [EndOfPrd_dvds == 0]. *)
Definition FOC_s : mat := EndOfPrd_dvds.

Definition crossing : list (list bool) := map crossing_row FOC_s.
Definition share_idx : list nat := map argmax_bool crossing.

Definition bot_s : vec := take_at ShareGrid share_idx.
Definition top_s : vec := take_at ShareGrid (map S share_idx).
Definition bot_f : vec := pick FOC_s share_idx.
Definition top_f : vec := pick FOC_s (map S share_idx).
Definition bot_c : vec := pick EndOfPrd_dvdaNvrs share_idx.
Definition top_c : vec := pick EndOfPrd_dvdaNvrs (map S share_idx).
Definition alpha : vec := zipWith (fun t b => 1 - t / (t - b)) top_f bot_f.

Definition ShareAdj_interior : vec :=
  zipWith (fun al bt => (1 - al) * fst bt + al * snd bt) alpha (combine bot_s top_s).
Definition cNrmAdj_interior : vec :=
  zipWith (fun al bt => (1 - al) * fst bt + al * snd bt) alpha (combine bot_c top_c).

Definition constrained_top : list bool := map (fun row => last_of row >? 0) FOC_s.
Definition constrained_bot : list bool := map (fun row => nth 0 row NonFinite <? 0) FOC_s.

Definition ShareAdj_continuous : vec :=
  mask_fill constrained_bot 0 (mask_fill constrained_top 1 ShareAdj_interior).
Definition cNrmAdj_continuous : vec :=
  mask_assign constrained_bot (map (fun row => nth 0 row NonFinite) EndOfPrd_dvdaNvrs)
    (mask_assign constrained_top (map last_of EndOfPrd_dvdaNvrs) cNrmAdj_interior).

End ContinuousShare.

(** Lines 811-817: the bottom gridpoint when the natural borrowing constraint
    is not zero. *)
Definition fix_bottom_share (BoroCnstNat_iszero : bool) (ShareAdj_now : vec) : vec :=
  if negb BoroCnstNat_iszero then set0 (Fin 1) ShareAdj_now else ShareAdj_now.
Definition fix_bottom_cNrm (BoroCnstNat_iszero : bool) (EndOfPrd_dvdaNvrs : mat)
  (cNrmAdj_now : vec) : vec :=
  if negb BoroCnstNat_iszero
  then set0 (last_of (nth 0 EndOfPrd_dvdaNvrs [])) cNrmAdj_now
  else cNrmAdj_now.

(* ================================================================== *)
(** ** Exceptions *)
(* ================================================================== *)

Inductive exn : Type :=
| ValueError (msg : string)
| IndexError (msg : string)
| AttributeError (msg : string)
| ZeroDivisionError (msg : string)
| UnboundLocalError (msg : string).

Inductive result (A : Type) : Type :=
| Return (a : A)
| Raise (e : exn).
Arguments Return {A} a.
Arguments Raise {A} e.

Definition msg_BoroCnstArt : string :=
  "PortfolioConsumerType must have BoroCnstArt=0.0!".
Definition msg_DiscreteShare : string :=
  "PortfolioConsumerType requires vFuncBool to be True when DiscreteShareBool is True!".

(** The first of a list of guarded exceptions whose guard holds. *)
Fixpoint first_raised (guards : list (bool * exn)) : option exn :=
  match guards with
  | [] => None
  | (true, e) :: _ => Some e
  | (false, _) :: tl => first_raised tl
  end.

(* ================================================================== *)
(** ** The period solver *)
(* ================================================================== *)

Section Solver.
Context {lib : NumLib}.

(** The parameters of [solve_one_period_ConsPortfolio].  [BoroCnstArt] is a
    "float or None". *)
Variables
  (solution_next : PortfolioSolution.t)
  (ShockDstn : Distribution JointShk)
  (IncShkDstn : Distribution IncShk)
  (RiskyDstn : Distribution float)
  (LivPrb DiscFac CRRA Rfree PermGroFac : float)
  (BoroCnstArt : option float)
  (aXtraGrid ShareGrid : vec)
  (AdjustPrb ShareLimit : float)
  (vFuncBool DiscreteShareBool IndepDstnBool : bool).

(** *** Lines 392-402: configuration checks *)

Definition BoroCnstArt_nonzero : bool :=
  match BoroCnstArt with
  | Some x => x !=? 0
  | None => true
  end.

(** *** Lines 404-458: utility, next period's solution, asymptotics *)

Definition DiscFacEff : float := DiscFac * LivPrb.

Definition vPfuncAdj_next : Func := PortfolioSolution.vPfuncAdj solution_next.
Definition dvdmFuncFxd_next : Func := PortfolioSolution.dvdmFuncFxd solution_next.
Definition dvdsFuncFxd_next : Func := PortfolioSolution.dvdsFuncFxd solution_next.
Definition vFuncAdj_next : Func := PortfolioSolution.vFuncAdj solution_next.
Definition vFuncFxd_next : Func := PortfolioSolution.vFuncFxd solution_next.

Definition attr (a : option float) : float :=
  match a with Some x => x | None => NonFinite end.

Definition BoroCnstNat_iszero : bool :=
  np_min (map TranShk (atoms IncShkDstn)) ==? 0.

Definition Risky_next : vec := atoms RiskyDstn.
Definition RiskyMax : float := np_max Risky_next.
Definition RiskyMin : float := np_min Risky_next.

Definition calc_Radj (R : float) : float :=
  let Rport := ShareLimit * R + (1 - ShareLimit) * Rfree in
  Rport ** (1 - CRRA).

Definition R_adj : float := expected calc_Radj RiskyDstn.
Definition PatFac : float := (DiscFacEff * R_adj) ** (1 / CRRA).
(** Line 438, in the exact arithmetic of the model: the rounding of the
    quotient, and its overflow or underflow, are not represented. *)
Definition MPCminNow : float :=
  1 / (1 + PatFac / attr (PortfolioSolution.MPCmin solution_next)).

Definition calc_hNrm (S : JointShk) : float :=
  let Risky := Risky S in
  let PermShk := PermShk (Inc S) in
  let TranShk := TranShk (Inc S) in
  let G := PermGroFac * PermShk in
  let Rport := ShareLimit * Risky + (1 - ShareLimit) * Rfree in
  (G / Rport ** CRRA) * (TranShk + attr (PortfolioSolution.hNrm solution_next)).

Definition hNrmNow : float := expected calc_hNrm ShockDstn / R_adj.

Definition cFuncLimitIntercept : float := MPCminNow * hNrmNow.
Definition cFuncLimitSlope : float := MPCminNow.

(** *** Lines 460-472: grids *)

Definition aNrmGrid : vec :=
  if BoroCnstNat_iszero then aXtraGrid else np_insert0 (Fin 0) aXtraGrid.

Definition bNrmGrid : vec :=
  if BoroCnstNat_iszero
  then np_insert0 (RiskyMin * nth 0 aXtraGrid NonFinite) (map (fmul RiskyMax) aXtraGrid)
  else map (fmul RiskyMax) (np_insert0 (Fin 0) aXtraGrid).

Definition aNrmCount : nat := length aNrmGrid.
Definition ShareCount : nat := length ShareGrid.

(** An expectation taken at every point of a pair of tiled arrays. *)
Definition expected_on {A} (f : A -> float -> float -> float) (d : Distribution A)
  (X Z : mat) : mat :=
  mat_zipWith (fun x z => expected (fun S => f S x z) d) X Z.

Definition scale (k : float) (M : mat) : mat := map (map (fmul k)) M.

(** *** Lines 479-655: independent income and return distributions *)

Definition bNrmNext : mat := fst (meshgrid_ij bNrmGrid ShareGrid).
Definition ShareNext_b : mat := snd (meshgrid_ij bNrmGrid ShareGrid).

Definition calc_mNrm_next (S : IncShk) (b : float) : float :=
  b / (PermShk S * PermGroFac) + TranShk S.

Definition calc_dvdm_next (S : IncShk) (b z : float) : float :=
  let mNrm_next := calc_mNrm_next S b in
  let dvdmAdj_next := call1 vPfuncAdj_next mNrm_next in
  let dvdm_next :=
    if AdjustPrb <? 1 then
      let Share_next_expanded := z + 0 in
      let dvdmFxd_next := call2 dvdmFuncFxd_next mNrm_next Share_next_expanded in
      AdjustPrb * dvdmAdj_next + (1 - AdjustPrb) * dvdmFxd_next
    else dvdmAdj_next in
  (PermShk S * PermGroFac) ** (- CRRA) * dvdm_next.

Definition calc_dvds_next (S : IncShk) (b z : float) : float :=
  let mNrm_next := calc_mNrm_next S b in
  let dvdsAdj_next : float := 0 in
  let dvds_next :=
    if AdjustPrb <? 1 then
      let Share_next_expanded := z + 0 in
      let dvdsFxd_next := call2 dvdsFuncFxd_next mNrm_next Share_next_expanded in
      AdjustPrb * dvdsAdj_next + (1 - AdjustPrb) * dvdsFxd_next
    else dvdsAdj_next in
  (PermShk S * PermGroFac) ** (1 - CRRA) * dvds_next.

Definition dvdb_intermed : mat := expected_on calc_dvdm_next IncShkDstn bNrmNext ShareNext_b.
Definition dvdbNvrs_intermed : mat := map (map (uPinv CRRA)) dvdb_intermed.
Definition dvdbNvrsFunc_intermed : Func := BilinearInterp dvdbNvrs_intermed bNrmGrid ShareGrid.
Definition dvdbFunc_intermed : Func := MargValueFuncCRRA dvdbNvrsFunc_intermed CRRA.

Definition dvds_intermed : mat := expected_on calc_dvds_next IncShkDstn bNrmNext ShareNext_b.
Definition dvdsFunc_intermed : Func := BilinearInterp dvds_intermed bNrmGrid ShareGrid.

Definition aNrmNow : mat := fst (meshgrid_ij aNrmGrid ShareGrid).
Definition ShareNext : mat := snd (meshgrid_ij aNrmGrid ShareGrid).

Definition calc_EndOfPrd_dvda (S a z : float) : float :=
  let Rxs := S - Rfree in
  let Rport := Rfree + z * Rxs in
  let bNrm_next := Rport * a in
  let z_rep := z + 0 in
  Rport * call2 dvdbFunc_intermed bNrm_next z_rep.

Definition calc_EndOfPrddvds (S a z : float) : float :=
  let Rxs := S - Rfree in
  let Rport := Rfree + z * Rxs in
  let bNrm_next := Rport * a in
  let z_rep := z + 0 in
  Rxs * a * call2 dvdbFunc_intermed bNrm_next z_rep
  + call2 dvdsFunc_intermed bNrm_next z_rep.

Definition EndOfPrd_dvda_indep : mat :=
  scale DiscFacEff (expected_on calc_EndOfPrd_dvda RiskyDstn aNrmNow ShareNext).
Definition EndOfPrd_dvds_indep : mat :=
  scale DiscFacEff (expected_on calc_EndOfPrddvds RiskyDstn aNrmNow ShareNext).

Definition calc_v_intermed (S : IncShk) (b z : float) : float :=
  let mNrm_next := calc_mNrm_next S b in
  let vAdj_next := call1 vFuncAdj_next mNrm_next in
  let v_next :=
    if AdjustPrb <? 1 then
      let vFxd_next := call2 vFuncFxd_next mNrm_next z in
      AdjustPrb * vAdj_next + (1 - AdjustPrb) * vFxd_next
    else vAdj_next in
  (PermShk S * PermGroFac) ** (1 - CRRA) * v_next.

Definition v_intermed : mat := expected_on calc_v_intermed IncShkDstn bNrmNext ShareNext_b.
Definition vNvrs_intermed : mat := map (map (uinv CRRA)) v_intermed.
Definition vNvrsFunc_intermed : Func := BilinearInterp vNvrs_intermed bNrmGrid ShareGrid.
Definition vFunc_intermed : Func := ValueFuncCRRA vNvrsFunc_intermed CRRA.

Definition calc_EndOfPrd_v_indep (S a z : float) : float :=
  let Rxs := S - Rfree in
  let Rport := Rfree + z * Rxs in
  let bNrm_next := Rport * a in
  let z_rep := z + 0 in
  call2 vFunc_intermed bNrm_next z_rep.

Definition EndOfPrd_v_indep : mat :=
  scale DiscFacEff (expected_on calc_EndOfPrd_v_indep RiskyDstn aNrmNow ShareNext).
Definition EndOfPrd_vNvrsFunc_indep : Func :=
  BilinearInterp (map (map (uinv CRRA)) EndOfPrd_v_indep) aNrmGrid ShareGrid.

(** *** Lines 657-760: joint distribution of income and returns *)

Definition calc_mNrm_next_joint (S : JointShk) (a z : float) : float :=
  let Rxs := Risky S - Rfree in
  let Rport := Rfree + z * Rxs in
  let bNrm_next := Rport * a in
  bNrm_next / (PermShk (Inc S) * PermGroFac) + TranShk (Inc S).

Definition calc_EndOfPrd_dvdx (S : JointShk) (a z : float) : float * float :=
  let mNrm_next := calc_mNrm_next_joint S a z in
  let Rxs := Risky S - Rfree in
  let Rport := Rfree + z * Rxs in
  let dvdmAdj_next := call1 vPfuncAdj_next mNrm_next in
  let dvdsAdj_next : float := 0 in
  let next :=
    if AdjustPrb <? 1 then
      let Share_next_expanded := z + 0 in
      let dvdmFxd_next := call2 dvdmFuncFxd_next mNrm_next Share_next_expanded in
      let dvdsFxd_next := call2 dvdsFuncFxd_next mNrm_next Share_next_expanded in
      (AdjustPrb * dvdmAdj_next + (1 - AdjustPrb) * dvdmFxd_next,
       AdjustPrb * dvdsAdj_next + (1 - AdjustPrb) * dvdsFxd_next)
    else (dvdmAdj_next, dvdsAdj_next) in
  let dvdm_next := fst next in
  let dvds_next := snd next in
  let EndOfPrd_dvda := Rport * (PermShk (Inc S) * PermGroFac) ** (- CRRA) * dvdm_next in
  let EndOfPrd_dvds :=
    Rxs * a * (PermShk (Inc S) * PermGroFac) ** (- CRRA) * dvdm_next
    + (PermShk (Inc S) * PermGroFac) ** (1 - CRRA) * dvds_next in
  (EndOfPrd_dvda, EndOfPrd_dvds).

Definition calc_EndOfPrd_v_joint (S : JointShk) (a z : float) : float :=
  let mNrm_next := calc_mNrm_next_joint S a z in
  let vAdj_next := call1 vFuncAdj_next mNrm_next in
  let v_next :=
    if AdjustPrb <? 1 then
      let Share_next_expanded := z + 0 in
      let vFxd_next := call2 vFuncFxd_next mNrm_next Share_next_expanded in
      AdjustPrb * vAdj_next + (1 - AdjustPrb) * vFxd_next
    else vAdj_next in
  (PermShk (Inc S) * PermGroFac) ** (1 - CRRA) * v_next.

Definition EndOfPrd_dvda_joint : mat :=
  scale DiscFacEff
    (expected_on (fun S a z => fst (calc_EndOfPrd_dvdx S a z)) ShockDstn aNrmNow ShareNext).
Definition EndOfPrd_dvds_joint : mat :=
  scale DiscFacEff
    (expected_on (fun S a z => snd (calc_EndOfPrd_dvdx S a z)) ShockDstn aNrmNow ShareNext).
Definition EndOfPrd_v_joint : mat :=
  scale DiscFacEff (expected_on calc_EndOfPrd_v_joint ShockDstn aNrmNow ShareNext).

Definition EndOfPrd_vNvrsP_joint : mat :=
  mat_zipWith fmul EndOfPrd_dvda_joint (map (map (uinvP CRRA)) EndOfPrd_v_joint).
Definition EndOfPrd_vNvrsFunc_by_Share : list Func :=
  map (fun j => CubicInterp (col j aNrmNow)
                            (col j (map (map (uinv CRRA)) EndOfPrd_v_joint))
                            (col j EndOfPrd_vNvrsP_joint))
      (seq 0 ShareCount).
Definition EndOfPrd_vNvrsFunc_joint : Func :=
  LinearInterpOnInterp1D EndOfPrd_vNvrsFunc_by_Share ShareGrid.

(** *** The arrays both branches bind *)

Definition EndOfPrd_dvda : mat :=
  if IndepDstnBool then EndOfPrd_dvda_indep else EndOfPrd_dvda_joint.
Definition EndOfPrd_dvds : mat :=
  if IndepDstnBool then EndOfPrd_dvds_indep else EndOfPrd_dvds_joint.
Definition EndOfPrd_dvdaNvrs : mat := map (map (uPinv CRRA)) EndOfPrd_dvda.
(** Bound only when [vFuncBool] holds. *)
Definition EndOfPrd_v : mat :=
  if IndepDstnBool then EndOfPrd_v_indep else EndOfPrd_v_joint.
Definition EndOfPrd_vFunc : Func :=
  ValueFuncCRRA
    (if IndepDstnBool then EndOfPrd_vNvrsFunc_indep else EndOfPrd_vNvrsFunc_joint) CRRA.

(** *** Lines 762-817: optimal share and consumption on the asset grid *)

Definition ShareAdj_opt : vec :=
  if DiscreteShareBool then ShareAdj_discrete ShareGrid EndOfPrd_v
  else ShareAdj_continuous ShareGrid EndOfPrd_dvds.
Definition cNrmAdj_opt : vec :=
  if DiscreteShareBool then cNrmAdj_discrete EndOfPrd_v EndOfPrd_dvdaNvrs
  else cNrmAdj_continuous EndOfPrd_dvds EndOfPrd_dvdaNvrs.

Definition ShareAdj_now : vec := fix_bottom_share BoroCnstNat_iszero ShareAdj_opt.
Definition cNrmAdj_now : vec := fix_bottom_cNrm BoroCnstNat_iszero EndOfPrd_dvdaNvrs cNrmAdj_opt.

(** *** Lines 819-847: consumption and marginal value functions *)

Definition mNrmAdj_now : vec := np_insert0 (Fin 0) (zipWith fadd aNrmGrid cNrmAdj_now).
(** [cNrmAdj_now] after line 824 rebinds it. *)
Definition cNrmAdj_now0 : vec := np_insert0 (Fin 0) cNrmAdj_now.
Definition cFuncAdj_now : Func := LinearInterp mNrmAdj_now cNrmAdj_now0 None None.

Definition vPfuncAdj_now : Func := MargValueFuncCRRA cFuncAdj_now CRRA.

Definition cNrmFxd_temp (j : nat) : vec := np_insert0 (Fin 0) (col j EndOfPrd_dvdaNvrs).
Definition mNrmFxd_temp (j : nat) : vec :=
  np_insert0 (Fin 0) (zipWith fadd aNrmGrid (drop1 (cNrmFxd_temp j))).
Definition dvdsFxd_temp (j : nat) : vec :=
  np_insert0 (at2 EndOfPrd_dvds 0 j) (col j EndOfPrd_dvds).
Definition cFuncFxd_by_Share : list Func :=
  map (fun j => LinearInterp (mNrmFxd_temp j) (cNrmFxd_temp j) None None) (seq 0 ShareCount).
Definition dvdsFuncFxd_by_Share : list Func :=
  map (fun j => LinearInterp (mNrmFxd_temp j) (dvdsFxd_temp j) None None) (seq 0 ShareCount).
Definition cFuncFxd_now : Func := LinearInterpOnInterp1D cFuncFxd_by_Share ShareGrid.
Definition dvdsFuncFxd_now : Func := LinearInterpOnInterp1D dvdsFuncFxd_by_Share ShareGrid.

Definition ShareFuncFxd_now : Func := IdentityFunction 1 2.
Definition dvdmFuncFxd_now : Func := MargValueFuncCRRA cFuncFxd_now CRRA.

(** *** Lines 849-870: the share function *)

Definition mNrmAdj_mid : vec :=
  zipWith (fun hi lo => (hi + lo) / 2) (drop1 (drop1 mNrmAdj_now)) (init (drop1 mNrmAdj_now)).
Definition mNrmAdj_plus : vec :=
  map (fun m => m * (1 + Fin (1 # 1000000000000))) mNrmAdj_mid.
Definition mNrmAdj_comb : vec :=
  np_append (np_insert0 (Fin 0) (interleave mNrmAdj_mid mNrmAdj_plus)) (last_of mNrmAdj_now).
Definition Share_comb : vec := interleave ShareAdj_now ShareAdj_now.

Definition Share_lower_bound : float :=
  if BoroCnstNat_iszero then ShareLimit else 1.
(** [ShareAdj_now] after line 869 rebinds it (continuous mode only). *)
Definition ShareAdj_now0 : vec := np_insert0 Share_lower_bound ShareAdj_now.

Definition ShareFuncAdj_now : Func :=
  if DiscreteShareBool
  then LinearInterp mNrmAdj_comb Share_comb None None
  else LinearInterp mNrmAdj_now ShareAdj_now0 (Some ShareLimit) (Some (Fin 0)).

(** *** Lines 872-881: the stored arrays *)

Definition save_a : vec := aNrmGrid.
Definition save_eop_dvda_adj : vec := map (uP CRRA) cNrmAdj_now0.
Definition save_share_adj : vec :=
  if DiscreteShareBool then ShareAdj_now else ShareAdj_now0.
Definition save_share_grid : vec := ShareGrid.
Definition save_eop_dvda_fxd : mat := map (map (uP CRRA)) EndOfPrd_dvda.
Definition save_eop_dvds_fxd : mat := EndOfPrd_dvds.

(** *** Lines 883-926: value functions *)

Definition mNrm_temp : vec := aXtraGrid.
Definition cNrm_temp : vec := map (call1 cFuncAdj_now) mNrm_temp.
Definition aNrm_temp : vec := zipWith (fun m c => fmax (m - c) 0) mNrm_temp cNrm_temp.
Definition Share_temp : vec := map (call1 ShareFuncAdj_now) mNrm_temp.
Definition v_temp : vec :=
  zipWith fadd (map (u CRRA) cNrm_temp) (zipWith (call2 EndOfPrd_vFunc) aNrm_temp Share_temp).
Definition vNvrs_temp : vec := map (uinv CRRA) v_temp.
Definition vNvrsP_temp : vec :=
  zipWith fmul (map (uP CRRA) cNrm_temp) (map (uinvP CRRA) v_temp).
Definition vNvrsFuncAdj : Func :=
  CubicInterp (np_insert0 (Fin 0) mNrm_temp)
              (np_insert0 (Fin 0) vNvrs_temp)
              (np_insert0 (nth 0 vNvrsP_temp NonFinite) vNvrsP_temp).

Definition mNrm_temp2 : mat := fst (meshgrid_xy aXtraGrid ShareGrid).
Definition Share_temp2 : mat := snd (meshgrid_xy aXtraGrid ShareGrid).
Definition cNrm_temp2 : mat := mat_zipWith (call2 cFuncFxd_now) mNrm_temp2 Share_temp2.
Definition aNrm_temp2 : mat := mat_zipWith fsub mNrm_temp2 cNrm_temp2.
Definition v_temp2 : mat :=
  mat_zipWith fadd (map (map (u CRRA)) cNrm_temp2)
                   (mat_zipWith (call2 EndOfPrd_vFunc) aNrm_temp2 Share_temp2).
Definition vNvrs_temp2 : mat := map (map (uinv CRRA)) v_temp2.
Definition vNvrsP_temp2 : mat :=
  mat_zipWith fmul (map (map (uP CRRA)) cNrm_temp2) (map (map (uinvP CRRA)) v_temp2).
Definition vNvrsFuncFxd_by_Share : list Func :=
  map (fun j => CubicInterp (np_insert0 (Fin 0) (col 0 mNrm_temp2))
                            (np_insert0 (Fin 0) (col j vNvrs_temp2))
                            (np_insert0 (at2 vNvrsP_temp2 j 0) (col j vNvrsP_temp2)))
      (seq 0 ShareCount).
Definition vNvrsFuncFxd : Func := LinearInterpOnInterp1D vNvrsFuncFxd_by_Share ShareGrid.

Definition vFuncAdj_now : Func :=
  if vFuncBool then ValueFuncCRRA vNvrsFuncAdj CRRA else NullFunc.
Definition vFuncFxd_now : Func :=
  if vFuncBool then ValueFuncCRRA vNvrsFuncFxd CRRA else NullFunc.

(** *** Lines 928-950: the packaged solution *)

Definition solution_now : PortfolioSolution.t :=
  PortfolioSolution.set_hNrm_MPCmin
    (PortfolioSolution.__init__
       (Some cFuncAdj_now) (Some ShareFuncAdj_now)
       (Some vFuncAdj_now) (Some vPfuncAdj_now)
       (Some cFuncFxd_now) (Some ShareFuncFxd_now)
       (Some vFuncFxd_now) (Some dvdmFuncFxd_now) (Some dvdsFuncFxd_now)
       (Some save_a) (Some save_share_adj) (Some save_eop_dvda_adj)
       (Some save_share_grid) (Some save_eop_dvda_fxd) (Some save_eop_dvds_fxd)
       (Some AdjustPrb))
    hNrmNow MPCminNow.

(** *** The interpolation error of the intermediate functions

    The independent path evaluates its intermediate functions at the bank
    balances [Rport * a], between the nodes of [bNrmGrid].  The predicates
    below bound, at every point where it does so, the distance between the
    value of the interpolated intermediate function and the expectation
    over income shocks that it stands for (both being finite). *)





(** *** Exceptions, in program order

    The two configuration checks come first.  After them: reductions over an
    empty array (lines 417 and 426), the quotient [1.0 / CRRA] of two Python
    floats at [CRRA = 0.0] (line 437), a missing attribute of
    [solution_next] (lines 438 and 447), and indices out of range.  Of the
    interpolant constructors, [CubicInterp] needs two nodes: on a single
    node its constructor reads a local variable that its loop over the
    segments never bound.  The solver calls it on the asset grid on the
    joint path when the value function is requested (line 753); the other
    calls (lines 897 and 915) come after an index that fails first on the
    arrays that would leave a single node. *)

Definition is_empty {A} (l : list A) : bool :=
  match l with [] => true | _ => false end.
Definition is_None {A} (o : option A) : bool :=
  match o with None => true | Some _ => false end.

Definition config_guards : list (bool * exn) :=
  [ (BoroCnstArt_nonzero, ValueError msg_BoroCnstArt);
    (DiscreteShareBool && negb vFuncBool, ValueError msg_DiscreteShare) ].

Definition runtime_guards : list (bool * exn) :=
  [ (is_empty IncShkDstn,
     ValueError "zero-size array to reduction operation minimum which has no identity");
    (is_empty RiskyDstn,
     ValueError "zero-size array to reduction operation maximum which has no identity");
    (CRRA ==? 0, ZeroDivisionError "float division by zero");
    (is_None (PortfolioSolution.MPCmin solution_next),
     AttributeError "'PortfolioSolution' object has no attribute 'MPCmin'");
    (is_None (PortfolioSolution.hNrm solution_next),
     AttributeError "'PortfolioSolution' object has no attribute 'hNrm'");
    (BoroCnstNat_iszero && is_empty aXtraGrid,
     IndexError "index 0 is out of bounds for axis 0 with size 0");
    (negb IndepDstnBool && vFuncBool && negb (ShareCount =? 0)%nat && (aNrmCount =? 1)%nat,
     UnboundLocalError "local variable 'x1' referenced before assignment");
    ((if DiscreteShareBool then ShareCount =? 0 else ShareCount <=? 1)%nat,
     ValueError "attempt to get argmax of an empty sequence");
    (vFuncBool && is_empty aXtraGrid,
     IndexError "index 0 is out of bounds for axis 0 with size 0");
    (vFuncBool && (length aXtraGrid <? ShareCount)%nat,
     IndexError "index is out of bounds for axis 1") ].

Definition raised : option exn := first_raised (config_guards ++ runtime_guards).

Definition solve_one_period_ConsPortfolio : result PortfolioSolution.t :=
  match raised with
  | Some e => Raise e
  | None => Return solution_now
  end.

End Solver.

(* ================================================================== *)
(** ** What the claims of the specification say, in its own words *)
(* ================================================================== *)

(** A fatal configuration error: a [ValueError] carrying one of the two
    messages of the configuration checks. *)
Definition is_config_error {A : Type} (r : result A) : Prop :=
  r = Raise (ValueError msg_BoroCnstArt) \/ r = Raise (ValueError msg_DiscreteShare).

(** "BoroCnstArt is exactly 0.0" *)
Definition exactly_zero (b : option float) : Prop :=
  exists q, b = Some (Fin q) /\ q == 0.

(** The spec's wording of the bracketing segment: "the last index where the
    value is >= 0 followed by a value <= 0". *)
Fixpoint last_true (bs : list bool) : nat :=
  match bs with
  | [] => 0
  | b :: tl => if existsb (fun c => c) tl then S (last_true tl) else 0
  end.

Definition share_idx_last_crossing (FOC_s : mat) : list nat :=
  map last_true (crossing FOC_s).

(** The share the spec's wording selects: the same interpolation as the
    code's, within the last crossing segment. *)
Definition ShareAdj_last_crossing (ShareGrid : vec) (FOC_s : mat) : vec :=
  let idx := share_idx_last_crossing FOC_s in
  let al := zipWith (fun t b => 1 - t / (t - b)) (pick FOC_s (map S idx)) (pick FOC_s idx) in
  zipWith (fun al bt => (1 - al) * fst bt + al * snd bt) al
          (combine (take_at ShareGrid idx) (take_at ShareGrid (map S idx))).


(** Boolean checks on arrays. *)
Definition in_range_b (lo hi : Q) (x : float) : bool :=
  match x with Fin q => Qle_bool lo q && Qle_bool q hi | NonFinite => false end.

Fixpoint increasing_b (xs : vec) : bool :=
  match xs with
  | x0 :: ((x1 :: _) as tl) => (x0 <? x1) && increasing_b tl
  | _ => true
  end.


Definition all_finite (xs : vec) : bool := forallb is_finite xs.

(** The nodes of a piecewise-linear interpolant. *)
Definition x_nodes (f : Func) : vec :=
  match f with LinearInterp xs _ _ _ => xs | _ => [] end.
Definition y_nodes (f : Func) : vec :=
  match f with LinearInterp _ ys _ _ => ys | _ => [] end.

(** The piecewise-linear function through rational nodes [(q, y)], on the
    span of the nodes: what [call] computes for a [LinearInterp] with finite,
    increasing abscissas (lemma [call1_LinearInterp_pl]). *)
Fixpoint pl (nodes : list (Q * Q)) (x : Q) : Q :=
  match nodes with
  | (q0, y0) :: (((q1, y1) :: _) as tl) =>
      if Qle_bool x q1
      then ((1 - (x - q0) / (q1 - q0)) * y0 + (x - q0) / (q1 - q0) * y1)%Q
      else pl tl x
  | _ => 0%Q
  end.

Fixpoint q_increasing (qs : list Q) : Prop :=
  match qs with
  | q0 :: ((q1 :: _) as tl) => (q0 < q1)%Q /\ q_increasing tl
  | _ => True
  end.


(* ================================================================== *)
(** ** An executable instance of the numerical library, and sample inputs *)
(* ================================================================== *)

(** [x ** y] where the result is a rational this function can find: an
    integer exponent, or a half-integer exponent of a positive perfect
    square.  Elsewhere the instance gives [NonFinite]; the sample inputs
    below stay within the exact cases. *)
Definition pow_exact (x y : Q) : float :=
  let e := Qred y in
  let n := Qnum e in
  match Qden e with
  | 1%positive =>
      if Qeq_bool x 0 && (n <? 0)%Z then NonFinite else Fin (Qred (x ^ n))
  | 2%positive =>
      let r := Qred x in
      let p := Qnum r in
      let q := Zpos (Qden r) in
      let sp := Z.sqrt p in
      let sq := Z.sqrt q in
      if (0 <? p)%Z && (sp * sp =? p)%Z && (sq * sq =? q)%Z
      then Fin (Qred ((sp # Z.to_pos sq) ^ n))
      else NonFinite
  | _ => NonFinite
  end.

(** The logarithm and the exponential at the one argument where each is
    rational. *)
Definition log_exact (x : Q) : float := if Qeq_bool x 1 then Fin 0 else NonFinite.
Definition exp_exact (x : Q) : float := if Qeq_bool x 0 then Fin 1 else NonFinite.

(** The instance is open in the part of the library the model leaves out
    ([ext]); the sample runs below never reach that part (lemma
    [sample_runs_ignore_extern_call]). *)
Definition lib_with (ext : Func -> list float -> float) : NumLib :=
  {| pow := pow_exact; log := log_exact; exp := exp_exact; extern_call := ext |}.

Definition exact_lib : NumLib := lib_with (fun _ _ => NonFinite).

(** Rational stand-ins for the exponential and the logarithm.  For the
    exponential, the partial sum [1 + t + t^2/2] of its series at [t >= 0],
    and the reciprocal of that sum at [-t] below 0: like the exponential it
    is positive, 1 at 0, at most 1 below 0, and it never exceeds the
    exponential at [t >= 0].  For the logarithm, the first term
    [2 (x - 1) / (x + 1)] of its series in [(x - 1) / (x + 1)]: like the
    logarithm it is increasing on [x > 0] and 0 at 1. *)
Definition exp_series (t : Q) : float :=
  if Qle_bool 0 t then Fin (1 + t + t * t / 2)%Q
  else Fin (/ (1 - t + t * t / 2))%Q.
Definition log_series (x : Q) : float :=
  if Qle_bool x 0 then NonFinite else Fin (2 * (x - 1) / (x + 1))%Q.

(** The instance with these two. *)
Definition series_lib : NumLib :=
  {| pow := pow_exact; log := log_series; exp := exp_series;
     extern_call := fun _ _ => NonFinite |}.

Module Sample.

Definition half : float := Fin (1 # 2).

(** Two equally likely transitory shocks, no permanent shock. *)
Definition IncShkDstn : Distribution IncShk :=
  [ (half, {| PermShk := Fin 1; TranShk := Fin (1 # 2) |});
    (half, {| PermShk := Fin 1; TranShk := Fin (3 # 2) |}) ].
(** No income risk. *)
Definition IncShkDstn_sure : Distribution IncShk :=
  [ (Fin 1, {| PermShk := Fin 1; TranShk := Fin 1 |}) ].
(** Two equally likely risky returns, 0.5 and 1.6. *)
Definition RiskyDstn : Distribution float :=
  [ (half, Fin (1 # 2)); (half, Fin (8 # 5)) ].
(** A risky return equal to the risk-free return. *)
Definition RiskyDstn_flat : Distribution float := [ (Fin 1, Fin 1) ].

Definition aXtraGrid : vec := [Fin 1; Fin 10].
Definition ShareGrid : vec := [Fin 0; Fin (1 # 2); Fin 1].

(** One backward step from the terminal period, log utility ([CRRA = 1]),
    [LivPrb = 1], [DiscFac = 0.9], [Rfree = 1], [PermGroFac = 1],
    [BoroCnstArt = 0.0], [AdjustPrb = 1], [ShareLimit = 0.5], continuous
    share, no value function; the joint distribution is the independent
    product of the two marginals. *)
Definition solve (Inc : Distribution IncShk) (Rsk : Distribution float)
  (IndepDstnBool : bool) : result PortfolioSolution.t :=
  @solve_one_period_ConsPortfolio exact_lib
    (update_solution_terminal (Fin 1)) (product_dstn Inc Rsk) Inc Rsk
    (Fin 1) (Fin (9 # 10)) (Fin 1) (Fin 1) (Fin 1) (Some (Fin 0))
    aXtraGrid ShareGrid (Fin 1) half false false IndepDstnBool.

(** The solution that [solve] returns. *)
Definition solution (Inc : Distribution IncShk) (Rsk : Distribution float)
  (IndepDstnBool : bool) : PortfolioSolution.t :=
  @solution_now exact_lib
    (update_solution_terminal (Fin 1)) (product_dstn Inc Rsk) Inc Rsk
    (Fin 1) (Fin (9 # 10)) (Fin 1) (Fin 1) (Fin 1)
    aXtraGrid ShareGrid (Fin 1) half false false IndepDstnBool.

(** The end-of-period marginal value of assets along each path. *)
Definition dvda_indep : mat :=
  @EndOfPrd_dvda_indep exact_lib (update_solution_terminal (Fin 1))
    IncShkDstn RiskyDstn (Fin 1) (Fin (9 # 10)) (Fin 1) (Fin 1) (Fin 1)
    aXtraGrid ShareGrid (Fin 1).
Definition dvda_joint : mat :=
  @EndOfPrd_dvda_joint exact_lib (update_solution_terminal (Fin 1))
    (product_dstn IncShkDstn RiskyDstn) IncShkDstn
    (Fin 1) (Fin (9 # 10)) (Fin 1) (Fin 1) (Fin 1)
    aXtraGrid ShareGrid (Fin 1).

(** The same step with [CRRA = 2] and the value function requested, on
    three asset gridpoints (as many as there are shares), along each path;
    and its end-of-period values. *)
Definition aXtraGrid3 : vec := [Fin 1; Fin 5; Fin 10].




(** A row of marginal values of share with two sign changes, over four
    shares. *)
Definition ShareGrid4 : vec := [Fin 0; Fin (1 # 3); Fin (2 # 3); Fin 1].
Definition FOC_two_crossings : mat := [[Fin 1; Fin (-1); Fin 1; Fin (-1)]].

(** A next-period solution whose marginal value of share, for an agent who
    cannot adjust, alternates in sign over the four shares (and does not
    depend on market resources); otherwise the terminal solution. *)
Definition next_two_crossings : PortfolioSolution.t :=
  PortfolioSolution.set_hNrm_MPCmin
    (PortfolioSolution.__init__
       (Some cFuncAdj_terminal) (Some ShareFuncAdj_terminal)
       (Some (vFuncAdj_terminal (Fin 1))) (Some (vPfuncAdj_terminal (Fin 1)))
       (Some cFuncFxd_terminal) (Some ShareFuncFxd_terminal)
       (Some (vFuncFxd_terminal (Fin 1))) (Some (dvdmFuncFxd_terminal (Fin 1)))
       (Some (LinearInterpOnInterp1D
                [ConstantFunction (Fin 1); ConstantFunction (Fin (-1));
                 ConstantFunction (Fin 1); ConstantFunction (Fin (-1))]
                ShareGrid4))
       None None None None None None None)
    (Fin 0) (Fin 1).

(** One backward step from it: an agent who can never adjust next period
    ([AdjustPrb = 0]), a risky return equal to [Rfree = 1], four shares,
    continuous share; the other inputs as in [solve]. *)
Definition solve_two_crossings : result PortfolioSolution.t :=
  @solve_one_period_ConsPortfolio exact_lib next_two_crossings
    (product_dstn IncShkDstn RiskyDstn_flat) IncShkDstn RiskyDstn_flat
    (Fin 1) (Fin (9 # 10)) (Fin 1) (Fin 1) (Fin 1) (Some (Fin 0))
    aXtraGrid ShareGrid4 (Fin 0) half false false false.



(** The step of [solve] with an exponential at hand (for the share function
    beyond its last gridpoint), for a given [ShareLimit] and asset grid. *)
Definition solve_series (ShareLimit : float) (aXtra : vec) : result PortfolioSolution.t :=
  @solve_one_period_ConsPortfolio series_lib
    (update_solution_terminal (Fin 1)) (product_dstn IncShkDstn RiskyDstn)
    IncShkDstn RiskyDstn
    (Fin 1) (Fin (9 # 10)) (Fin 1) (Fin 1) (Fin 1) (Some (Fin 0))
    aXtra ShareGrid (Fin 1) ShareLimit false false false.

(** The solution that [solve_series] returns. *)
Definition solution_series (ShareLimit : float) (aXtra : vec) : PortfolioSolution.t :=
  @solution_now series_lib
    (update_solution_terminal (Fin 1)) (product_dstn IncShkDstn RiskyDstn)
    IncShkDstn RiskyDstn
    (Fin 1) (Fin (9 # 10)) (Fin 1) (Fin 1) (Fin 1)
    aXtra ShareGrid (Fin 1) ShareLimit false false false.

(** The same step in discrete-share mode, with the value function, on
    three asset gridpoints; and the solution it returns. *)
Definition solve_discrete : result PortfolioSolution.t :=
  @solve_one_period_ConsPortfolio series_lib
    (update_solution_terminal (Fin 1)) (product_dstn IncShkDstn RiskyDstn)
    IncShkDstn RiskyDstn
    (Fin 1) (Fin (9 # 10)) (Fin 1) (Fin 1) (Fin 1) (Some (Fin 0))
    aXtraGrid3 ShareGrid (Fin 1) half true true false.

Definition solution_discrete : PortfolioSolution.t :=
  @solution_now series_lib
    (update_solution_terminal (Fin 1)) (product_dstn IncShkDstn RiskyDstn)
    IncShkDstn RiskyDstn
    (Fin 1) (Fin (9 # 10)) (Fin 1) (Fin 1) (Fin 1)
    aXtraGrid3 ShareGrid (Fin 1) half true true false.

(** A next-period solution whose marginal value of share, for an agent who
    cannot adjust, is 1 at share 0, 2 at share 1/3 and undefined above;
    otherwise the terminal solution.  And one backward step from it, as in
    [solve_two_crossings]. *)
Definition next_undefined_dvds : PortfolioSolution.t :=
  PortfolioSolution.set_hNrm_MPCmin
    (PortfolioSolution.__init__
       (Some cFuncAdj_terminal) (Some ShareFuncAdj_terminal)
       (Some (vFuncAdj_terminal (Fin 1))) (Some (vPfuncAdj_terminal (Fin 1)))
       (Some cFuncFxd_terminal) (Some ShareFuncFxd_terminal)
       (Some (vFuncFxd_terminal (Fin 1))) (Some (dvdmFuncFxd_terminal (Fin 1)))
       (Some (LinearInterpOnInterp1D
                [ConstantFunction (Fin 1); ConstantFunction (Fin 2);
                 NullFunc; NullFunc]
                ShareGrid4))
       None None None None None None None)
    (Fin 0) (Fin 1).

Definition solve_undefined_dvds : result PortfolioSolution.t :=
  @solve_one_period_ConsPortfolio exact_lib next_undefined_dvds
    (product_dstn IncShkDstn RiskyDstn_flat) IncShkDstn RiskyDstn_flat
    (Fin 1) (Fin (9 # 10)) (Fin 1) (Fin 1) (Fin 1) (Some (Fin 0))
    aXtraGrid ShareGrid4 (Fin 0) half false false false.

(** A row with one sign change, and consumption values for it. *)
Definition FOC_one_crossing : mat := [[Fin 2; Fin 1; Fin (-1)]].
Definition Nvrs_one_crossing : mat := [[Fin 1; Fin 2; Fin 3]].

End Sample.

(* ================================================================== *)
(** ** The continuous share choice, one asset gridpoint at a time *)
(* ================================================================== *)

(** What lines 776-809 leave at one asset gridpoint, given its row of
    [FOC_s] (and of [EndOfPrd_dvdaNvrs]): the array expressions of
    [ShareAdj_continuous] and [cNrmAdj_continuous] read at one index (lemmas
    [nth_ShareAdj_continuous] and [nth_cNrmAdj_continuous]). *)
Definition alpha_of_row (row : vec) : float :=
  let j := argmax_bool (crossing_row row) in
  1 - nth (S j) row NonFinite / (nth (S j) row NonFinite - nth j row NonFinite).

Definition share_of_row (ShareGrid row : vec) : float :=
  if nth 0 row NonFinite <? 0 then Fin 0
  else if last_of row >? 0 then Fin 1
  else let j := argmax_bool (crossing_row row) in
       (1 - alpha_of_row row) * nth j ShareGrid NonFinite
       + alpha_of_row row * nth (S j) ShareGrid NonFinite.

Definition cNrm_of_row (row crow : vec) : float :=
  if nth 0 row NonFinite <? 0 then nth 0 crow NonFinite
  else if last_of row >? 0 then last_of crow
  else let j := argmax_bool (crossing_row row) in
       (1 - alpha_of_row row) * nth j crow NonFinite
       + alpha_of_row row * nth (S j) crow NonFinite.

(** A sign change of the row at segment [k]: a value [>= 0] followed by a
    value [<= 0]. *)
Definition crosses_at (row : vec) (k : nat) : bool :=
  (nth k row NonFinite >=? 0) && (nth (S k) row NonFinite <=? 0).


(* ================================================================== *)
(** ** Predicates on solutions and function objects *)
(* ================================================================== *)

(** Two solutions that agree on every attribute but [hNrm]. *)
Definition same_but_hNrm (s1 s2 : PortfolioSolution.t) : Prop :=
  PortfolioSolution.cFuncAdj s1 = PortfolioSolution.cFuncAdj s2
  /\ PortfolioSolution.ShareFuncAdj s1 = PortfolioSolution.ShareFuncAdj s2
  /\ PortfolioSolution.vFuncAdj s1 = PortfolioSolution.vFuncAdj s2
  /\ PortfolioSolution.vPfuncAdj s1 = PortfolioSolution.vPfuncAdj s2
  /\ PortfolioSolution.cFuncFxd s1 = PortfolioSolution.cFuncFxd s2
  /\ PortfolioSolution.ShareFuncFxd s1 = PortfolioSolution.ShareFuncFxd s2
  /\ PortfolioSolution.vFuncFxd s1 = PortfolioSolution.vFuncFxd s2
  /\ PortfolioSolution.dvdmFuncFxd s1 = PortfolioSolution.dvdmFuncFxd s2
  /\ PortfolioSolution.dvdsFuncFxd s1 = PortfolioSolution.dvdsFuncFxd s2
  /\ PortfolioSolution.aGrid s1 = PortfolioSolution.aGrid s2
  /\ PortfolioSolution.Share_adj s1 = PortfolioSolution.Share_adj s2
  /\ PortfolioSolution.EndOfPrddvda_adj s1 = PortfolioSolution.EndOfPrddvda_adj s2
  /\ PortfolioSolution.ShareGrid s1 = PortfolioSolution.ShareGrid s2
  /\ PortfolioSolution.EndOfPrddvda_fxd s1 = PortfolioSolution.EndOfPrddvda_fxd s2
  /\ PortfolioSolution.EndOfPrddvds_fxd s1 = PortfolioSolution.EndOfPrddvds_fxd s2
  /\ PortfolioSolution.AdjPrb s1 = PortfolioSolution.AdjPrb s2
  /\ PortfolioSolution.MPCmin s1 = PortfolioSolution.MPCmin s2.

(** The node arrays handed to an interpolant constructor fit together: as
    many ordinates (and slopes) as abscissas, a table with one row per
    abscissa and one column per ordinate of the second grid, one member
    function per value of the second coordinate. *)
Fixpoint well_shaped (f : Func) : bool :=
  match f with
  | NullFunc | IdentityFunction _ _ | ConstantFunction _ => true
  | LinearInterp xs ys _ _ => (length xs =? length ys)%nat
  | CubicInterp xs fs ds =>
      ((length xs =? length fs) && (length xs =? length ds))%nat
  | BilinearInterp fv xs ys =>
      ((length fv =? length xs)
       && forallb (fun row : vec => length row =? length ys) fv)%nat
  | LinearInterpOnInterp1D fs ys =>
      ((length fs =? length ys) && forallb well_shaped fs)%nat
  | MargValueFuncCRRA c _ => well_shaped c
  | ValueFuncCRRA v _ => well_shaped v
  end.

(* ================================================================== *)
(** ** Simulation: the controls of a population of agents *)
(* ================================================================== *)

(** numpy on one-dimensional arrays, with the shape errors it raises. *)

(** [np.logical_and(a, b)]: elementwise on equal lengths; an array of length
    one is broadcast; other shapes do not fit. *)
Definition np_logical_and (a b : list bool) : result (list bool) :=
  if (length a =? length b)%nat then Return (zipWith andb a b)
  else match a, b with
       | [x], _ => Return (map (andb x) b)
       | _, [y] => Return (map (fun x => andb x y) a)
       | _, _ => Raise (ValueError "operands could not be broadcast together")
       end.

Definition np_logical_not (a : list bool) : list bool := map negb a.

(** The entries of [v] where [mask] holds, in order. *)
Fixpoint select {A} (mask : list bool) (v : list A) : list A :=
  match mask, v with
  | true :: mask', x :: v' => x :: select mask' v'
  | false :: mask', _ :: v' => select mask' v'
  | _, _ => []
  end.

(** [v[mask]] with a boolean mask: the mask must have the length of [v]. *)
Definition bool_index {A} (v : list A) (mask : list bool) : result (list A) :=
  if (length v =? length mask)%nat then Return (select mask v)
  else Raise (IndexError "boolean index did not match indexed array along axis 0").

(** The array [v] with the entries where [mask] holds replaced, in order, by
    the entries of [new]. *)
Fixpoint scatter {A} (mask : list bool) (new v : list A) : list A :=
  match mask, v with
  | true :: mask', x :: v' =>
      match new with
      | n :: new' => n :: scatter mask' new' v'
      | [] => x :: scatter mask' [] v'
      end
  | false :: mask', x :: v' => x :: scatter mask' new v'
  | _, _ => v
  end.

(** [v[mask] = new]: the mask must have the length of [v], and [new] one
    entry per selected place (or one entry in all, which is broadcast). *)
Definition bool_assign {A} (v : list A) (mask : list bool) (new : list A)
  : result (list A) :=
  if negb (length v =? length mask)%nat
  then Raise (IndexError "boolean index did not match indexed array along axis 0")
  else if (length new =? length (select mask v))%nat
  then Return (scatter mask new v)
  else match new with
       | [n] => Return (scatter mask (map (fun _ => n) (select mask v)) v)
       | _ => Raise (ValueError
                "NumPy boolean array indexing assignment cannot assign input values")
       end.

Definition bind {A B} (r : result A) (k : A -> result B) : result B :=
  match r with
  | Return a => k a
  | Raise e => Raise e
  end.

Module PortfolioConsumerType.

(** The attributes of the agent type that [get_controls] reads: the number of
    agents, the number of periods of the cycle, each agent's period, the
    shock [Adjust], the state [mNrm], and the solved periods. *)
Record t : Type := {
  AgentCount : nat;
  T_cycle : nat;
  t_cycle : list nat;
  shocks_Adjust : list bool;
  state_now_mNrm : vec;
  solution : list PortfolioSolution.t
}.

Section Controls.
Context {lib : NumLib}.
Variable self : t.

(** One turn of the loop of [get_controls], lines 283-300, on the arrays
    [cNrmNow] and [ShareNow]. *)
Definition get_controls_body (period : nat) (now : vec * vec) : result (vec * vec) :=
  let '(cNrmNow, ShareNow) := now in
  let these := map (Nat.eqb period) (t_cycle self) in
  bind (np_logical_and these (shocks_Adjust self)) (fun those =>
  match nth_error (solution self) period with
  | None => Raise (IndexError "list index out of range")
  | Some sol =>
  bind (bool_index (state_now_mNrm self) those) (fun m =>
  bind (bool_assign cNrmNow those (map (call1 (PortfolioSolution.cFuncAdj sol)) m))
    (fun cNrmNow =>
  bind (bool_assign ShareNow those (map (call1 (PortfolioSolution.ShareFuncAdj sol)) m))
    (fun ShareNow =>
  bind (np_logical_and these (np_logical_not (shocks_Adjust self))) (fun those =>
  bind (bool_index (state_now_mNrm self) those) (fun m =>
  bind (bool_index ShareNow those) (fun share =>
  bind (bool_assign cNrmNow those
          (zipWith (call2 (PortfolioSolution.cFuncFxd sol)) m share)) (fun cNrmNow =>
  bind (bool_assign ShareNow those
          (zipWith (call2 (PortfolioSolution.ShareFuncFxd sol)) m share)) (fun ShareNow =>
  Return (cNrmNow, ShareNow)))))))))
  end).

Fixpoint get_controls_loop (ts : list nat) (now : vec * vec) : result (vec * vec) :=
  match ts with
  | [] => Return now
  | period :: ts' => bind (get_controls_body period now) (get_controls_loop ts')
  end.

(** [PortfolioConsumerType.get_controls]: the arrays it stores in
    [self.controls["cNrm"]] and [self.controls["Share"]]. *)
Definition get_controls : result (vec * vec) :=
  let cNrmNow : vec := repeat NonFinite (AgentCount self) in
  let ShareNow : vec := repeat NonFinite (AgentCount self) in
  get_controls_loop (seq 0 (T_cycle self)) (cNrmNow, ShareNow).

(** What [get_controls] is to give agent [i] when its period has the solution
    [sol]: the policy functions of the adjuster at its market resources, or
    those of the agent with a fixed share at its market resources and at the
    share [share]. *)
Definition cNrm_in_period (sol : PortfolioSolution.t) (i : nat) (share : float) : float :=
  if nth i (shocks_Adjust self) false
  then call1 (PortfolioSolution.cFuncAdj sol) (nth i (state_now_mNrm self) NonFinite)
  else call2 (PortfolioSolution.cFuncFxd sol) (nth i (state_now_mNrm self) NonFinite) share.
Definition Share_in_period (sol : PortfolioSolution.t) (i : nat) (share : float) : float :=
  if nth i (shocks_Adjust self) false
  then call1 (PortfolioSolution.ShareFuncAdj sol) (nth i (state_now_mNrm self) NonFinite)
  else call2 (PortfolioSolution.ShareFuncFxd sol) (nth i (state_now_mNrm self) NonFinite)
         share.

End Controls.

(** The arrays of an agent type have one entry per agent, and every period
    of the cycle has its solution. *)
Definition well_formed (self : t) : Prop :=
  length (t_cycle self) = AgentCount self
  /\ length (shocks_Adjust self) = AgentCount self
  /\ length (state_now_mNrm self) = AgentCount self
  /\ (T_cycle self <= length (solution self))%nat.

End PortfolioConsumerType.

(** The period solutions this file builds: the terminal one, and every
    solution the period solver returns. *)
Inductive is_period_solution {lib : NumLib} : PortfolioSolution.t -> Prop :=
| terminal_period : forall CRRA, is_period_solution (update_solution_terminal CRRA)
| solved_period :
    forall solution_next ShockDstn IncShkDstn RiskyDstn LivPrb DiscFac CRRA Rfree
           PermGroFac BoroCnstArt aXtraGrid ShareGrid AdjustPrb ShareLimit vFuncBool
           DiscreteShareBool IndepDstnBool s,
    solve_one_period_ConsPortfolio solution_next ShockDstn IncShkDstn RiskyDstn
      LivPrb DiscFac CRRA Rfree PermGroFac BoroCnstArt aXtraGrid ShareGrid
      AdjustPrb ShareLimit vFuncBool DiscreteShareBool IndepDstnBool = Return s ->
    is_period_solution s.

(* ================================================================== *)
(** ** Parameter dictionaries *)
(* ================================================================== *)

(** The values a parameter dictionary holds. *)
Inductive pyval : Type :=
| PyFloat (x : Q)
| PyInt (n : Z)
| PyBool (b : bool)
| PyNone
| PyObject (repr : string).

(** A Python [dict] with string keys, in insertion order; no key occurs
    twice in a dictionary built with [dict_set] from the empty one. *)
Definition dict := list (string * pyval).

(** [d[k]] *)
Fixpoint dict_get (k : string) (d : dict) : option pyval :=
  match d with
  | [] => None
  | (k', v) :: d' => if String.eqb k k' then Some v else dict_get k d'
  end.

(** [d[k] = v]: the value of an existing key is replaced where it stands, a
    new key goes to the end. *)
Fixpoint dict_set (k : string) (v : pyval) (d : dict) : dict :=
  match d with
  | [] => [(k, v)]
  | (k', v') :: d' =>
      if String.eqb k k' then (k', v) :: d' else (k', v') :: dict_set k v d'
  end.

(** [d.update(other)] *)
Definition dict_update (d other : dict) : dict :=
  fold_left (fun acc kv => dict_set (fst kv) (snd kv) acc) other d.

(** Lines 953-975: [init_portfolio], from a copy of the dictionary
    [init_idiosyncratic_shocks] of [ConsIndShockModel] (not among the
    sources at hand, hence a parameter here). *)
Definition init_portfolio_items : dict :=
  [ ("RiskyAvg", PyFloat (108 # 100));
    ("RiskyStd", PyFloat (20 # 100));
    ("RiskyCount", PyInt 5);
    ("ShareCount", PyInt 25);
    ("AdjustPrb", PyFloat 1);
    ("DiscreteShareBool", PyBool false);
    ("aXtraMax", PyInt 100);
    ("aXtraCount", PyInt 200);
    ("aXtraNestFac", PyInt 1);
    ("BoroCnstArt", PyFloat 0);
    ("CRRA", PyFloat 5);
    ("DiscFac", PyFloat (90 # 100)) ]%string.

Definition init_portfolio (init_idiosyncratic_shocks : dict) : dict :=
  fold_left (fun acc kv => dict_set (fst kv) (snd kv) acc)
    init_portfolio_items init_idiosyncratic_shocks.

(** Lines 162-165: the parameters [PortfolioConsumerType.__init__] hands to
    its parent class: a copy of [init_portfolio], updated with the keywords
    of the call. *)
Definition PortfolioConsumerType_params (init_idiosyncratic_shocks kwds : dict) : dict :=
  dict_update (init_portfolio init_idiosyncratic_shocks) kwds.

(** Sample inputs for the simulation and the discrete mode. *)
Module SampleSim.

(** One backward step from the terminal period in discrete-share mode, with
    the value function: two shares, the other inputs as in [Sample.solve]. *)
Definition ShareGrid2 : vec := [Fin 0; Fin 1].
Definition solve_discrete : result PortfolioSolution.t :=
  @solve_one_period_ConsPortfolio exact_lib
    (update_solution_terminal (Fin 1))
    (product_dstn Sample.IncShkDstn Sample.RiskyDstn) Sample.IncShkDstn Sample.RiskyDstn
    (Fin 1) (Fin (9 # 10)) (Fin 1) (Fin 1) (Fin 1) (Some (Fin 0))
    Sample.aXtraGrid ShareGrid2 (Fin 1) Sample.half true true false.
Definition solution_discrete : PortfolioSolution.t :=
  @solution_now exact_lib
    (update_solution_terminal (Fin 1))
    (product_dstn Sample.IncShkDstn Sample.RiskyDstn) Sample.IncShkDstn Sample.RiskyDstn
    (Fin 1) (Fin (9 # 10)) (Fin 1) (Fin 1) (Fin 1)
    Sample.aXtraGrid ShareGrid2 (Fin 1) Sample.half true true false.

(** A next-period solution that differs from the terminal one in what the
    solver does not read. *)
Definition terminal_stripped : PortfolioSolution.t :=
  PortfolioSolution.set_hNrm_MPCmin
    (PortfolioSolution.__init__
       None None None (Some (vPfuncAdj_terminal (Fin 1)))
       None None None None None
       (Some [Fin 7]) None None None None None None)
    (Fin 0) (Fin 1).

(** Three agents in a cycle of one period: the first can adjust, the second
    cannot, the third is in a period outside the cycle. *)
Definition agents : PortfolioConsumerType.t :=
  {| PortfolioConsumerType.AgentCount := 3;
     PortfolioConsumerType.T_cycle := 1;
     PortfolioConsumerType.t_cycle := [0; 0; 5]%nat;
     PortfolioConsumerType.shocks_Adjust := [true; false; true];
     PortfolioConsumerType.state_now_mNrm := [Fin 2; Fin 3; Fin 4];
     PortfolioConsumerType.solution := [update_solution_terminal (Fin 1)] |}.

(** The same agents in a cycle of two periods with one solution. *)
Definition agents_two_periods : PortfolioConsumerType.t :=
  {| PortfolioConsumerType.AgentCount := 3;
     PortfolioConsumerType.T_cycle := 2;
     PortfolioConsumerType.t_cycle := [0; 0; 1]%nat;
     PortfolioConsumerType.shocks_Adjust := [true; false; true];
     PortfolioConsumerType.state_now_mNrm := [Fin 2; Fin 3; Fin 4];
     PortfolioConsumerType.solution := [update_solution_terminal (Fin 1)] |}.

End SampleSim.
(* ================================================================== *)
(** ** Basic facts *)
(* ================================================================== *)

Lemma first_raised_in : forall guards e,
  first_raised guards = Some e -> In e (map snd guards).
Proof.
  induction guards as [|[b e'] tl IH]; simpl; intros e H.
  - discriminate.
  - destruct b.
    + inversion H; subst; now left.
    + right; now apply IH.
Qed.

Lemma BoroCnstArt_nonzero_spec : forall b,
  BoroCnstArt_nonzero b = false <-> exactly_zero b.
Proof.
  intros b. unfold BoroCnstArt_nonzero, exactly_zero, fneb, feqb.
  destruct b as [[q|]|].
  - rewrite negb_false_iff, Qeq_bool_iff. split.
    + intros H; exists q; auto.
    + intros [q' [E H]]; inversion E; subst; auto.
  - split; [discriminate | intros [q [E _]]; discriminate].
  - split; [discriminate | intros [q [E _]]; discriminate].
Qed.

Section Configuration.
Context {lib : NumLib}.

Section ConfigurationErrors.
Variables
  (solution_next : PortfolioSolution.t)
  (ShockDstn : Distribution JointShk)
  (IncShkDstn : Distribution IncShk)
  (RiskyDstn : Distribution float)
  (CRRA : float)
  (aXtraGrid ShareGrid : vec)
  (vFuncBool DiscreteShareBool IndepDstnBool : bool).

Lemma runtime_guards_not_config : forall e,
  first_raised (runtime_guards solution_next IncShkDstn RiskyDstn CRRA aXtraGrid
                  ShareGrid vFuncBool DiscreteShareBool IndepDstnBool) = Some e ->
  e <> ValueError msg_BoroCnstArt /\ e <> ValueError msg_DiscreteShare.
Proof.
  intros e H. apply first_raised_in in H. simpl in H.
  repeat (destruct H as [H|H]; [subst e; split; discriminate|]).
  contradiction.
Qed.

End ConfigurationErrors.

(** C5: [solve_one_period_ConsPortfolio] raises one of the two configuration
    errors exactly when [BoroCnstArt] is not exactly 0.0 or discrete shares
    are requested without the value function; the message identifies the
    check that failed, the borrowing-constraint check coming first; a raised
    exception carries no solution, and on every other input the result is
    not a configuration error. *)
Theorem C5_configuration_errors :
  forall solution_next ShockDstn IncShkDstn RiskyDstn
         LivPrb DiscFac CRRA Rfree PermGroFac BoroCnstArt aXtraGrid ShareGrid
         AdjustPrb ShareLimit vFuncBool DiscreteShareBool IndepDstnBool,
  let r := solve_one_period_ConsPortfolio solution_next ShockDstn IncShkDstn
             RiskyDstn LivPrb DiscFac CRRA Rfree PermGroFac BoroCnstArt
             aXtraGrid ShareGrid AdjustPrb ShareLimit vFuncBool
             DiscreteShareBool IndepDstnBool in
  (is_config_error r <->
     (~ exactly_zero BoroCnstArt \/ (DiscreteShareBool = true /\ vFuncBool = false)))
  /\ (r = Raise (ValueError msg_BoroCnstArt) <-> ~ exactly_zero BoroCnstArt)
  /\ (r = Raise (ValueError msg_DiscreteShare) <->
        (exactly_zero BoroCnstArt /\ DiscreteShareBool = true /\ vFuncBool = false))
  /\ (is_config_error r -> forall s, r <> Return s).
Proof.
  intros. subst r.
  unfold solve_one_period_ConsPortfolio, raised, config_guards, is_config_error.
  rewrite <- BoroCnstArt_nonzero_spec.
  destruct (BoroCnstArt_nonzero BoroCnstArt) eqn:EB; cbn [app first_raised].
  - split; [|split; [|split]].
    + split; intros _; [left; discriminate | left; reflexivity].
    + split; intros _; [discriminate | reflexivity].
    + split; [intros H; inversion H | intros [H _]; discriminate].
    + intros _ s; discriminate.
  - destruct DiscreteShareBool, vFuncBool; cbn [andb negb first_raised].
    2: { split; [|split; [|split]].
         - split; intros _; [right; auto | right; reflexivity].
         - split; [intros H; inversion H | intros H; exfalso; apply H; reflexivity].
         - split; auto.
         - intros _ s; discriminate. }
    all: match goal with
         | |- context [first_raised (runtime_guards ?a1 ?a2 ?a3 ?a4 ?a5 ?a6 ?a7 ?a8 ?a9)] =>
             pose proof (@runtime_guards_not_config a1 a2 a3 a4 a5 a6 a7 a8 a9) as NC;
             destruct (first_raised (runtime_guards a1 a2 a3 a4 a5 a6 a7 a8 a9)) as [e|] eqn:E;
             [ specialize (NC e eq_refl); destruct NC as [NC1 NC2] | clear NC ]
         end.
    all: split; [|split; [|split]].
    all: try (split; [ intros [H|H]; try discriminate; inversion H; congruence
                     | intros [H|[H1 H2]]; try discriminate; exfalso; apply H; reflexivity ]).
    all: try (split; [ intros H; try discriminate; inversion H; congruence
                     | intros H; exfalso; apply H; reflexivity ]).
    all: try (split; [ intros H; try discriminate; inversion H; congruence
                     | intros [_ [H1 H2]]; discriminate ]).
    all: try (intros [H|H] s; try discriminate; inversion H; congruence).
Qed.

End Configuration.

(* ================================================================== *)
(** ** Shapes of the arrays *)
(* ================================================================== *)

Lemma length_zipWith {A B C} (f : A -> B -> C) xs ys :
  length (zipWith f xs ys) = Nat.min (length xs) (length ys).
Proof. intros; unfold zipWith; now rewrite length_map, length_combine. Qed.

Lemma nth_zipWith {A B C} (f : A -> B -> C) xs ys i d dx dy :
  (i < length xs)%nat -> (i < length ys)%nat ->
  nth i (zipWith f xs ys) d = f (nth i xs dx) (nth i ys dy).
Proof.
  revert ys i d dx dy. unfold zipWith.
  induction xs as [|x xs IH]; intros ys i d dx dy Hx Hy; simpl in *; [lia|].
  destruct ys as [|y ys]; simpl in *; [lia|].
  destruct i as [|i]; simpl; auto.
  apply IH; lia.
Qed.

Lemma length_meshgrid_ij_fst : forall xs ys, length (fst (meshgrid_ij xs ys)) = length xs.
Proof. intros; simpl; now rewrite length_map. Qed.
Lemma length_meshgrid_ij_snd : forall xs ys, length (snd (meshgrid_ij xs ys)) = length xs.
Proof. intros; simpl; now rewrite length_map. Qed.

Lemma length_mask_fill : forall m x v,
  length (mask_fill m x v) = Nat.min (length m) (length v).
Proof. intros; unfold mask_fill; now rewrite length_zipWith. Qed.
Lemma length_mask_assign : forall m new v,
  length (mask_assign m new v) = Nat.min (length m) (Nat.min (length new) (length v)).
Proof. intros; unfold mask_assign; now rewrite length_zipWith, length_combine. Qed.
Lemma length_pick : forall M idx, length (pick M idx) = Nat.min (length M) (length idx).
Proof. intros; unfold pick; now rewrite length_zipWith. Qed.
Lemma length_take_at : forall v idx, length (take_at v idx) = length idx.
Proof. intros; unfold take_at; now rewrite length_map. Qed.

Lemma length_ShareAdj_continuous : forall ShareGrid FOC,
  length (ShareAdj_continuous ShareGrid FOC) = length FOC.
Proof.
  intros. unfold ShareAdj_continuous, ShareAdj_interior, alpha, constrained_bot,
    constrained_top, bot_s, top_s, bot_f, top_f, share_idx, crossing, FOC_s.
  repeat (rewrite ?length_mask_fill, ?length_zipWith, ?length_combine, ?length_pick,
            ?length_take_at, ?length_map).
  now repeat rewrite Nat.min_id.
Qed.

Lemma length_cNrmAdj_continuous : forall FOC Nvrs,
  length FOC = length Nvrs ->
  length (cNrmAdj_continuous FOC Nvrs) = length FOC.
Proof.
  intros FOC Nvrs H. unfold cNrmAdj_continuous, cNrmAdj_interior, alpha, constrained_bot,
    constrained_top, bot_c, top_c, bot_f, top_f, share_idx, crossing, FOC_s.
  repeat (rewrite ?length_mask_assign, ?length_zipWith, ?length_combine, ?length_pick,
            ?length_take_at, ?length_map).
  unfold vec, mat in *. rewrite <- ?H. now repeat rewrite Nat.min_id.
Qed.

Lemma length_ShareAdj_discrete : forall ShareGrid V,
  length (ShareAdj_discrete ShareGrid V) = length V.
Proof. intros; unfold ShareAdj_discrete, opt_idx; now rewrite length_take_at, length_map. Qed.

Lemma length_cNrmAdj_discrete : forall V Nvrs,
  length V = length Nvrs -> length (cNrmAdj_discrete V Nvrs) = length V.
Proof.
  intros V Nvrs H; unfold cNrmAdj_discrete, opt_idx.
  rewrite length_pick, length_map. unfold vec, mat in *. rewrite <- H. apply Nat.min_id.
Qed.

(* ================================================================== *)
(** ** The terminal solution and the solution record *)
(* ================================================================== *)

Section TerminalClaims.
Context {lib : NumLib}.

(** C6: the terminal solution consumes everything and invests nothing: its
    [cFuncAdj] is the identity function, so [cFuncAdj(m) = m]; its
    [ShareFuncAdj] is the constant-zero function, so [ShareFuncAdj(m) = 0];
    its fixed-regime consumption function returns the resources argument
    unchanged; and its scalars are [hNrm = 0.0] and [MPCmin = 1.0]. *)
Theorem C6_terminal_solution : forall (CRRA m share : float),
  let s := update_solution_terminal CRRA in
  PortfolioSolution.cFuncAdj s = IdentityFunction 0 1
  /\ call1 (PortfolioSolution.cFuncAdj s) m = m
  /\ PortfolioSolution.ShareFuncAdj s = ConstantFunction (Fin 0)
  /\ call1 (PortfolioSolution.ShareFuncAdj s) m = Fin 0
  /\ PortfolioSolution.cFuncFxd s = IdentityFunction 0 2
  /\ call2 (PortfolioSolution.cFuncFxd s) m share = m
  /\ PortfolioSolution.hNrm s = Some (Fin 0)
  /\ PortfolioSolution.MPCmin s = Some (Fin 1).
Proof. intros; repeat split; reflexivity. Qed.

End TerminalClaims.


Lemma combine_nth_lt {A B} (l : list A) (l' : list B) i x y :
  (i < length l)%nat -> (i < length l')%nat ->
  nth i (combine l l') (x, y) = (nth i l x, nth i l' y).
Proof.
  revert l' i x y.
  induction l as [|a l IH]; intros l' i x y H H'; simpl in *; [lia|].
  destruct l' as [|b l']; simpl in *; [lia|].
  destruct i; auto. apply IH; lia.
Qed.

(* ================================================================== *)
(** ** The continuous share choice at one gridpoint *)
(* ================================================================== *)

Lemma nth_map_lt {A B} (f : A -> B) l i d d' :
  (i < length l)%nat -> nth i (map f l) d = f (nth i l d').
Proof.
  intros H.
  rewrite (nth_indep _ d (f d')) by now rewrite length_map.
  apply map_nth.
Qed.

Lemma nth_mask_fill : forall m x v i d,
  (i < length m)%nat -> (i < length v)%nat ->
  nth i (mask_fill m x v) d = if nth i m false then x else nth i v d.
Proof. intros; unfold mask_fill; now rewrite (nth_zipWith _ _ _ _ d false d). Qed.

Lemma nth_mask_assign : forall m new v i d,
  (i < length m)%nat -> (i < length new)%nat -> (i < length v)%nat ->
  nth i (mask_assign m new v) d = if nth i m false then nth i new d else nth i v d.
Proof.
  intros; unfold mask_assign.
  rewrite (nth_zipWith _ _ _ _ d false (d, d)) by (rewrite ?length_combine; lia).
  rewrite combine_nth_lt by lia. reflexivity.
Qed.

Lemma nth_pick : forall M idx i d,
  (i < length M)%nat -> (i < length idx)%nat ->
  nth i (pick M idx) d = nth (nth i idx 0%nat) (nth i M []) NonFinite.
Proof. intros; unfold pick; now rewrite (nth_zipWith _ _ _ _ d [] 0%nat). Qed.

Lemma nth_take_at : forall v idx i d,
  (i < length idx)%nat ->
  nth i (take_at v idx) d = nth (nth i idx 0%nat) v NonFinite.
Proof. intros; unfold take_at; now rewrite (nth_map_lt _ _ _ _ 0%nat). Qed.

Lemma nth_share_idx : forall FOC i d,
  (i < length FOC)%nat ->
  nth i (share_idx FOC) d = argmax_bool (crossing_row (nth i FOC [])).
Proof.
  intros; unfold share_idx, crossing, FOC_s.
  rewrite (nth_map_lt argmax_bool _ _ _ []) by now rewrite length_map.
  now rewrite (nth_map_lt crossing_row _ _ _ []).
Qed.

Lemma length_share_idx : forall FOC, length (share_idx FOC) = length FOC.
Proof. intros; unfold share_idx, crossing, FOC_s; now rewrite !length_map. Qed.

Lemma nth_alpha : forall FOC i d,
  (i < length FOC)%nat -> nth i (alpha FOC) d = alpha_of_row (nth i FOC []).
Proof.
  intros FOC i d H. unfold alpha, top_f, bot_f, FOC_s, alpha_of_row.
  rewrite (nth_zipWith _ _ _ _ d NonFinite NonFinite)
    by (rewrite length_pick, ?length_map, length_share_idx; lia).
  rewrite !nth_pick by (rewrite ?length_map, ?length_share_idx; lia).
  rewrite (nth_map_lt S _ _ _ 0%nat) by (rewrite length_share_idx; lia).
  now rewrite nth_share_idx.
Qed.

Lemma length_alpha : forall FOC, length (alpha FOC) = length FOC.
Proof.
  intros; unfold alpha, top_f, bot_f, FOC_s.
  rewrite length_zipWith, !length_pick, length_map, length_share_idx.
  now rewrite !Nat.min_id.
Qed.

Lemma length_constrained_top : forall FOC, length (constrained_top FOC) = length FOC.
Proof. intros; unfold constrained_top, FOC_s; apply length_map. Qed.
Lemma length_constrained_bot : forall FOC, length (constrained_bot FOC) = length FOC.
Proof. intros; unfold constrained_bot, FOC_s; apply length_map. Qed.

Lemma length_ShareAdj_interior : forall SG FOC,
  length (ShareAdj_interior SG FOC) = length FOC.
Proof.
  intros. unfold ShareAdj_interior, bot_s, top_s.
  rewrite length_zipWith, length_combine, !length_take_at, length_map,
    length_share_idx, length_alpha. now rewrite !Nat.min_id.
Qed.

Lemma length_cNrmAdj_interior : forall FOC Nvrs,
  length FOC = length Nvrs -> length (cNrmAdj_interior FOC Nvrs) = length FOC.
Proof.
  intros FOC Nvrs HL. unfold cNrmAdj_interior, bot_c, top_c. unfold vec, mat in *.
  rewrite length_zipWith, length_combine, !length_pick, length_map,
    length_share_idx, length_alpha, <- HL. now rewrite !Nat.min_id.
Qed.

Lemma nth_ShareAdj_continuous : forall ShareGrid FOC i d,
  (i < length FOC)%nat ->
  nth i (ShareAdj_continuous ShareGrid FOC) d = share_of_row ShareGrid (nth i FOC []).
Proof.
  intros SG FOC i d H.
  pose proof (length_ShareAdj_interior SG FOC) as LI.
  pose proof (length_constrained_top FOC) as Lt.
  pose proof (length_constrained_bot FOC) as Lb.
  unfold ShareAdj_continuous, share_of_row. unfold vec, mat in *.
  rewrite nth_mask_fill by (rewrite ?length_mask_fill, ?Lt, ?Lb, ?LI, ?Nat.min_id; lia).
  unfold constrained_bot at 1. unfold FOC_s.
  rewrite (nth_map_lt (fun row => nth 0 row NonFinite <? 0) _ _ _ []) by lia.
  destruct (nth 0 (nth i FOC []) NonFinite <? 0); [reflexivity|].
  rewrite nth_mask_fill by (rewrite ?Lt, ?LI; lia).
  unfold constrained_top at 1. unfold FOC_s.
  rewrite (nth_map_lt (fun row : list float => last_of row >? 0) _ _ _ []) by lia.
  destruct (last_of (nth i FOC []) >? 0); [reflexivity|].
  unfold ShareAdj_interior, bot_s, top_s.
  rewrite (nth_zipWith _ _ _ _ d NonFinite (NonFinite, NonFinite))
    by (rewrite ?length_combine, ?length_take_at, ?length_map, ?length_share_idx,
          ?length_alpha, ?Nat.min_id; lia).
  rewrite combine_nth_lt
    by (rewrite ?length_take_at, ?length_map, ?length_share_idx; lia).
  cbn [fst snd].
  rewrite nth_alpha by lia.
  rewrite !nth_take_at by (rewrite ?length_map, ?length_share_idx; lia).
  rewrite (nth_map_lt S _ _ _ 0%nat) by (rewrite length_share_idx; lia).
  now rewrite nth_share_idx.
Qed.

Lemma nth_cNrmAdj_continuous : forall FOC Nvrs i d,
  (i < length FOC)%nat -> length FOC = length Nvrs ->
  nth i (cNrmAdj_continuous FOC Nvrs) d = cNrm_of_row (nth i FOC []) (nth i Nvrs []).
Proof.
  intros FOC Nvrs i d H HL.
  pose proof (length_cNrmAdj_interior FOC Nvrs HL) as LI.
  pose proof (length_constrained_top FOC) as Lt.
  pose proof (length_constrained_bot FOC) as Lb.
  unfold cNrmAdj_continuous, cNrm_of_row. unfold vec, mat in *.
  rewrite nth_mask_assign
    by (rewrite ?length_mask_assign, ?length_map, ?Lt, ?Lb, ?LI, <- ?HL, ?Nat.min_id; lia).
  unfold constrained_bot at 1. unfold FOC_s.
  rewrite (nth_map_lt (fun row => nth 0 row NonFinite <? 0) _ _ _ []) by lia.
  destruct (nth 0 (nth i FOC []) NonFinite <? 0).
  { rewrite (nth_map_lt (fun row => nth 0 row NonFinite) _ _ _ []) by lia. reflexivity. }
  rewrite nth_mask_assign by (rewrite ?length_map, ?Lt, ?LI, <- ?HL; lia).
  unfold constrained_top at 1. unfold FOC_s.
  rewrite (nth_map_lt (fun row : list float => last_of row >? 0) _ _ _ []) by lia.
  destruct (last_of (nth i FOC []) >? 0).
  { rewrite (nth_map_lt (fun row : list float => last_of row) _ _ _ []) by lia. reflexivity. }
  unfold cNrmAdj_interior, bot_c, top_c.
  rewrite (nth_zipWith _ _ _ _ d NonFinite (NonFinite, NonFinite))
    by (rewrite ?length_combine, ?length_pick, ?length_map, ?length_share_idx,
          ?length_alpha, <- ?HL, ?Nat.min_id; lia).
  rewrite combine_nth_lt
    by (rewrite ?length_pick, ?length_map, ?length_share_idx, <- ?HL, ?Nat.min_id; lia).
  cbn [fst snd].
  rewrite nth_alpha by lia.
  rewrite !nth_pick by (rewrite ?length_map, ?length_share_idx; lia).
  rewrite (nth_map_lt S _ _ _ 0%nat) by (rewrite length_share_idx; lia).
  now rewrite nth_share_idx.
Qed.

(** *** The first sign change of a row *)

Lemma nth_tl : forall (row : vec) k d, nth k (tl row) d = nth (S k) row d.
Proof. intros [|x row] k d; simpl; [now destruct k | reflexivity]. Qed.

Lemma length_removelast_vec : forall (row : vec),
  length (removelast row) = (length row - 1)%nat.
Proof.
  induction row as [|x row IH]; simpl; auto.
  destruct row as [|y row]; simpl in *; auto. rewrite IH. lia.
Qed.

Lemma nth_removelast : forall (row : vec) k d,
  (S k < length row)%nat -> nth k (removelast row) d = nth k row d.
Proof.
  induction row as [|x row IH]; intros k d H; simpl in *; [lia|].
  destruct row as [|y row]; simpl in *; [lia|].
  destruct k as [|k]; auto. apply IH. simpl. lia.
Qed.

Lemma length_crossing_row : forall row,
  length (crossing_row row) = (length row - 1)%nat.
Proof.
  intros. unfold crossing_row, drop1, init.
  rewrite length_zipWith, length_tl, length_removelast_vec. apply Nat.min_id.
Qed.

Lemma nth_crossing_row : forall row k,
  (S k < length row)%nat -> nth k (crossing_row row) false = crosses_at row k.
Proof.
  intros row k H. unfold crossing_row, crosses_at, drop1, init.
  rewrite (nth_zipWith _ _ _ _ false NonFinite NonFinite)
    by (rewrite ?length_tl, ?length_removelast_vec; lia).
  rewrite nth_tl, nth_removelast by lia. apply andb_comm.
Qed.

Lemma existsb_nth : forall (bs : list bool) k,
  nth k bs false = true -> existsb (fun b => b) bs = true.
Proof.
  induction bs as [|b bs IH]; intros k H; simpl in *.
  - now destruct k.
  - destruct k; [now rewrite H | rewrite (IH k H); apply orb_true_r].
Qed.

(** [np.argmax] of a boolean row that holds a [True] returns the first one. *)
Lemma argmax_bool_first : forall (bs : list bool) k,
  nth k bs false = true ->
  (argmax_bool bs <= k)%nat
  /\ nth (argmax_bool bs) bs false = true
  /\ forall j, (j < argmax_bool bs)%nat -> nth j bs false = false.
Proof.
  induction bs as [|b bs IH]; intros k H.
  - now destruct k.
  - simpl. destruct b.
    + repeat split; [lia | intros j Hj; lia].
    + destruct k as [|k]; [discriminate|]. simpl in H.
      rewrite (existsb_nth _ _ H).
      destruct (IH k H) as [H1 [H2 H3]].
      repeat split; [lia | exact H2 |].
      intros [|j] Hj; [reflexivity | apply H3; lia].
Qed.

Lemma fltb_false_fgeb : forall x y,
  is_finite x = true -> is_finite y = true -> (x <? y) = false -> (x >=? y) = true.
Proof.
  intros [a|] [b|] Hx Hy H; try discriminate. unfold fgeb; simpl in *.
  now apply negb_false_iff in H.
Qed.

Lemma fgtb_false_fleb : forall x y,
  is_finite x = true -> is_finite y = true -> (x >? y) = false -> (x <=? y) = true.
Proof.
  intros [a|] [b|] Hx Hy H; try discriminate. unfold fgtb in H; simpl in *.
  now apply negb_false_iff in H.
Qed.

Lemma fleb_false_fgeb : forall x y,
  is_finite x = true -> is_finite y = true -> (x <=? y) = false -> (x >=? y) = true.
Proof.
  intros [a|] [b|] Hx Hy H; try discriminate. unfold fgeb; simpl in *.
  apply Qle_bool_iff. apply Qlt_le_weak. apply Qnot_le_lt.
  intros C. apply Qle_bool_iff in C. congruence.
Qed.

Lemma all_finite_cons : forall x xs,
  all_finite (x :: xs) = true -> is_finite x = true /\ all_finite xs = true.
Proof. intros x xs H; unfold all_finite in *; simpl in H; now apply andb_true_iff in H. Qed.

(** A finite row that starts at a value [>= 0] and ends at a value [<= 0]
    changes sign on one of its segments. *)
Lemma sign_change_exists : forall rest x0,
  all_finite (x0 :: rest) = true -> rest <> [] ->
  (x0 >=? 0) = true -> (last_of (x0 :: rest) <=? 0) = true ->
  exists k, (S k < length (x0 :: rest))%nat /\ crosses_at (x0 :: rest) k = true.
Proof.
  induction rest as [|x1 rest IH]; intros x0 HF HN H0 HL; [congruence|].
  apply all_finite_cons in HF. destruct HF as [F0 HF].
  pose proof (all_finite_cons _ _ HF) as [F1 _].
  destruct (x1 <=? 0) eqn:E1.
  - exists 0%nat. split; [simpl; lia|]. unfold crosses_at. cbn [nth]. now rewrite H0, E1.
  - assert (G1 : (x1 >=? 0) = true) by (apply fleb_false_fgeb; auto).
    destruct rest as [|x2 rest].
    + unfold last_of in HL; simpl in HL. congruence.
    + destruct (IH x1 HF ltac:(discriminate) G1 HL) as [k [Hk Hc]].
      exists (S k). split; [simpl in *; lia | exact Hc].
Qed.

Lemma forallb_nth0 : forall (f : float -> bool) (row : vec),
  forallb f row = true -> row <> [] -> f (nth 0 row NonFinite) = true.
Proof. intros f [|x row] H N; [congruence|]. simpl in *. now apply andb_true_iff in H. Qed.

Lemma forallb_last : forall (f : float -> bool) (row : vec),
  forallb f row = true -> row <> [] -> f (last_of row) = true.
Proof.
  intros f row H N. rewrite forallb_forall in H. apply H.
  unfold last_of. destruct row as [|x row]; [congruence|].
  pose proof (@app_removelast_last _ (x :: row) NonFinite ltac:(discriminate)) as E.
  rewrite E at 2. apply in_or_app. right. now left.
Qed.

(** C2, as the code has it: at each asset gridpoint, in continuous mode, with
    a finite row of marginal values of share over at least two shares:
    if the first value is negative the share is 0 and consumption is that of
    the first share; otherwise, if the last value is positive the share is 1
    and consumption is that of the last share; otherwise the row changes
    sign, the solver takes the FIRST segment whose values are [>= 0] then
    [<= 0], computes [alpha = 1 - top_f / (top_f - bot_f)] there, and
    interpolates share and consumption between the two gridpoints with
    weight [alpha].  In particular an all-positive row gives share 1 and an
    all-negative row gives share 0. *)
Theorem C2_continuous_share_choice :
  forall (ShareGrid : vec) (FOC_s Nvrs : mat) (i : nat),
    (i < length FOC_s)%nat -> length FOC_s = length Nvrs ->
    let row := nth i FOC_s [] in
    let crow := nth i Nvrs [] in
    let share := nth i (ShareAdj_continuous ShareGrid FOC_s) NonFinite in
    let cNrm := nth i (cNrmAdj_continuous FOC_s Nvrs) NonFinite in
    all_finite row = true -> (2 <= length row)%nat ->
    ((nth 0 row NonFinite <? 0) = true ->
       share = Fin 0 /\ cNrm = nth 0 crow NonFinite)
    /\ ((nth 0 row NonFinite <? 0) = false -> (last_of row >? 0) = true ->
       share = Fin 1 /\ cNrm = last_of crow)
    /\ ((nth 0 row NonFinite <? 0) = false -> (last_of row >? 0) = false ->
        exists j,
          (S j < length row)%nat
          /\ crosses_at row j = true
          /\ (forall k, (k < j)%nat -> crosses_at row k = false)
          /\ let bot_f := nth j row NonFinite in
             let top_f := nth (S j) row NonFinite in
             let alpha := 1 - top_f / (top_f - bot_f) in
             share = (1 - alpha) * nth j ShareGrid NonFinite
                     + alpha * nth (S j) ShareGrid NonFinite
             /\ cNrm = (1 - alpha) * nth j crow NonFinite
                       + alpha * nth (S j) crow NonFinite)
    /\ (forallb (fun x => x >? 0) row = true ->
        share = Fin 1 /\ cNrm = last_of crow)
    /\ (forallb (fun x => x <? 0) row = true ->
        share = Fin 0 /\ cNrm = nth 0 crow NonFinite).
Proof.
  intros SG FOC Nvrs i Hi HL row crow share cNrm HF H2.
  assert (ES : share = share_of_row SG row) by (apply nth_ShareAdj_continuous; auto).
  assert (EC : cNrm = cNrm_of_row row crow) by (apply nth_cNrmAdj_continuous; auto).
  assert (NE : row <> []) by (intros E; rewrite E in H2; simpl in H2; lia).
  assert (A : (nth 0 row NonFinite <? 0) = true ->
              share = Fin 0 /\ cNrm = nth 0 crow NonFinite).
  { intros B. rewrite ES, EC. unfold share_of_row, cNrm_of_row. now rewrite B. }
  assert (T : (nth 0 row NonFinite <? 0) = false -> (last_of row >? 0) = true ->
              share = Fin 1 /\ cNrm = last_of crow).
  { intros B C. rewrite ES, EC. unfold share_of_row, cNrm_of_row. now rewrite B, C. }
  split; [exact A|]. split; [exact T|]. split; [|split].
  - intros B C.
    destruct row as [|x0 rest] eqn:ER; [congruence|].
    assert (F0 : is_finite x0 = true) by (now apply all_finite_cons in HF).
    assert (FL : is_finite (last_of (x0 :: rest)) = true).
    { apply (forallb_last is_finite); [exact HF | discriminate]. }
    destruct (sign_change_exists rest x0 HF) as [k [Hk Hc]].
    + intros E; subst rest; simpl in H2; lia.
    + apply fltb_false_fgeb; auto.
    + apply fgtb_false_fleb; auto.
    + rewrite <- ER in *.
      assert (Hn : nth k (crossing_row row) false = true)
        by (rewrite nth_crossing_row; auto).
      destruct (argmax_bool_first _ _ Hn) as [J1 [J2 J3]].
      set (j := argmax_bool (crossing_row row)) in *.
      assert (Sj : (S j < length row)%nat) by lia.
      exists j. split; [exact Sj|]. split; [now rewrite <- nth_crossing_row|].
      split.
      * intros k' Hk'. rewrite <- nth_crossing_row by lia. now apply J3.
      * cbv zeta. rewrite ES, EC. unfold share_of_row, cNrm_of_row, alpha_of_row.
        fold j. rewrite ER in B, C. rewrite <- ER in B, C. rewrite B, C. split; reflexivity.
  - intros P. apply T.
    + pose proof (forallb_nth0 _ _ P NE) as Q. cbv beta in Q.
      destruct (nth 0 row NonFinite) as [a|]; [|discriminate].
      unfold fgtb, fltb in *. simpl in *. apply negb_true_iff in Q.
      apply negb_false_iff. apply Qle_bool_iff. apply Qlt_le_weak. apply Qnot_le_lt.
      intros D. apply Qle_bool_iff in D. congruence.
    + exact (forallb_last _ _ P NE).
  - intros P. apply A. exact (forallb_nth0 _ _ P NE).
Qed.

(* ================================================================== *)
(** ** Piecewise-linear interpolants with finite, increasing nodes *)
(* ================================================================== *)

Lemma all_finite_map_Fin : forall xs,
  all_finite xs = true -> exists qs, xs = map Fin qs.
Proof.
  induction xs as [|x xs IH]; intros H.
  - exists []; reflexivity.
  - apply all_finite_cons in H. destruct H as [Hx Hxs].
    destruct (IH Hxs) as [qs E]. destruct x as [q|]; [|discriminate].
    exists (q :: qs). simpl. now rewrite E.
Qed.

Lemma increasing_b_map_Fin : forall qs,
  increasing_b (map Fin qs) = true -> q_increasing qs.
Proof.
  induction qs as [|q0 qs IH]; intros H; simpl; auto.
  destruct qs as [|q1 qs]; auto.
  simpl in H. apply andb_true_iff in H. destruct H as [H1 H2]. split.
  - apply negb_true_iff in H1. apply Qnot_le_lt. intros C.
    apply Qle_bool_iff in C. congruence.
  - apply IH. exact H2.
Qed.


Lemma Qeq_bool_false_lt : forall a b : Q, (a < b)%Q -> Qeq_bool (b - a) 0 = false.
Proof.
  intros a b H. apply not_true_is_false. intros C. apply Qeq_bool_iff in C. lra.
Qed.

Lemma last_of_map_Fin : forall qs, qs <> [] -> last_of (map Fin qs) = Fin (last qs 0%Q).
Proof.
  unfold last_of. induction qs as [|q qs IH]; intros H; [congruence|].
  destruct qs as [|q' qs]; [reflexivity|].
  change (last (map Fin (q :: q' :: qs)) NonFinite) with (last (map Fin (q' :: qs)) NonFinite).
  change (last (q :: q' :: qs) 0%Q) with (last (q' :: qs) 0%Q).
  apply IH. discriminate.
Qed.

Section Interpolants.
Context {lib : NumLib}.

(** Within the span of increasing finite nodes, the search finds a segment
    and the interpolant takes the value [pl]. *)
Lemma locate_from_pl : forall qs ys i x,
  q_increasing qs -> length ys = length qs -> (2 <= length qs)%nat ->
  (x <= last qs 0)%Q ->
  exists k al,
    locate_from i (Fin x) (map Fin qs) = Some ((i + k)%nat, al)
    /\ lerp al (nth k (map Fin ys) NonFinite) (nth (S k) (map Fin ys) NonFinite)
       = Fin (pl (combine qs ys) x).
Proof.
  induction qs as [|q0 qs IH]; intros ys i x HI HL H2 Hx; [simpl in H2; lia|].
  destruct qs as [|q1 qs]; [simpl in H2; lia|].
  destruct ys as [|y0 [|y1 ys]]; try (simpl in HL; lia).
  destruct HI as [H01 HI].
  cbn [map locate_from is_finite negb fleb]. rewrite orb_false_r.
  cbn [combine pl].
  destruct (Qle_bool x q1) eqn:E.
  - exists 0%nat. eexists. split.
    + rewrite Nat.add_0_r. reflexivity.
    + cbn [nth map lerp fsub fdiv lift2 fmul fadd].
      unfold fsub, fmul, fadd, lift2, fdiv.
      rewrite (Qeq_bool_false_lt _ _ H01). reflexivity.
  - destruct qs as [|q2 qs].
    + exfalso. simpl in Hx. apply Qle_bool_iff in Hx. congruence.
    + destruct (IH (y1 :: ys) (S i) x HI) as [k [al [L1 L2]]].
      * simpl in *; lia.
      * simpl; lia.
      * exact Hx.
      * exists (S k), al. split.
        -- rewrite Nat.add_succ_r. exact L1.
        -- exact L2.
Qed.

Lemma call1_LinearInterp_pl : forall qs ys il sl x,
  q_increasing qs -> length ys = length qs -> (2 <= length qs)%nat ->
  (hd 0 qs <= x)%Q -> (x <= last qs 0)%Q ->
  call1 (LinearInterp (map Fin qs) (map Fin ys) il sl) (Fin x)
  = Fin (pl (combine qs ys) x).
Proof.
  intros qs ys il sl x HI HL H2 H0 Hx.
  destruct (locate_from_pl qs ys 0 x HI HL H2 Hx) as [k [al [L1 L2]]].
  unfold call1. cbn [call]. unfold eval_LinearInterp.
  assert (T : (x_top (map Fin qs) <? Fin x) = false).
  { unfold x_top. rewrite last_of_map_Fin by (intros C; rewrite C in H2; simpl in H2; lia).
    cbn [fltb]. apply negb_false_iff. now apply Qle_bool_iff. }
  rewrite T, andb_false_r. unfold locate.
  destruct qs as [|q0 qs]; [simpl in H2; lia|].
  cbn [map]. cbn [map] in L1. simpl in H0.
  assert (E : (Fin q0 <=? Fin x) = true) by (now apply Qle_bool_iff).
  rewrite E, L1. exact L2.
Qed.

End Interpolants.

(** *** Properties of the piecewise-linear function *)

Lemma pl_le : forall q0 y0 q1 y1 tl x,
  Qle_bool x q1 = true ->
  pl ((q0, y0) :: (q1, y1) :: tl) x
  = ((1 - (x - q0) / (q1 - q0)) * y0 + (x - q0) / (q1 - q0) * y1)%Q.
Proof. intros; simpl; now rewrite H. Qed.

Lemma pl_gt : forall q0 y0 q1 y1 tl x,
  Qle_bool x q1 = false ->
  pl ((q0, y0) :: (q1, y1) :: tl) x = pl ((q1, y1) :: tl) x.
Proof. intros; cbn [pl]; now rewrite H. Qed.

Lemma Qle_bool_false_lt : forall x q : Q, Qle_bool x q = false -> (q < x)%Q.
Proof.
  intros x q E. apply Qnot_le_lt. intros C. apply Qle_bool_iff in C. congruence.
Qed.

(** The weight of a point within a segment. *)
Lemma segment_weight : forall q0 q1 x : Q,
  (q0 < q1)%Q -> (q0 <= x)%Q -> (x <= q1)%Q ->
  let al := ((x - q0) / (q1 - q0))%Q in
  (al * (q1 - q0) == x - q0 /\ 0 <= al /\ al <= 1)%Q.
Proof.
  intros q0 q1 x H01 H0 H1 al. unfold al. repeat split.
  - field. lra.
  - apply Qle_shift_div_l; lra.
  - apply Qle_shift_div_r; lra.
Qed.


(* ================================================================== *)
(** ** Shares chosen on the grid lie between 0 and 1 *)
(* ================================================================== *)

Lemma first_raised_none : forall guards b e,
  first_raised guards = None -> In (b, e) guards -> b = false.
Proof.
  induction guards as [|[b' e'] tl IH]; intros b e H HI; simpl in *; [contradiction|].
  destruct b'; [discriminate|].
  destruct HI as [E|HI]; [now inversion E | eapply IH; eauto].
Qed.

Lemma zipWith_fadd_map_Fin : forall qs rs,
  zipWith fadd (map Fin qs) (map Fin rs) = map Fin (zipWith Qplus qs rs).
Proof.
  unfold zipWith. induction qs as [|q qs IH]; intros rs; [reflexivity|].
  destruct rs as [|r rs]; [reflexivity|]. simpl. now rewrite IH.
Qed.

Lemma in_range_b_spec : forall lo hi x, in_range_b lo hi x = true <-> in_range lo hi x.
Proof.
  intros lo hi [q|]; simpl.
  - rewrite andb_true_iff, !Qle_bool_iff. tauto.
  - split; [discriminate | contradiction].
Qed.

Lemma all_finite_nth : forall xs i,
  all_finite xs = true -> (i < length xs)%nat -> is_finite (nth i xs NonFinite) = true.
Proof.
  intros xs i H Hi. unfold all_finite in H. rewrite forallb_forall in H.
  apply H. now apply nth_In.
Qed.

Lemma forallb_nth : forall (f : float -> bool) xs i,
  forallb f xs = true -> (i < length xs)%nat -> f (nth i xs NonFinite) = true.
Proof. intros f xs i H Hi. rewrite forallb_forall in H. apply H. now apply nth_In. Qed.

(** The first sign change of a finite row that is constrained at neither
    end, as [np.argmax] finds it. *)
Lemma first_crossing : forall row,
  all_finite row = true -> (2 <= length row)%nat ->
  (nth 0 row NonFinite <? 0) = false -> (last_of row >? 0) = false ->
  let j := argmax_bool (crossing_row row) in
  (S j < length row)%nat
  /\ crosses_at row j = true
  /\ forall k, (k < j)%nat -> crosses_at row k = false.
Proof.
  intros row HF H2 B C j.
  destruct row as [|x0 rest] eqn:ER; [simpl in H2; lia|].
  assert (F0 : is_finite x0 = true) by (now apply all_finite_cons in HF).
  assert (FL : is_finite (last_of (x0 :: rest)) = true).
  { apply (forallb_last is_finite); [exact HF | discriminate]. }
  destruct (sign_change_exists rest x0 HF) as [k [Hk Hc]].
  - intros E; subst rest; simpl in H2; lia.
  - apply fltb_false_fgeb; auto.
  - apply fgtb_false_fleb; auto.
  - assert (Hn : nth k (crossing_row (x0 :: rest)) false = true)
      by (rewrite nth_crossing_row; auto).
    destruct (argmax_bool_first _ _ Hn) as [J1 [J2 J3]]. fold j in J1, J2, J3.
    assert (Sj : (S j < length (x0 :: rest))%nat) by lia.
    split; [exact Sj|]. split; [now rewrite <- nth_crossing_row|].
    intros k' Hk'. rewrite <- nth_crossing_row by lia. now apply J3.
Qed.

(** The crossing fraction lies in [[0, 1]] when it is finite. *)
Lemma crossing_fraction : forall b t : Q,
  (0 <= b)%Q -> (t <= 0)%Q -> ~ (t - b == 0)%Q ->
  (0 <= 1 - t / (t - b) /\ 1 - t / (t - b) <= 1)%Q.
Proof.
  intros b t Hb Ht Hn.
  assert (D : (t - b < 0)%Q) by (destruct (Qlt_le_dec (t - b) 0); [auto | exfalso; apply Hn; lra]).
  assert (E : (1 - t / (t - b) == b / (b - t))%Q) by (field; lra).
  rewrite E. split.
  - apply Qle_shift_div_l; lra.
  - apply Qle_shift_div_r; lra.
Qed.

Lemma share_of_row_in_range : forall SG row,
  all_finite row = true -> length row = length SG -> (2 <= length row)%nat ->
  forallb (in_range_b 0 1) SG = true ->
  is_finite (share_of_row SG row) = true ->
  in_range 0 1 (share_of_row SG row).
Proof.
  intros SG row HF HL H2 HS Hfin. unfold share_of_row in *.
  destruct (nth 0 row NonFinite <? 0) eqn:B; [simpl; lra|].
  destruct (last_of row >? 0) eqn:C; [simpl; lra|].
  destruct (first_crossing row HF H2 B C) as [Sj [Hc _]].
  cbv zeta in Hfin |- *. unfold alpha_of_row in *.
  set (j := argmax_bool (crossing_row row)) in *.
  pose proof (all_finite_nth row j HF ltac:(lia)) as Fb.
  pose proof (all_finite_nth row (S j) HF ltac:(lia)) as Ft.
  pose proof (forallb_nth _ SG j HS ltac:(lia)) as Sb.
  pose proof (forallb_nth _ SG (S j) HS ltac:(lia)) as St.
  unfold crosses_at in Hc. apply andb_true_iff in Hc. destruct Hc as [Cb Ct].
  destruct (nth j row NonFinite) as [b|]; [|discriminate].
  destruct (nth (S j) row NonFinite) as [t|]; [|discriminate].
  destruct (nth j SG NonFinite) as [sb|]; [|discriminate].
  destruct (nth (S j) SG NonFinite) as [st|]; [|discriminate].
  unfold fgeb in Cb. simpl in Cb, Ct, Sb, St.
  apply Qle_bool_iff in Cb. apply Qle_bool_iff in Ct.
  apply andb_true_iff in Sb. apply andb_true_iff in St.
  rewrite !Qle_bool_iff in Sb, St.
  unfold fsub, fmul, fadd, fdiv, lift2 in *.
  destruct (Qeq_bool (t - b) 0) eqn:E; [discriminate|].
  assert (N : ~ (t - b == 0)%Q) by (intros K; apply Qeq_bool_iff in K; congruence).
  destruct (crossing_fraction b t Cb Ct N) as [A0 A1].
  set (al := (1 - t / (t - b))%Q) in *.
  simpl. split; nra.
Qed.

(** [np.argmax] of a non-empty row is an index of the row. *)
Lemma argmax_from_lt : forall xs best ibest i,
  (ibest < i)%nat -> (argmax_from best ibest i xs < i + length xs)%nat.
Proof.
  induction xs as [|x xs IH]; intros best ibest i H; simpl; [lia|].
  destruct best as [q|]; [|lia].
  destruct (is_finite x); [|lia].
  destruct (fltb (Fin q) x).
  - specialize (IH x i (S i) ltac:(lia)). lia.
  - specialize (IH (Fin q) ibest (S i) ltac:(lia)). lia.
Qed.

Lemma argmax_float_lt : forall xs, xs <> [] -> (argmax_float xs < length xs)%nat.
Proof.
  intros [|x xs] H; [congruence|]. unfold argmax_float.
  pose proof (argmax_from_lt xs x 0 1 ltac:(lia)). simpl. lia.
Qed.

Lemma length_interleave : forall xs ys,
  length xs = length ys -> length (interleave xs ys) = (2 * length xs)%nat.
Proof.
  induction xs as [|a xs IH]; intros [|b ys] H; simpl in *; try lia.
  rewrite IH by lia. lia.
Qed.

Lemma Forall_interleave : forall (P : float -> Prop) xs,
  Forall P xs -> Forall P (interleave xs xs).
Proof. intros P xs H; induction H; simpl; repeat constructor; auto. Qed.

Lemma Forall_set0 : forall (P : float -> Prop) x v,
  P x -> Forall P v -> Forall P (set0 x v).
Proof. intros P x v Hx H; destruct H; simpl; constructor; auto. Qed.

Lemma length_set0 : forall A (x : A) v, length (set0 x v) = length v.
Proof. intros A x [|y v]; reflexivity. Qed.

Lemma increasing_b_finite : forall xs,
  increasing_b xs = true -> (2 <= length xs)%nat -> all_finite xs = true.
Proof.
  induction xs as [|x0 xs IH]; intros H H2; [simpl in H2; lia|].
  destruct xs as [|x1 xs]; [simpl in H2; lia|].
  cbn [increasing_b] in H. apply andb_true_iff in H. destruct H as [H1 H].
  destruct x0 as [q0|]; [|discriminate]. destruct x1 as [q1|]; [|discriminate].
  destruct xs as [|x2 xs]; [reflexivity|].
  specialize (IH H ltac:(simpl; lia)). unfold all_finite in *. simpl in *. exact IH.
Qed.

Lemma ShareAdj_continuous_weak_range : forall SG FOC,
  forallb (in_range_b 0 1) SG = true -> (2 <= length SG)%nat ->
  forallb all_finite FOC = true ->
  Forall (fun row => length row = length SG) FOC ->
  Forall (fun y => is_finite y = true -> in_range 0 1 y) (ShareAdj_continuous SG FOC).
Proof.
  intros SG FOC HS H2 HF HR. apply Forall_nth. intros i d Hi.
  rewrite length_ShareAdj_continuous in Hi.
  rewrite nth_ShareAdj_continuous by exact Hi.
  assert (IN : In (nth i FOC []) FOC) by (now apply nth_In).
  rewrite forallb_forall in HF. rewrite Forall_forall in HR.
  intros Fin'. pose proof (HR _ IN) as E. cbv beta in E.
  apply share_of_row_in_range;
    [ apply HF; exact IN | exact E | unfold vec in *; lia | exact HS | exact Fin' ].
Qed.

Lemma ShareAdj_discrete_range : forall SG V,
  forallb (in_range_b 0 1) SG = true -> (1 <= length SG)%nat ->
  Forall (fun row => length row = length SG) V ->
  Forall (in_range 0 1) (ShareAdj_discrete SG V).
Proof.
  intros SG V HS H1 HR. unfold ShareAdj_discrete, take_at, opt_idx.
  rewrite map_map. apply Forall_map. rewrite Forall_forall in *. intros row IN.
  apply in_range_b_spec. apply forallb_nth; [exact HS|].
  rewrite <- (HR _ IN). apply argmax_float_lt.
  intros E. specialize (HR _ IN). rewrite E in HR. simpl in HR. lia.
Qed.

Section InterpolantRange.
Context {lib : NumLib}.

End InterpolantRange.

(* ================================================================== *)
(** ** Algebra of expectations *)
(* ================================================================== *)

Lemma feq_refl : forall x, x =f= x.
Proof. intros [q|]; simpl; [reflexivity | exact I]. Qed.

Lemma feq_sym : forall x y, x =f= y -> y =f= x.
Proof. intros [a|] [b|] H; simpl in *; auto. now symmetry. Qed.

Lemma feq_trans : forall x y z, x =f= y -> y =f= z -> x =f= z.
Proof.
  intros [a|] [b|] [c|] H1 H2; simpl in *; auto; try contradiction.
  now transitivity b.
Qed.

#[export] Instance feq_Equivalence : Equivalence feq.
Proof. split; [exact feq_refl | exact feq_sym | exact feq_trans]. Qed.


#[export] Instance fmul_Proper : Proper (feq ==> feq ==> feq) fmul.
Proof.
  intros [a|] [b|] H1 [c|] [d|] H2; simpl in *; auto; try contradiction.
  now rewrite H1, H2.
Qed.

(** Identities of the arithmetic, up to [feq]: each float is finite or not,
    and the finite case is an identity of rationals. *)
Ltac float_ring :=
  intros;
  repeat match goal with x : float |- _ => destruct x end;
  simpl; try discriminate; try exact I; try ring.




Lemma fmul_add_distr_r : forall x y z, (x + y) * z =f= x * z + y * z.
Proof. float_ring. Qed.

Lemma fmul_add_distr_l : forall x y z, x * (y + z) =f= x * y + x * z.
Proof. float_ring. Qed.









(* ================================================================== *)
(** ** Distances between expectations *)
(* ================================================================== *)










(* ================================================================== *)
(** ** More on [np.argmax], interleaved arrays and flat segments *)
(* ================================================================== *)

(** [np.argmax] over a finite row: the entry it selects is the largest, and
    every entry before it is strictly smaller. *)
Lemma argmax_from_max : forall qs b ibest i,
  (ibest < i)%nat ->
  let k := argmax_from (Fin b) ibest i (map Fin qs) in
  let v := if (k =? ibest)%nat then b else nth (k - i) qs 0%Q in
  (b <= v)%Q
  /\ (forall j, (j < length qs)%nat -> (nth j qs 0 <= v)%Q)
  /\ (k = ibest
      \/ ((i <= k)%nat /\ (k < i + length qs)%nat /\ (b < v)%Q
          /\ forall j, (j < k - i)%nat -> (nth j qs 0 < v)%Q)).
Proof.
  induction qs as [|q qs IH]; intros b ibest i Hi.
  - cbn [map argmax_from]. rewrite Nat.eqb_refl. cbv zeta.
    split; [lra|]. split; [intros j Hj; simpl in Hj; lia | now left].
  - cbn [map argmax_from is_finite]. unfold fltb, fleb.
    destruct (Qle_bool q b) eqn:E; cbn [negb].
    + apply Qle_bool_iff in E.
      specialize (IH b ibest (S i) ltac:(lia)). cbv zeta in IH |- *.
      set (k := argmax_from (Fin b) ibest (S i) (map Fin qs)) in *.
      destruct IH as [B [A D]].
      destruct (k =? ibest)%nat eqn:K.
      * split; [lra|]. split.
        -- intros [|j] Hj; cbn [nth]; [lra | apply A; simpl in Hj; lia].
        -- left. now apply Nat.eqb_eq.
      * destruct D as [D|[D1 [D2 [D3 D4]]]]; [apply Nat.eqb_neq in K; congruence|].
        replace (k - i)%nat with (S (k - S i)) by lia. cbn [nth].
        split; [lra|]. split.
        -- intros [|j] Hj; cbn [nth]; [lra | apply A; simpl in Hj; lia].
        -- right. split; [lia|]. split; [simpl; lia|]. split; [exact D3|].
           intros [|j] Hj; cbn [nth]; [lra | apply D4; lia].
    + apply Qle_bool_false_lt in E.
      specialize (IH q i (S i) ltac:(lia)). cbv zeta in IH |- *.
      set (k := argmax_from (Fin q) i (S i) (map Fin qs)) in *.
      destruct IH as [B [A D]].
      assert (KI : (i <= k)%nat) by (destruct D as [D|[D _]]; lia).
      assert (K : (k =? ibest)%nat = false) by (apply Nat.eqb_neq; lia).
      rewrite K.
      assert (V : nth (k - i) (q :: qs) 0%Q
                  = if (k =? i)%nat then q else nth (k - S i) qs 0%Q).
      { destruct (Nat.eq_dec k i) as [KE|KE].
        - rewrite KE, Nat.sub_diag, Nat.eqb_refl. reflexivity.
        - replace (k - i)%nat with (S (k - S i)) by lia.
          apply Nat.eqb_neq in KE. rewrite KE. reflexivity. }
      rewrite V. split; [lra|]. split.
      * intros [|j] Hj; cbn [nth]; [exact B | apply A; simpl in Hj; lia].
      * right. split; [exact KI|]. split.
        -- destruct D as [D|[_ [D _]]]; simpl; lia.
        -- split; [lra|]. intros j Hj.
           destruct D as [D|[D1 [D2 [D3 D4]]]]; [lia|].
           destruct j as [|j]; cbn [nth]; [exact D3 | apply D4; lia].
Qed.

Lemma argmax_float_max : forall q0 qs,
  let row := q0 :: qs in
  let k := argmax_float (map Fin row) in
  (k < length row)%nat
  /\ (forall j, (j < length row)%nat -> (nth j row 0 <= nth k row 0)%Q)
  /\ (forall j, (j < k)%nat -> (nth j row 0 < nth k row 0)%Q).
Proof.
  intros q0 qs row k. subst row k. cbn [map argmax_float].
  pose proof (argmax_from_max qs q0 0 1 ltac:(lia)) as H. cbv zeta in H.
  set (k := argmax_from (Fin q0) 0 1 (map Fin qs)) in *.
  destruct H as [B [A D]].
  assert (V : nth k (q0 :: qs) 0%Q = if (k =? 0)%nat then q0 else nth (k - 1) qs 0%Q).
  { destruct k as [|k]; [reflexivity|]. cbn [nth Nat.eqb].
    now rewrite Nat.sub_succ, Nat.sub_0_r. }
  rewrite V. split; [|split].
  - destruct D as [D|[_ [D _]]]; simpl; lia.
  - intros [|j] Hj; cbn [nth]; [exact B | apply A; simpl in Hj; lia].
  - intros j Hj. destruct D as [D|[D1 [D2 [D3 D4]]]]; [lia|].
    destruct j as [|j]; cbn [nth]; [exact D3 | apply D4; lia].
Qed.

(** Entries [2k] and [2k+1] of an array interleaved with itself. *)
Lemma nth_interleave_self : forall (v : vec) k d,
  (k < length v)%nat ->
  nth (2 * k) (interleave v v) d = nth k v d
  /\ nth (S (2 * k)) (interleave v v) d = nth k v d.
Proof.
  induction v as [|a v IH]; intros k d Hk; [simpl in Hk; lia|].
  destruct k as [|k]; [split; reflexivity|].
  replace (2 * S k)%nat with (S (S (2 * k))) by lia.
  cbn [interleave nth]. apply IH. simpl in Hk. lia.
Qed.

Lemma q_increasing_tail : forall q qs, q_increasing (q :: qs) -> q_increasing qs.
Proof. intros q [|q1 qs] H; [exact I | exact (proj2 H)]. Qed.

Lemma q_increasing_from_head : forall qs q j,
  q_increasing (q :: qs) -> (j < length qs)%nat -> (q < nth j qs 0)%Q.
Proof.
  induction qs as [|q1 qs IH]; intros q j H Hj; [simpl in Hj; lia|].
  destruct H as [H01 H]. destruct j as [|j]; [exact H01|].
  cbn [nth]. specialize (IH q1 j H ltac:(simpl in Hj; lia)). lra.
Qed.

(** On one segment of increasing nodes the piecewise-linear function stays
    between bounds that hold for the two ordinates of the segment. *)
Lemma pl_segment_range : forall qs ys j lo hi x,
  q_increasing qs -> length ys = length qs -> (S j < length qs)%nat ->
  (lo <= nth j ys 0 /\ nth j ys 0 <= hi)%Q ->
  (lo <= nth (S j) ys 0 /\ nth (S j) ys 0 <= hi)%Q ->
  (nth j qs 0 <= x)%Q -> (x <= nth (S j) qs 0)%Q ->
  (lo <= pl (combine qs ys) x /\ pl (combine qs ys) x <= hi)%Q.
Proof.
  induction qs as [|q0 qs IH]; intros ys j lo hi x HI HL Hj Y0 Y1 X0 X1;
    [simpl in Hj; lia|].
  destruct qs as [|q1 qs]; [simpl in Hj; lia|].
  destruct ys as [|y0 [|y1 ys]]; try (simpl in HL; lia).
  change (combine (q0 :: q1 :: qs) (y0 :: y1 :: ys))
    with ((q0, y0) :: (q1, y1) :: combine qs ys).
  pose proof HI as [H01 HI1].
  destruct j as [|j].
  - cbn [nth] in *. assert (E : Qle_bool x q1 = true) by (now apply Qle_bool_iff).
    rewrite pl_le by exact E.
    destruct (segment_weight q0 q1 x H01 X0 X1) as [A [A0 A1]].
    set (al := ((x - q0) / (q1 - q0))%Q) in *. split; nra.
  - cbn [nth] in Y0, Y1, X0, X1.
    destruct (Qle_bool x q1) eqn:E.
    + apply Qle_bool_iff in E. rewrite pl_le by (now apply Qle_bool_iff).
      destruct j as [|j].
      * cbn [nth] in *.
        destruct (segment_weight q0 q1 x H01 ltac:(lra) E) as [A [A0 A1]].
        set (al := ((x - q0) / (q1 - q0))%Q) in *.
        assert (A' : (al == 1)%Q) by nra.
        split; nra.
      * exfalso. cbn [nth] in X0.
        pose proof (q_increasing_from_head qs q1 j HI1 ltac:(simpl in Hj; lia)). lra.
    + rewrite pl_gt by exact E.
      change ((q1, y1) :: combine qs ys) with (combine (q1 :: qs) (y1 :: ys)).
      apply (IH (y1 :: ys) j lo hi x); auto; simpl in *; lia.
Qed.

Lemma nth_last_index : forall (l : list Q) j,
  S j = length l -> nth j l 0%Q = last l 0%Q.
Proof.
  induction l as [|a l IH]; intros j Hj; [simpl in Hj; lia|].
  destruct l as [|b l].
  - simpl in Hj. assert (j = 0%nat) by lia. subst j. reflexivity.
  - destruct j as [|j]; [simpl in Hj; lia|].
    cbn [nth]. change (last (a :: b :: l) 0%Q) with (last (b :: l) 0%Q).
    apply IH. simpl in *. lia.
Qed.

Lemma q_increasing_nth_lt_last : forall (l : list Q) j,
  q_increasing l -> (S j < length l)%nat -> (nth j l 0 < last l 0)%Q.
Proof.
  induction l as [|a l IH]; intros j Hq Hj; [simpl in Hj; lia|].
  destruct l as [|b l]; [simpl in Hj; lia|].
  change (last (a :: b :: l) 0%Q) with (last (b :: l) 0%Q).
  destruct j as [|j].
  - cbn [nth]. destruct Hq as [Hab Hq]. destruct l as [|c l]; [exact Hab|].
    specialize (IH 0%nat Hq ltac:(simpl; lia)). cbn [nth] in IH. lra.
  - cbn [nth]. apply IH; [exact (proj2 Hq) | simpl in *; lia].
Qed.

(* ================================================================== *)
(** ** Evaluation of a piecewise-linear interpolant, node by node *)
(* ================================================================== *)

Lemma fleb_false_fltb : forall (x : Q) y,
  (Fin x <=? y) = false -> is_finite y = true -> (y <? Fin x) = true.
Proof.
  intros x [b|] H F; [|discriminate]. cbn [fleb fltb] in *. now rewrite H.
Qed.

Lemma last_of_nth : forall xs : vec, last_of xs = nth (length xs - 1) xs NonFinite.
Proof.
  unfold last_of. induction xs as [|x [|y xs] IH]; [reflexivity | reflexivity |].
  change (last (x :: y :: xs) NonFinite) with (last (y :: xs) NonFinite).
  rewrite IH.
  replace (length (x :: y :: xs) - 1)%nat with (S (length (y :: xs) - 1))
    by (simpl; lia).
  reflexivity.
Qed.

Lemma locate_from_cons2 : forall i x x0 x1 tl,
  locate_from i x (x0 :: x1 :: tl)
  = if (x <=? x1) || negb (is_finite x1)
    then Some (i, (x - x0) / (x1 - x0))
    else locate_from (S i) x (x1 :: tl).
Proof. reflexivity. Qed.

(** The segment found by the search: its upper node is the first node,
    from the second one on, that is not below [x]. *)
Lemma locate_from_spec : forall xs i (x : Q) k alpha,
  locate_from i (Fin x) xs = Some (k, alpha) ->
  (i <= k)%nat
  /\ (S (k - i) < length xs)%nat
  /\ alpha = (Fin x - nth (k - i) xs NonFinite)
             / (nth (S (k - i)) xs NonFinite - nth (k - i) xs NonFinite)
  /\ ((Fin x <=? nth (S (k - i)) xs NonFinite) = true
      \/ is_finite (nth (S (k - i)) xs NonFinite) = false)
  /\ (forall j, (1 <= j <= k - i)%nat -> (nth j xs NonFinite <? Fin x) = true).
Proof.
  induction xs as [|x0 xs IH]; intros i x k alpha H; [discriminate|].
  destruct xs as [|x1 xs]; [discriminate|].
  rewrite locate_from_cons2 in H.
  destruct ((Fin x <=? x1) || negb (is_finite x1)) eqn:E.
  - inversion H; subst k alpha. rewrite Nat.sub_diag.
    change (nth 0 (x0 :: x1 :: xs) NonFinite) with x0.
    change (nth 1 (x0 :: x1 :: xs) NonFinite) with x1.
    split; [lia|]. split; [simpl; lia|]. split; [reflexivity|]. split.
    + apply orb_true_iff in E. destruct E as [E|E]; [now left|].
      right. now apply negb_true_iff.
    + intros j Hj. lia.
  - apply orb_false_iff in E. destruct E as [E1 E2]. apply negb_false_iff in E2.
    destruct (IH (S i) x k alpha H) as [K [L [A [B C]]]].
    assert (EK : (k - i = S (k - S i))%nat) by lia.
    rewrite EK.
    change (nth (S (k - S i)) (x0 :: x1 :: xs) NonFinite)
      with (nth (k - S i) (x1 :: xs) NonFinite).
    change (nth (S (S (k - S i))) (x0 :: x1 :: xs) NonFinite)
      with (nth (S (k - S i)) (x1 :: xs) NonFinite).
    split; [lia|]. split; [simpl in *; lia|]. split; [exact A|]. split; [exact B|].
    intros j Hj. destruct j as [|[|j]]; [lia | |].
    + change (nth 1 (x0 :: x1 :: xs) NonFinite) with x1. now apply fleb_false_fltb.
    + change (nth (S (S j)) (x0 :: x1 :: xs) NonFinite)
        with (nth (S j) (x1 :: xs) NonFinite).
      apply C. lia.
Qed.

(** When the search finds no segment, every node from the second one on is
    below [x]. *)
Lemma locate_from_None : forall xs i (x : Q),
  locate_from i (Fin x) xs = None ->
  forall j, (1 <= j < length xs)%nat -> (nth j xs NonFinite <? Fin x) = true.
Proof.
  induction xs as [|x0 xs IH]; intros i x H j Hj; [simpl in Hj; lia|].
  destruct xs as [|x1 xs]; [simpl in Hj; lia|].
  rewrite locate_from_cons2 in H.
  destruct ((Fin x <=? x1) || negb (is_finite x1)) eqn:E; [discriminate|].
  apply orb_false_iff in E. destruct E as [E1 E2]. apply negb_false_iff in E2.
  destruct j as [|[|j]]; [lia | |].
  - change (nth 1 (x0 :: x1 :: xs) NonFinite) with x1. now apply fleb_false_fltb.
  - change (nth (S (S j)) (x0 :: x1 :: xs) NonFinite) with (nth (S j) (x1 :: xs) NonFinite).
    apply (IH (S i) x H). simpl in *. lia.
Qed.

(** A finite weight on a segment: both nodes are finite and distinct. *)
Lemma segment_alpha_finite : forall (x al : Q) (x0 x1 : float),
  (Fin x - x0) / (x1 - x0) = Fin al ->
  exists q0 q1, x0 = Fin q0 /\ x1 = Fin q1 /\ ~ (q1 - q0 == 0)%Q
                /\ al = ((x - q0) / (q1 - q0))%Q.
Proof.
  intros x al [q0|] [q1|] H; cbn [fsub fdiv lift2] in H; try discriminate.
  unfold fdiv in H. destruct (Qeq_bool (q1 - q0) 0) eqn:E; [discriminate|].
  inversion H. exists q0, q1. repeat split.
  intros C. apply Qeq_bool_iff in C. congruence.
Qed.

Lemma lerp_finite : forall alpha y0 y1 (q : Q),
  lerp alpha y0 y1 = Fin q ->
  exists al c0 c1, alpha = Fin al /\ y0 = Fin c0 /\ y1 = Fin c1
                   /\ q = ((1 - al) * c0 + al * c1)%Q.
Proof.
  intros [al|] [c0|] [c1|] q H; cbn in H; try discriminate.
  inversion H. eauto 7.
Qed.

Lemma fltb_Fin : forall a b : Q, (Fin a <? Fin b) = true -> (a < b)%Q.
Proof.
  intros a b H. cbn [fltb] in H. apply negb_true_iff in H.
  now apply Qle_bool_false_lt.
Qed.

Section Cases.
Context {lib : NumLib}.
Variables (xs ys : vec) (il sl : option float).

(** The three ways a piecewise-linear interpolant gives a number at a point
    not below its first node: by the decay toward its limiting line, above
    the last node; between two consecutive nodes that bracket the point; or
    on its last segment continued, above every node. *)
Lemma eval_LinearInterp_cases : forall (m q x0 : Q) out,
  nth 0 xs NonFinite = Fin x0 -> (x0 <= m)%Q -> (2 <= length xs)%nat ->
  eval_LinearInterp xs ys il sl (Fin m) out = Fin q ->
  (decay_extrap xs ys il sl = true /\ (x_top xs <? Fin m) = true
   /\ decay_value xs ys il sl (Fin m) = Fin q)
  \/ (exists k q0 q1 c0 c1,
        nth k xs NonFinite = Fin q0 /\ nth (S k) xs NonFinite = Fin q1
        /\ nth k ys NonFinite = Fin c0 /\ nth (S k) ys NonFinite = Fin c1
        /\ (q0 <= m)%Q /\ (m <= q1)%Q /\ (q0 < q1)%Q
        /\ (forall j, (1 <= j <= k)%nat -> (nth j xs NonFinite <? Fin m) = true)
        /\ q = ((1 - (m - q0) / (q1 - q0)) * c0 + (m - q0) / (q1 - q0) * c1)%Q)
  \/ (exists qb qt cb ct,
        x_below_top xs = Fin qb /\ x_top xs = Fin qt
        /\ y_below_top xs ys = Fin cb /\ y_top xs ys = Fin ct
        /\ ~ (qt - qb == 0)%Q /\ (qt < m)%Q
        /\ (forall j, (1 <= j < length xs)%nat -> (nth j xs NonFinite <? Fin m) = true)
        /\ q = ((1 - (m - qb) / (qt - qb)) * cb + (m - qb) / (qt - qb) * ct)%Q).
Proof.
  intros m q x0 out H0 Hm H2 H. unfold eval_LinearInterp in H.
  destruct (decay_extrap xs ys il sl && (x_top xs <? Fin m)) eqn:ED.
  { left. apply andb_true_iff in ED. destruct ED as [E1 E2]. auto. }
  right. unfold locate in H.
  destruct xs as [|x0' xs'] eqn:EX; [simpl in H2; lia|].
  cbn [nth] in H0. subst x0'.
  assert (E0 : (Fin x0 <=? Fin m) = true) by (now apply Qle_bool_iff).
  rewrite E0 in H. rewrite <- EX in *.
  destruct (locate_from 0 (Fin m) xs) as [[k alpha]|] eqn:EL.
  - left.
    destruct (locate_from_spec xs 0 m k alpha EL) as [_ [L [A [B C]]]].
    rewrite Nat.sub_0_r in *.
    destruct (lerp_finite _ _ _ _ H) as [al [c0 [c1 [Ea [Ec0 [Ec1 Eq]]]]]].
    rewrite Ea in A. symmetry in A.
    destruct (segment_alpha_finite _ _ _ _ A) as [q0 [q1 [X0 [X1 [NZ EA]]]]].
    exists k, q0, q1, c0, c1.
    assert (M1 : (m <= q1)%Q).
    { destruct B as [B|B]; [|rewrite X1 in B; discriminate].
      rewrite X1 in B. now apply Qle_bool_iff in B. }
    assert (M0 : (q0 <= m)%Q).
    { destruct k as [|k].
      - rewrite EX in X0. cbn [nth] in X0. inversion X0. subst q0. exact Hm.
      - specialize (C (S k) ltac:(lia)). rewrite X0 in C.
        apply fltb_Fin in C. lra. }
    repeat split; auto.
    + assert (~ q1 == q0)%Q by (intros E; apply NZ; rewrite E; ring). lra.
    + subst al. exact Eq.
  - right.
    pose proof (locate_from_None xs 0 m EL) as C.
    assert (ET : (x_top xs <? Fin m) = true).
    { unfold x_top. rewrite last_of_nth. apply C. lia. }
    assert (EA : above_nodes xs (Fin m) = true).
    { unfold above_nodes. rewrite EX in *. destruct xs' as [|x1 xs'']; [simpl in H2; lia|].
      now rewrite E0, ET. }
    rewrite EA in H. unfold last_segment_value in H.
    destruct (lerp_finite _ _ _ _ H) as [al [cb [ct [Ea [Ecb [Ect Eq]]]]]].
    destruct (segment_alpha_finite _ _ _ _ Ea) as [qb [qt [Xb [Xt [NZ EAl]]]]].
    exists qb, qt, cb, ct. repeat split; auto.
    + rewrite Xt in ET. now apply fltb_Fin.
    + subst al. exact Eq.
Qed.

End Cases.

(** *** Ordered lists of rationals *)






(** *** Values in a range *)

Lemma weak_range_nth : forall lo hi ys k (c : Q),
  Forall (fun y => is_finite y = true -> in_range lo hi y) ys ->
  nth k ys NonFinite = Fin c -> (lo <= c <= hi)%Q.
Proof.
  intros lo hi ys k c H E.
  destruct (Nat.lt_ge_cases k (length ys)) as [L|L].
  - rewrite Forall_forall in H.
    specialize (H _ (nth_In ys NonFinite L)). rewrite E in H. now apply H.
  - rewrite nth_overflow in E by exact L. discriminate.
Qed.

(** Between two nodes the interpolant is between their values. *)
Lemma segment_in_range : forall lo hi (q0 q1 m c0 c1 : Q),
  (q0 <= m)%Q -> (m <= q1)%Q -> (q0 < q1)%Q ->
  (lo <= c0 <= hi)%Q -> (lo <= c1 <= hi)%Q ->
  (lo <= (1 - (m - q0) / (q1 - q0)) * c0 + (m - q0) / (q1 - q0) * c1 <= hi)%Q.
Proof.
  intros lo hi q0 q1 m c0 c1 M0 M1 Q01 [L0 H0] [L1 H1].
  destruct (segment_weight q0 q1 m Q01 M0 M1) as [_ [A0 A1]].
  set (al := ((m - q0) / (q1 - q0))%Q) in *. clearbody al.
  assert (P0 : (0 <= (1 - al) * (c0 - lo))%Q) by (apply Qmult_le_0_compat; lra).
  assert (P1 : (0 <= al * (c1 - lo))%Q) by (apply Qmult_le_0_compat; lra).
  assert (P2 : (0 <= (1 - al) * (hi - c0))%Q) by (apply Qmult_le_0_compat; lra).
  assert (P3 : (0 <= al * (hi - c1))%Q) by (apply Qmult_le_0_compat; lra).
  split; lra.
Qed.

(** What is left of the gap to the limiting line is between the value at the
    last node and the limit. *)
Lemma decay_in_range : forall lo hi (L ct e : Q),
  (lo <= L <= hi)%Q -> (lo <= ct <= hi)%Q -> (0 <= e <= 1)%Q ->
  (lo <= L - (L - ct) * e <= hi)%Q.
Proof.
  intros lo hi L ct e [L0 L1] [C0 C1] [E0 E1].
  assert (P0 : (0 <= (1 - e) * (L - lo))%Q) by (apply Qmult_le_0_compat; lra).
  assert (P1 : (0 <= e * (ct - lo))%Q) by (apply Qmult_le_0_compat; lra).
  assert (P2 : (0 <= (1 - e) * (hi - L))%Q) by (apply Qmult_le_0_compat; lra).
  assert (P3 : (0 <= e * (hi - ct))%Q) by (apply Qmult_le_0_compat; lra).
  split; lra.
Qed.

Lemma nth_interleave_same : forall (v : vec) k d,
  nth (2 * k) (interleave v v) d = nth k v d
  /\ nth (S (2 * k)) (interleave v v) d = nth k v d.
Proof.
  induction v as [|a v IH]; intros k d.
  - destruct k; split; reflexivity.
  - destruct k as [|k]; [split; reflexivity|].
    replace (2 * S k)%nat with (S (S (2 * k))) by lia.
    cbn [interleave nth]. apply IH.
Qed.

Lemma fleb_fltb_excl : forall x y, (x <=? y) = true -> (y <? x) = true -> False.
Proof.
  intros [a|] [b|] H1 H2; cbn [fleb fltb] in *; try discriminate.
  rewrite H1 in H2. discriminate.
Qed.

Section Decay.
Context {lib : NumLib}.
Variables (xs ys : vec).

(** A limiting line of slope 0 and a flat last segment: no decay. *)
Lemma flat_top_no_decay : forall (L : float) (sigma : Q),
  (y_below_top xs ys ==? y_top xs ys) = true ->
  slope_at_top xs ys = Fin sigma ->
  decay_extrap xs ys (Some L) (Some (Fin 0)) = false.
Proof.
  intros L sigma HF HS. unfold decay_extrap. rewrite HS.
  unfold slope_at_top in HS.
  destruct (y_below_top xs ys) as [cb|]; [|discriminate].
  destruct (y_top xs ys) as [ct|]; [|discriminate].
  cbn [feqb] in HF. apply Qeq_bool_iff in HF.
  destruct (x_top xs - x_below_top xs) as [d|] eqn:ED; [|discriminate].
  cbn [fsub lift2] in HS. unfold fdiv in HS.
  destruct (Qeq_bool d 0) eqn:EZ; [discriminate|]. inversion HS as [E].
  assert (Z : (sigma == 0)%Q).
  { subst sigma. assert (~ d == 0)%Q by (intros C; apply Qeq_bool_iff in C; congruence).
    field_simplify_eq; [lra | assumption]. }
  apply negb_false_iff. unfold isclose. cbn [fsub fabs fmul fadd lift2 fleb].
  apply Qle_bool_iff. rewrite E, Z.
  vm_compute. discriminate.
Qed.

(** For a decay rate that is not negative, and an exponential that maps the
    numbers up to 0 into [[0, 1]], the share of the gap left beyond the last
    node is between 0 and 1. *)
Lemma decay_factor_unit : forall (i s : float) (m e : Q),
  (forall t r : Q, (t <= 0)%Q -> exp t = Fin r -> (0 <= r <= 1)%Q) ->
  (Fin 0 <=? decay_extrap_B xs ys i s) = true ->
  (x_top xs <? Fin m) = true ->
  decay_factor xs ys i s (Fin m) = Fin e ->
  (0 <= e <= 1)%Q.
Proof.
  intros i s m e HE HB HT HF. unfold decay_factor in HF.
  destruct (decay_extrap_B xs ys i s) as [b|]; [|discriminate].
  destruct (x_top xs) as [t|]; [|discriminate].
  cbn [fleb] in HB. apply Qle_bool_iff in HB. apply fltb_Fin in HT.
  cbn [fopp fsub fmul lift2 fexp] in HF.
  eapply HE; [|exact HF].
  assert (P : (0 <= b * (m - t))%Q) by (apply Qmult_le_0_compat; lra).
  lra.
Qed.

End Decay.
(* ================================================================== *)
(** ** Claims about one period *)
(* ================================================================== *)

Section PeriodClaims.
Context {lib : NumLib}.
Variables
  (solution_next : PortfolioSolution.t)
  (ShockDstn : Distribution JointShk)
  (IncShkDstn : Distribution IncShk)
  (RiskyDstn : Distribution float)
  (LivPrb DiscFac CRRA Rfree PermGroFac : float)
  (BoroCnstArt : option float)
  (aXtraGrid ShareGrid : vec)
  (AdjustPrb ShareLimit : float)
  (vFuncBool DiscreteShareBool IndepDstnBool : bool).

(** The solver's local values at these parameters. *)
Local Abbreviation solve' vF :=
  (solve_one_period_ConsPortfolio solution_next ShockDstn IncShkDstn RiskyDstn
     LivPrb DiscFac CRRA Rfree PermGroFac BoroCnstArt aXtraGrid ShareGrid
     AdjustPrb ShareLimit vF DiscreteShareBool IndepDstnBool).
Local Abbreviation solution_now' vF :=
  (solution_now solution_next ShockDstn IncShkDstn RiskyDstn
     LivPrb DiscFac CRRA Rfree PermGroFac aXtraGrid ShareGrid
     AdjustPrb ShareLimit vF DiscreteShareBool IndepDstnBool).
Local Abbreviation aNrmGrid' := (aNrmGrid IncShkDstn aXtraGrid).
Local Abbreviation EndOfPrd_dvda' :=
  (EndOfPrd_dvda solution_next ShockDstn IncShkDstn RiskyDstn
     LivPrb DiscFac CRRA Rfree PermGroFac aXtraGrid ShareGrid AdjustPrb IndepDstnBool).
Local Abbreviation EndOfPrd_dvds' :=
  (EndOfPrd_dvds solution_next ShockDstn IncShkDstn RiskyDstn
     LivPrb DiscFac CRRA Rfree PermGroFac aXtraGrid ShareGrid AdjustPrb IndepDstnBool).
Local Abbreviation EndOfPrd_v' :=
  (EndOfPrd_v solution_next ShockDstn IncShkDstn RiskyDstn
     LivPrb DiscFac CRRA Rfree PermGroFac aXtraGrid ShareGrid AdjustPrb IndepDstnBool).
Local Abbreviation EndOfPrd_dvdaNvrs' :=
  (EndOfPrd_dvdaNvrs solution_next ShockDstn IncShkDstn RiskyDstn
     LivPrb DiscFac CRRA Rfree PermGroFac aXtraGrid ShareGrid AdjustPrb IndepDstnBool).
Local Abbreviation ShareAdj_opt' :=
  (ShareAdj_opt solution_next ShockDstn IncShkDstn RiskyDstn
     LivPrb DiscFac CRRA Rfree PermGroFac aXtraGrid ShareGrid AdjustPrb
     DiscreteShareBool IndepDstnBool).
Local Abbreviation cNrmAdj_opt' :=
  (cNrmAdj_opt solution_next ShockDstn IncShkDstn RiskyDstn
     LivPrb DiscFac CRRA Rfree PermGroFac aXtraGrid ShareGrid AdjustPrb
     DiscreteShareBool IndepDstnBool).
Local Abbreviation ShareAdj_now' :=
  (ShareAdj_now solution_next ShockDstn IncShkDstn RiskyDstn
     LivPrb DiscFac CRRA Rfree PermGroFac aXtraGrid ShareGrid AdjustPrb
     DiscreteShareBool IndepDstnBool).
Local Abbreviation cNrmAdj_now' :=
  (cNrmAdj_now solution_next ShockDstn IncShkDstn RiskyDstn
     LivPrb DiscFac CRRA Rfree PermGroFac aXtraGrid ShareGrid AdjustPrb
     DiscreteShareBool IndepDstnBool).
Local Abbreviation mNrmAdj_now' :=
  (mNrmAdj_now solution_next ShockDstn IncShkDstn RiskyDstn
     LivPrb DiscFac CRRA Rfree PermGroFac aXtraGrid ShareGrid AdjustPrb
     DiscreteShareBool IndepDstnBool).
Local Abbreviation cFuncAdj_now' :=
  (cFuncAdj_now solution_next ShockDstn IncShkDstn RiskyDstn
     LivPrb DiscFac CRRA Rfree PermGroFac aXtraGrid ShareGrid AdjustPrb
     DiscreteShareBool IndepDstnBool).
Local Abbreviation ShareFuncAdj_now' :=
  (ShareFuncAdj_now solution_next ShockDstn IncShkDstn RiskyDstn
     LivPrb DiscFac CRRA Rfree PermGroFac aXtraGrid ShareGrid AdjustPrb ShareLimit
     DiscreteShareBool IndepDstnBool).
Local Abbreviation cFuncLimitIntercept' :=
  (cFuncLimitIntercept solution_next ShockDstn RiskyDstn
     LivPrb DiscFac CRRA Rfree PermGroFac ShareLimit).
Local Abbreviation cFuncLimitSlope' :=
  (cFuncLimitSlope solution_next RiskyDstn LivPrb DiscFac CRRA Rfree ShareLimit).

Lemma length_aNrmNow : length (aNrmNow IncShkDstn aXtraGrid ShareGrid) = length aNrmGrid'.
Proof. apply length_meshgrid_ij_fst. Qed.
Lemma length_ShareNext : length (ShareNext IncShkDstn aXtraGrid ShareGrid) = length aNrmGrid'.
Proof. apply length_meshgrid_ij_snd. Qed.

Lemma length_expected_on : forall A (f : A -> float -> float -> float) d,
  length (expected_on f d (aNrmNow IncShkDstn aXtraGrid ShareGrid)
            (ShareNext IncShkDstn aXtraGrid ShareGrid)) = length aNrmGrid'.
Proof.
  intros. unfold expected_on, mat_zipWith.
  rewrite length_zipWith, length_aNrmNow, length_ShareNext. apply Nat.min_id.
Qed.

Lemma length_EndOfPrd_dvda : length EndOfPrd_dvda' = length aNrmGrid'.
Proof.
  unfold EndOfPrd_dvda, EndOfPrd_dvda_indep, EndOfPrd_dvda_joint, scale.
  destruct IndepDstnBool; rewrite length_map; apply length_expected_on.
Qed.
Lemma length_EndOfPrd_dvds : length EndOfPrd_dvds' = length aNrmGrid'.
Proof.
  unfold EndOfPrd_dvds, EndOfPrd_dvds_indep, EndOfPrd_dvds_joint, scale.
  destruct IndepDstnBool; rewrite length_map; apply length_expected_on.
Qed.
Lemma length_EndOfPrd_v : length EndOfPrd_v' = length aNrmGrid'.
Proof.
  unfold EndOfPrd_v, EndOfPrd_v_indep, EndOfPrd_v_joint, scale.
  destruct IndepDstnBool; rewrite length_map; apply length_expected_on.
Qed.
Lemma length_EndOfPrd_dvdaNvrs : length EndOfPrd_dvdaNvrs' = length aNrmGrid'.
Proof. unfold EndOfPrd_dvdaNvrs. rewrite length_map. apply length_EndOfPrd_dvda. Qed.

Lemma length_ShareAdj_opt : length ShareAdj_opt' = length aNrmGrid'.
Proof.
  unfold ShareAdj_opt. destruct DiscreteShareBool.
  - rewrite length_ShareAdj_discrete. apply length_EndOfPrd_v.
  - rewrite length_ShareAdj_continuous. apply length_EndOfPrd_dvds.
Qed.
Lemma length_cNrmAdj_opt : length cNrmAdj_opt' = length aNrmGrid'.
Proof.
  unfold cNrmAdj_opt. destruct DiscreteShareBool.
  - rewrite length_cNrmAdj_discrete.
    + apply length_EndOfPrd_v.
    + now rewrite length_EndOfPrd_v, length_EndOfPrd_dvdaNvrs.
  - rewrite length_cNrmAdj_continuous.
    + apply length_EndOfPrd_dvds.
    + now rewrite length_EndOfPrd_dvds, length_EndOfPrd_dvdaNvrs.
Qed.

Lemma nth_error_set0 : forall A (x : A) v, v <> [] -> nth_error (set0 x v) 0 = Some x.
Proof. intros A x [|y tl] H; [congruence | reflexivity]. Qed.

(** C8: when the smallest transitory income shock is strictly positive, the
    asset grid is [aXtraGrid] with an exact 0.0 prepended, and at that
    gridpoint the share is forced to 1.0 and consumption is read from the
    last share column of the inverse-marginal-utility array; when the
    smallest transitory shock is zero, the asset grid is [aXtraGrid] itself
    and share and consumption are left as the optimisation gave them. *)
Theorem C8_zero_asset_gridpoint :
  let TranShkMin := np_min (map TranShk (atoms IncShkDstn)) in
  ((TranShkMin >? 0) = true ->
       aNrmGrid' = Fin 0 :: aXtraGrid
    /\ PortfolioSolution.aGrid (solution_now' vFuncBool) = Some (Fin 0 :: aXtraGrid)
    /\ nth_error ShareAdj_now' 0 = Some (Fin 1)
    /\ nth_error cNrmAdj_now' 0 = Some (last_of (nth 0 EndOfPrd_dvdaNvrs' [])))
  /\ ((TranShkMin ==? 0) = true ->
       aNrmGrid' = aXtraGrid
    /\ PortfolioSolution.aGrid (solution_now' vFuncBool) = Some aXtraGrid
    /\ ShareAdj_now' = ShareAdj_opt'
    /\ cNrmAdj_now' = cNrmAdj_opt').
Proof.
  intros TranShkMin. split; intros H.
  - assert (Z : BoroCnstNat_iszero IncShkDstn = false).
    { unfold BoroCnstNat_iszero. fold TranShkMin.
      destruct TranShkMin as [q|]; simpl in *; [|discriminate].
      apply negb_true_iff in H. apply not_true_is_false. intros E.
      apply Qeq_bool_iff in E. rewrite <- not_true_iff_false in H. apply H.
      apply Qle_bool_iff. rewrite E. apply Qle_refl. }
    assert (G : aNrmGrid' = Fin 0 :: aXtraGrid).
    { unfold aNrmGrid. now rewrite Z. }
    repeat split.
    + exact G.
    + simpl. unfold save_a. now rewrite G.
    + unfold ShareAdj_now, fix_bottom_share. rewrite Z. simpl negb. cbv iota.
      apply nth_error_set0. intros E.
      pose proof length_ShareAdj_opt as L. rewrite E, G in L. discriminate.
    + unfold cNrmAdj_now, fix_bottom_cNrm. rewrite Z. simpl negb. cbv iota.
      apply nth_error_set0. intros E.
      pose proof length_cNrmAdj_opt as L. rewrite E, G in L. discriminate.
  - assert (Z : BoroCnstNat_iszero IncShkDstn = true) by exact H.
    repeat split.
    + unfold aNrmGrid. now rewrite Z.
    + simpl. unfold save_a, aNrmGrid. now rewrite Z.
    + unfold ShareAdj_now, fix_bottom_share. now rewrite Z.
    + unfold cNrmAdj_now, fix_bottom_cNrm. now rewrite Z.
Qed.

(** C4, as the code has it: the adjust-regime consumption function is the
    piecewise-linear interpolant through the origin and the endogenous
    gridpoints [aNrmGrid[i] + cNrmAdj[i]], and it is built with no limiting
    intercept and no limiting slope: [cFuncLimitIntercept] and
    [cFuncLimitSlope] are computed and never passed on, unlike the limit of
    the continuous share function. *)
Theorem C4_cFuncAdj_built_without_limits :
  let xs := Fin 0 :: zipWith fadd aNrmGrid' cNrmAdj_now' in
  let ys := Fin 0 :: cNrmAdj_now' in
  PortfolioSolution.cFuncAdj (solution_now' vFuncBool) = LinearInterp xs ys None None
  /\ PortfolioSolution.cFuncAdj (solution_now' vFuncBool)
       <> LinearInterp xs ys (Some cFuncLimitIntercept') (Some cFuncLimitSlope')
  /\ (DiscreteShareBool = false ->
      exists xs' ys',
        PortfolioSolution.ShareFuncAdj (solution_now' vFuncBool)
          = LinearInterp xs' ys' (Some ShareLimit) (Some (Fin 0))).
Proof.
  intros xs ys. repeat split.
  - simpl. discriminate.
  - intros D. simpl. unfold ShareFuncAdj_now. rewrite D. eauto.
Qed.

(** C10: the constructor stores [NullFunc] for every function argument that
    is [None] and the argument itself otherwise; and when [vFuncBool] is
    false the solver's result, if any, has [NullFunc] in both value-function
    fields. *)
Theorem C10_NullFunc_placeholders :
  (forall cA sA vA vpA cF sF vF dmF dsF aG Sadj Eadj SG Efxd Esfxd Adj,
     let s := PortfolioSolution.__init__ cA sA vA vpA cF sF vF dmF dsF
                aG Sadj Eadj SG Efxd Esfxd Adj in
     PortfolioSolution.cFuncAdj s = PortfolioSolution.or_NullFunc cA
     /\ PortfolioSolution.ShareFuncAdj s = PortfolioSolution.or_NullFunc sA
     /\ PortfolioSolution.vFuncAdj s = PortfolioSolution.or_NullFunc vA
     /\ PortfolioSolution.vPfuncAdj s = PortfolioSolution.or_NullFunc vpA
     /\ PortfolioSolution.cFuncFxd s = PortfolioSolution.or_NullFunc cF
     /\ PortfolioSolution.ShareFuncFxd s = PortfolioSolution.or_NullFunc sF
     /\ PortfolioSolution.vFuncFxd s = PortfolioSolution.or_NullFunc vF
     /\ PortfolioSolution.dvdmFuncFxd s = PortfolioSolution.or_NullFunc dmF
     /\ PortfolioSolution.dvdsFuncFxd s = PortfolioSolution.or_NullFunc dsF)
  /\ PortfolioSolution.or_NullFunc None = NullFunc
  /\ (forall f, PortfolioSolution.or_NullFunc (Some f) = f)
  /\ (forall s, solve' false = Return s ->
        PortfolioSolution.vFuncAdj s = NullFunc
        /\ PortfolioSolution.vFuncFxd s = NullFunc).
Proof.
  repeat split.
  - unfold solve_one_period_ConsPortfolio in H.
    destruct (raised _ _ _ _ _ _ _ _ _ _) ; [discriminate|]. inversion H; subst. reflexivity.
  - unfold solve_one_period_ConsPortfolio in H.
    destruct (raised _ _ _ _ _ _ _ _ _ _) ; [discriminate|]. inversion H; subst. reflexivity.
Qed.


(** *** What a returned solution tells about the inputs *)

Local Abbreviation raised' vF :=
  (raised solution_next IncShkDstn RiskyDstn CRRA BoroCnstArt aXtraGrid ShareGrid vF
     DiscreteShareBool IndepDstnBool).

Lemma solve_Return : forall vF s,
  solve' vF = Return s -> s = solution_now' vF /\ raised' vF = None.
Proof.
  intros vF s H. unfold solve_one_period_ConsPortfolio in H.
  destruct (raised' vF); [discriminate|]. inversion H. auto.
Qed.

Lemma raised_None_grids : forall vF,
  raised' vF = None ->
  aNrmGrid' <> []
  /\ (if DiscreteShareBool then 1 <= length ShareGrid else 2 <= length ShareGrid)%nat.
Proof.
  intros vF H. unfold raised in H. split.
  - assert (G : BoroCnstNat_iszero IncShkDstn && is_empty aXtraGrid = false).
    { eapply first_raised_none; [exact H|]. apply in_or_app. right.
      unfold runtime_guards. do 5 right. left. reflexivity. }
    unfold aNrmGrid. destruct (BoroCnstNat_iszero IncShkDstn); [|discriminate].
    destruct aXtraGrid; [discriminate | discriminate].
  - assert (G : (if DiscreteShareBool then ShareCount ShareGrid =? 0
                 else ShareCount ShareGrid <=? 1)%nat = false).
    { eapply first_raised_none; [exact H|]. apply in_or_app. right.
      unfold runtime_guards. do 7 right. left. reflexivity. }
    unfold ShareCount in G. destruct DiscreteShareBool.
    + apply Nat.eqb_neq in G. lia.
    + apply Nat.leb_gt in G. lia.
Qed.

(** *** Rows of the end-of-period arrays *)

Lemma zipWith_map_same : forall A B C D (F : B -> C -> D) (f1 : A -> B) (f2 : A -> C) l,
  zipWith F (map f1 l) (map f2 l) = map (fun a => F (f1 a) (f2 a)) l.
Proof.
  intros. unfold zipWith. induction l as [|a l IH]; simpl; [reflexivity|]. now rewrite IH.
Qed.

Lemma rows_expected_on : forall A (f : A -> float -> float -> float) d,
  Forall (fun row => length row = length ShareGrid)
    (expected_on f d (aNrmNow IncShkDstn aXtraGrid ShareGrid)
       (ShareNext IncShkDstn aXtraGrid ShareGrid)).
Proof.
  intros. unfold expected_on, mat_zipWith, aNrmNow, ShareNext, meshgrid_ij. cbn [fst snd].
  rewrite zipWith_map_same. apply Forall_map. apply Forall_forall. intros a _.
  rewrite length_zipWith, length_map. apply Nat.min_id.
Qed.

Lemma rows_scale : forall k M n,
  Forall (fun row => length row = n) M -> Forall (fun row => length row = n) (scale k M).
Proof.
  intros k M n H. unfold scale. apply Forall_map. eapply Forall_impl; [|exact H].
  intros row E. cbv beta. now rewrite length_map.
Qed.

Lemma rows_EndOfPrd_dvds :
  Forall (fun row => length row = length ShareGrid) EndOfPrd_dvds'.
Proof.
  unfold EndOfPrd_dvds, EndOfPrd_dvds_indep, EndOfPrd_dvds_joint.
  destruct IndepDstnBool; apply rows_scale; apply rows_expected_on.
Qed.

Lemma rows_EndOfPrd_v :
  Forall (fun row => length row = length ShareGrid) EndOfPrd_v'.
Proof.
  unfold EndOfPrd_v, EndOfPrd_v_indep, EndOfPrd_v_joint.
  destruct IndepDstnBool; apply rows_scale; apply rows_expected_on.
Qed.

Lemma length_ShareAdj_now : length ShareAdj_now' = length aNrmGrid'.
Proof.
  unfold ShareAdj_now, fix_bottom_share.
  destruct (negb (BoroCnstNat_iszero IncShkDstn)); rewrite ?length_set0;
    apply length_ShareAdj_opt.
Qed.

Lemma length_cNrmAdj_now : length cNrmAdj_now' = length aNrmGrid'.
Proof.
  unfold cNrmAdj_now, fix_bottom_cNrm.
  destruct (negb (BoroCnstNat_iszero IncShkDstn)); rewrite ?length_set0;
    apply length_cNrmAdj_opt.
Qed.


Lemma length_mNrmAdj_now : length mNrmAdj_now' = S (length aNrmGrid').
Proof.
  unfold mNrmAdj_now, np_insert0. simpl.
  now rewrite length_zipWith, length_cNrmAdj_now, Nat.min_id.
Qed.




(** The stored arrays, for every input: [aGrid] is the asset grid; the
    stored marginal values of the adjuster have one entry more than the asset
    grid, and so has the stored share in continuous mode (the entry for
    [m = 0]); [EndOfPrddvda_fxd] is marginal utility applied to the marginal
    value of assets; [EndOfPrddvds_fxd] is the marginal value of share. *)
Lemma stored_arrays_shape :
  let s := solution_now' vFuncBool in
  PortfolioSolution.aGrid s = Some aNrmGrid'
  /\ option_map (@length float) (PortfolioSolution.EndOfPrddvda_adj s)
     = Some (S (length aNrmGrid'))
  /\ option_map (@length float) (PortfolioSolution.Share_adj s)
     = Some (if DiscreteShareBool then length aNrmGrid' else S (length aNrmGrid'))
  /\ PortfolioSolution.EndOfPrddvda_fxd s = Some (map (map (uP CRRA)) EndOfPrd_dvda')
  /\ PortfolioSolution.EndOfPrddvds_fxd s = Some EndOfPrd_dvds'.
Proof.
  cbn. split; [reflexivity|]. split; [|split; [|split; reflexivity]].
  - unfold save_eop_dvda_adj, cNrmAdj_now0, np_insert0.
    rewrite length_map. cbn [length]. now rewrite length_cNrmAdj_now.
  - unfold save_share_adj, ShareAdj_now0, np_insert0. f_equal.
    rewrite <- length_ShareAdj_now.
    set (v := ShareAdj_now'). clearbody v.
    destruct DiscreteShareBool; reflexivity.
Qed.

Lemma length_mNrmAdj_comb :
  aNrmGrid' <> [] ->
  length (mNrmAdj_comb solution_next ShockDstn IncShkDstn RiskyDstn LivPrb DiscFac CRRA
            Rfree PermGroFac aXtraGrid ShareGrid AdjustPrb DiscreteShareBool IndepDstnBool)
  = (2 * length aNrmGrid')%nat.
Proof.
  intros HN. unfold mNrmAdj_comb, np_append, np_insert0, mNrmAdj_plus.
  rewrite length_app. cbn [length].
  rewrite length_interleave by now rewrite length_map.
  unfold mNrmAdj_mid, drop1, init.
  rewrite length_zipWith, length_removelast_vec, !length_tl, length_mNrmAdj_now.
  destruct aNrmGrid' as [|a l]; [congruence|]. simpl. lia.
Qed.

Lemma ShareAdj_now_weak_range :
  forallb (in_range_b 0 1) ShareGrid = true ->
  (if DiscreteShareBool then 1 <= length ShareGrid else 2 <= length ShareGrid)%nat ->
  (DiscreteShareBool = false -> forallb all_finite EndOfPrd_dvds' = true) ->
  Forall (fun y => is_finite y = true -> in_range 0 1 y) ShareAdj_now'.
Proof.
  intros HS HC HF. unfold ShareAdj_now, fix_bottom_share.
  assert (O : Forall (fun y => is_finite y = true -> in_range 0 1 y) ShareAdj_opt').
  { unfold ShareAdj_opt. destruct DiscreteShareBool.
    - eapply Forall_impl; [|apply ShareAdj_discrete_range; auto using rows_EndOfPrd_v].
      intros y Hy _. exact Hy.
    - apply ShareAdj_continuous_weak_range; auto using rows_EndOfPrd_dvds. }
  destruct (negb (BoroCnstNat_iszero IncShkDstn)); [|exact O].
  apply Forall_set0; [|exact O]. intros _. simpl. lra.
Qed.

Lemma ShareFuncAdj_now_discrete :
  DiscreteShareBool = true ->
  ShareFuncAdj_now'
  = LinearInterp
      (mNrmAdj_comb solution_next ShockDstn IncShkDstn RiskyDstn LivPrb DiscFac CRRA
         Rfree PermGroFac aXtraGrid ShareGrid AdjustPrb DiscreteShareBool IndepDstnBool)
      (Share_comb solution_next ShockDstn IncShkDstn RiskyDstn LivPrb DiscFac CRRA
         Rfree PermGroFac aXtraGrid ShareGrid AdjustPrb DiscreteShareBool IndepDstnBool)
      None None.
Proof. unfold ShareFuncAdj_now. destruct DiscreteShareBool; [reflexivity | discriminate]. Qed.

Lemma ShareFuncAdj_now_continuous :
  DiscreteShareBool = false ->
  ShareFuncAdj_now'
  = LinearInterp mNrmAdj_now'
      (ShareAdj_now0 solution_next ShockDstn IncShkDstn RiskyDstn LivPrb DiscFac CRRA
         Rfree PermGroFac aXtraGrid ShareGrid AdjustPrb ShareLimit DiscreteShareBool
         IndepDstnBool)
      (Some ShareLimit) (Some (Fin 0)).
Proof. unfold ShareFuncAdj_now. destruct DiscreteShareBool; [discriminate | reflexivity]. Qed.

(** The share values at the nodes of [ShareFuncAdj], where they are
    numbers, are between 0 and 1. *)
Lemma ShareFuncAdj_nodes_weak_range :
  forallb (in_range_b 0 1) ShareGrid = true ->
  in_range_b 0 1 ShareLimit = true ->
  (if DiscreteShareBool then 1 <= length ShareGrid else 2 <= length ShareGrid)%nat ->
  (DiscreteShareBool = false -> forallb all_finite EndOfPrd_dvds' = true) ->
  Forall (fun y => is_finite y = true -> in_range 0 1 y) (y_nodes ShareFuncAdj_now').
Proof.
  intros HG HLim HC HF.
  pose proof (ShareAdj_now_weak_range HG HC HF) as W.
  destruct (Bool.bool_dec DiscreteShareBool true) as [D|D].
  - rewrite (ShareFuncAdj_now_discrete D). cbn [y_nodes]. unfold Share_comb.
    now apply Forall_interleave.
  - apply not_true_is_false in D.
    rewrite (ShareFuncAdj_now_continuous D). cbn [y_nodes].
    unfold ShareAdj_now0, np_insert0.
    constructor; [|exact W]. intros _. unfold Share_lower_bound.
    destruct (BoroCnstNat_iszero IncShkDstn).
    + now apply in_range_b_spec.
    + simpl. lra.
Qed.

(** In discrete mode the last two share nodes are the same entry of
    [ShareAdj_now], written twice. *)
Lemma Share_comb_flat_top :
  aNrmGrid' <> [] ->
  y_below_top
    (mNrmAdj_comb solution_next ShockDstn IncShkDstn RiskyDstn LivPrb DiscFac CRRA
       Rfree PermGroFac aXtraGrid ShareGrid AdjustPrb DiscreteShareBool IndepDstnBool)
    (Share_comb solution_next ShockDstn IncShkDstn RiskyDstn LivPrb DiscFac CRRA
       Rfree PermGroFac aXtraGrid ShareGrid AdjustPrb DiscreteShareBool IndepDstnBool)
  = y_top
      (mNrmAdj_comb solution_next ShockDstn IncShkDstn RiskyDstn LivPrb DiscFac CRRA
         Rfree PermGroFac aXtraGrid ShareGrid AdjustPrb DiscreteShareBool IndepDstnBool)
      (Share_comb solution_next ShockDstn IncShkDstn RiskyDstn LivPrb DiscFac CRRA
         Rfree PermGroFac aXtraGrid ShareGrid AdjustPrb DiscreteShareBool IndepDstnBool).
Proof.
  intros HN. unfold y_below_top, y_top. rewrite (length_mNrmAdj_comb HN).
  unfold Share_comb.
  assert (A1 : (1 <= length aNrmGrid')%nat)
    by (destruct aNrmGrid'; [congruence | simpl; lia]).
  replace (2 * length aNrmGrid' - 2)%nat with (2 * (length aNrmGrid' - 1))%nat by lia.
  replace (2 * length aNrmGrid' - 1)%nat with (S (2 * (length aNrmGrid' - 1)))%nat by lia.
  destruct (nth_interleave_same ShareAdj_now' (length aNrmGrid' - 1) NonFinite) as [E1 E2].
  now rewrite E1, E2.
Qed.

(** C3, as the code has it: for a solution the solver returns, with the
    share grid in [[0, 1]] and [ShareLimit] in [[0, 1]], if (in continuous
    mode) the marginal values of share are finite, then wherever
    [ShareFuncAdj(m)] is a number (not [nan]) at [m >= 0] it is between 0
    and 1:
    - for [m] up to the last endogenous gridpoint, in both modes;
    - beyond it in discrete mode (the last two share nodes are equal, and
      the last segment is continued);
    - beyond it in continuous mode, when the last two share nodes are equal
      (the last segment is continued, there being no decay toward
      [ShareLimit]), or when the share function decays toward [ShareLimit]
      and the share of the gap left at [m] is between 0 and 1 (as it is for a
      decay rate that is not negative, lemma [decay_factor_unit]). *)
Theorem C3_share_function :
  forall s, solve' vFuncBool = Return s ->
  forallb (in_range_b 0 1) ShareGrid = true ->
  in_range_b 0 1 ShareLimit = true ->
  (DiscreteShareBool = false -> forallb all_finite EndOfPrd_dvds' = true) ->
  let ShareFunc := PortfolioSolution.ShareFuncAdj s in
  let xs := x_nodes ShareFunc in
  let ys := y_nodes ShareFunc in
  forall m q : Q,
    (0 <= m)%Q ->
    call1 ShareFunc (Fin m) = Fin q ->
    (Fin m <=? x_top xs) = true
    \/ DiscreteShareBool = true
    \/ (y_below_top xs ys ==? y_top xs ys) = true
    \/ (decay_extrap xs ys (Some ShareLimit) (Some (Fin 0)) = true
        /\ in_range 0 1 (decay_factor xs ys ShareLimit (Fin 0) (Fin m))) ->
    (0 <= q <= 1)%Q.
Proof.
  intros s HS HG HLim HF ShareFunc xs ys m q Hm HC HT.
  destruct (solve_Return _ _ HS) as [Es HR]. subst s.
  destruct (raised_None_grids _ HR) as [HN HCnt].
  pose proof (ShareFuncAdj_nodes_weak_range HG HLim HCnt HF) as W.
  subst ShareFunc xs ys.
  change (PortfolioSolution.ShareFuncAdj (solution_now' vFuncBool))
    with ShareFuncAdj_now' in *.
  assert (A1 : (1 <= length aNrmGrid')%nat)
    by (destruct aNrmGrid'; [congruence | simpl; lia]).
  destruct (Bool.bool_dec DiscreteShareBool true) as [D|D].
  - (* discrete mode: no limiting line, a flat last segment *)
    pose proof (Share_comb_flat_top HN) as FLAT.
    rewrite (ShareFuncAdj_now_discrete D) in *. cbn [x_nodes y_nodes] in *.
    unfold call1 in HC. cbn [call] in HC.
    match type of HC with
    | eval_LinearInterp ?xs ?ys _ _ _ _ = _ =>
        assert (X0 : nth 0 xs NonFinite = Fin 0) by reflexivity;
        assert (L2 : (2 <= length xs)%nat) by (rewrite length_mNrmAdj_comb by exact HN; lia)
    end.
    destruct (eval_LinearInterp_cases _ _ _ _ m q 0 _ X0 Hm L2 HC)
      as [[DE _]
         |[[k [q0 [q1 [c0 [c1 [X [X1 [Y [Y1 [M0 [M1 [Q01 [_ EQ]]]]]]]]]]]]]
          |[qb [qt [cb [ct [Xb [Xt [Yb [Yt [NZ [TM [_ EQ]]]]]]]]]]]]].
    + discriminate DE.
    + subst q. apply segment_in_range; auto; eapply weak_range_nth; eauto.
    + rewrite FLAT, Yt in Yb. inversion Yb; subst cb.
      pose proof (weak_range_nth 0 1 _ _ ct W Yt) as R.
      subst q. lra.
  - (* continuous mode *)
    apply not_true_is_false in D.
    rewrite (ShareFuncAdj_now_continuous D) in *. cbn [x_nodes y_nodes] in *.
    unfold call1 in HC. cbn [call] in HC.
    destruct ShareLimit as [L|] eqn:EL; [|discriminate].
    apply in_range_b_spec in HLim. cbn [in_range] in HLim.
    match type of HC with
    | eval_LinearInterp ?xs ?ys _ _ _ _ = _ =>
        set (xs' := xs) in *; set (ys' := ys) in *;
        assert (X0 : nth 0 xs' NonFinite = Fin 0) by reflexivity;
        assert (L2 : (2 <= length xs')%nat)
          by (unfold xs'; rewrite length_mNrmAdj_now; lia)
    end.
    destruct (decay_extrap xs' ys' (Some (Fin L)) (Some (Fin 0)) && (x_top xs' <? Fin m))
      eqn:ED.
    + (* decay toward the limit *)
      unfold eval_LinearInterp in HC. rewrite ED in HC.
      apply andb_true_iff in ED. destruct ED as [E1 E2].
      unfold decay_value, decay_extrap_A, level_diff in HC.
      destruct (decay_factor xs' ys' (Fin L) (Fin 0) (Fin m)) as [e|] eqn:EF;
        [|destruct (Fin L + Fin 0 * x_top xs' - y_top xs' ys'); discriminate].
      destruct (x_top xs') as [t|] eqn:ET; [|discriminate].
      destruct (y_top xs' ys') as [ct|] eqn:EY; [|discriminate].
      pose proof (weak_range_nth 0 1 _ _ ct W EY) as R.
      cbn [fadd fsub fmul lift2] in HC. inversion HC as [EQ].
      destruct HT as [HT|[HT|[HT|[_ HT]]]].
      * exfalso. exact (fleb_fltb_excl _ _ HT E2).
      * congruence.
      * exfalso.
        unfold decay_factor, decay_extrap_B, slope_diff in EF.
        destruct (slope_at_top xs' ys') as [sigma|] eqn:ES; [|discriminate].
        assert (ND := flat_top_no_decay xs' ys' (Fin L) sigma).
        rewrite EY in ND. specialize (ND HT ES). congruence.
      * cbn [in_range] in HT.
        assert (EQ' : (L + 0 * m - (L + 0 * t - ct) * e == L - (L - ct) * e)%Q) by ring.
        rewrite EQ'. now apply decay_in_range.
    + (* between nodes, or on the last segment continued *)
      assert (HC' : eval_LinearInterp xs' ys' (Some (Fin L)) (Some (Fin 0)) (Fin m)
                      (extern_call (LinearInterp xs' ys' (Some (Fin L)) (Some (Fin 0)))
                         [Fin m]) = Fin q) by exact HC.
      destruct (eval_LinearInterp_cases _ _ _ _ m q 0 _ X0 Hm L2 HC')
        as [[DE [DT _]]
           |[[k [q0 [q1 [c0 [c1 [X [X1 [Y [Y1 [M0 [M1 [Q01 [_ EQ]]]]]]]]]]]]]
            |[qb [qt [cb [ct [Xb [Xt [Yb [Yt [NZ [TM [_ EQ]]]]]]]]]]]]].
      * rewrite DE, DT in ED. discriminate.
      * subst q. apply segment_in_range; auto; eapply weak_range_nth; eauto.
      * assert (TT : (x_top xs' <? Fin m) = true).
        { rewrite Xt. cbn [fltb]. apply negb_true_iff.
          destruct (Qle_bool m qt) eqn:EE; [|reflexivity].
          apply Qle_bool_iff in EE. lra. }
        destruct HT as [HT|[HT|[HT|[HT _]]]].
        -- exfalso. exact (fleb_fltb_excl _ _ HT TT).
        -- congruence.
        -- rewrite Yb, Yt in HT. cbn [feqb] in HT. apply Qeq_bool_iff in HT.
           pose proof (weak_range_nth 0 1 _ _ ct W Yt) as R.
           subst q. rewrite HT.
           assert (EQ' : ((1 - (m - qb) / (qt - qb)) * ct + (m - qb) / (qt - qb) * ct
                          == ct)%Q) by (field; exact NZ).
           rewrite EQ'. exact R.
        -- rewrite HT, TT in ED. discriminate.
Qed.

(** *** The two ways of taking end-of-period expectations *)




Section Independence.
Hypothesis Rfree_finite : is_finite Rfree = true.
Hypothesis ShareGrid_finite : all_finite ShareGrid = true.
Hypothesis aXtraGrid_finite : all_finite aXtraGrid = true.
Hypothesis RiskyDstn_finite :
  forallb (fun r => is_finite (fst r) && is_finite (snd r)) RiskyDstn = true.

Local Abbreviation Joint := (product_dstn IncShkDstn RiskyDstn).









End Independence.

(** *** Shapes of the interpolants the solver returns *)

Lemma length_col : forall j (M : mat), length (col j M) = length M.
Proof. intros. unfold col. apply length_map. Qed.

Lemma forallb_map_seq : forall (g : nat -> Func) n,
  (forall j, well_shaped (g j) = true) ->
  forallb well_shaped (map g (seq 0 n)) = true.
Proof.
  intros g n H. apply forallb_forall. intros f Hf.
  apply in_map_iff in Hf. destruct Hf as [j [<- _]]. apply H.
Qed.

Lemma length_mat_zipWith_xy : forall (g : float -> float -> float) (M N : mat),
  length M = length N -> length (mat_zipWith g M N) = length M.
Proof.
  intros g M N H. unfold mat_zipWith. rewrite length_zipWith.
  unfold mat in *. rewrite <- H. apply Nat.min_id.
Qed.

Lemma length_meshgrid_xy_fst : forall xs ys, length (fst (meshgrid_xy xs ys)) = length ys.
Proof. intros. cbn [fst meshgrid_xy]. apply length_map. Qed.
Lemma length_meshgrid_xy_snd : forall xs ys, length (snd (meshgrid_xy xs ys)) = length ys.
Proof. intros. cbn [snd meshgrid_xy]. apply length_map. Qed.

Lemma length_vNvrs_temp2 :
  length (vNvrs_temp2 solution_next ShockDstn IncShkDstn RiskyDstn LivPrb DiscFac CRRA
            Rfree PermGroFac aXtraGrid ShareGrid AdjustPrb IndepDstnBool)
  = length ShareGrid.
Proof.
  unfold vNvrs_temp2, v_temp2, aNrm_temp2, cNrm_temp2, mNrm_temp2, Share_temp2.
  repeat (rewrite ?length_map, ?length_mat_zipWith_xy, ?length_meshgrid_xy_fst,
            ?length_meshgrid_xy_snd); reflexivity.
Qed.

Lemma length_vNvrsP_temp2 :
  length (vNvrsP_temp2 solution_next ShockDstn IncShkDstn RiskyDstn LivPrb DiscFac CRRA
            Rfree PermGroFac aXtraGrid ShareGrid AdjustPrb IndepDstnBool)
  = length ShareGrid.
Proof.
  unfold vNvrsP_temp2, v_temp2, aNrm_temp2, cNrm_temp2, mNrm_temp2, Share_temp2.
  repeat (rewrite ?length_map, ?length_mat_zipWith_xy, ?length_meshgrid_xy_fst,
            ?length_meshgrid_xy_snd); reflexivity.
Qed.

(** X3: Every function object of a returned solution has node arrays that fit
    together: the abscissas and ordinates of each piecewise-linear
    interpolant have the same length, each cubic interpolant has as many
    values and slopes as abscissas, and each interpolant over the share has
    one member function per share gridpoint. *)
Theorem returned_functions_are_well_shaped :
  forall s, solve' vFuncBool = Return s ->
  well_shaped (PortfolioSolution.cFuncAdj s) = true
  /\ well_shaped (PortfolioSolution.ShareFuncAdj s) = true
  /\ well_shaped (PortfolioSolution.vFuncAdj s) = true
  /\ well_shaped (PortfolioSolution.vPfuncAdj s) = true
  /\ well_shaped (PortfolioSolution.cFuncFxd s) = true
  /\ well_shaped (PortfolioSolution.ShareFuncFxd s) = true
  /\ well_shaped (PortfolioSolution.vFuncFxd s) = true
  /\ well_shaped (PortfolioSolution.dvdmFuncFxd s) = true
  /\ well_shaped (PortfolioSolution.dvdsFuncFxd s) = true.
Proof.
  intros s HS. destruct (solve_Return _ _ HS) as [-> HR].
  destruct (raised_None_grids _ HR) as [HN _].
  assert (CA : well_shaped cFuncAdj_now' = true).
  { unfold cFuncAdj_now. cbn [well_shaped]. apply Nat.eqb_eq.
    rewrite length_mNrmAdj_now. unfold cNrmAdj_now0, np_insert0. cbn [length].
    now rewrite length_cNrmAdj_now. }
  assert (CF : well_shaped
                 (cFuncFxd_now solution_next ShockDstn IncShkDstn RiskyDstn LivPrb DiscFac
                    CRRA Rfree PermGroFac aXtraGrid ShareGrid AdjustPrb IndepDstnBool)
               = true).
  { unfold cFuncFxd_now, cFuncFxd_by_Share. cbn [well_shaped].
    rewrite length_map, length_seq. unfold ShareCount. rewrite Nat.eqb_refl. cbn [andb].
    apply forallb_map_seq. intros j. cbn [well_shaped]. apply Nat.eqb_eq.
    unfold mNrmFxd_temp, cNrmFxd_temp, np_insert0, drop1. cbn [length tl].
    rewrite length_zipWith, length_col, length_EndOfPrd_dvdaNvrs. now rewrite Nat.min_id. }
  cbn [PortfolioSolution.cFuncAdj PortfolioSolution.ShareFuncAdj PortfolioSolution.vFuncAdj
       PortfolioSolution.vPfuncAdj PortfolioSolution.cFuncFxd PortfolioSolution.ShareFuncFxd
       PortfolioSolution.vFuncFxd PortfolioSolution.dvdmFuncFxd
       PortfolioSolution.dvdsFuncFxd solution_now PortfolioSolution.set_hNrm_MPCmin
       PortfolioSolution.__init__ PortfolioSolution.or_NullFunc].
  split; [exact CA|]. split; [|split; [|split; [|split; [|split; [|split; [|split]]]]]].
  - destruct (Bool.bool_dec DiscreteShareBool true) as [D|D].
    + rewrite (ShareFuncAdj_now_discrete D). cbn [well_shaped]. apply Nat.eqb_eq.
      rewrite length_mNrmAdj_comb by exact HN.
      unfold Share_comb. rewrite length_interleave by reflexivity.
      now rewrite length_ShareAdj_now.
    + apply not_true_is_false in D.
      rewrite (ShareFuncAdj_now_continuous D). cbn [well_shaped]. apply Nat.eqb_eq.
      rewrite length_mNrmAdj_now. unfold ShareAdj_now0, np_insert0. cbn [length].
      now rewrite length_ShareAdj_now.
  - unfold vFuncAdj_now. destruct vFuncBool; [|reflexivity].
    unfold vNvrsFuncAdj, np_insert0. cbn [well_shaped length].
    unfold vNvrs_temp, vNvrsP_temp, v_temp, aNrm_temp, Share_temp, cNrm_temp, mNrm_temp.
    repeat rewrite ?length_map, ?length_zipWith, ?Nat.min_id.
    now rewrite Nat.eqb_refl.
  - unfold vPfuncAdj_now. cbn [well_shaped]. exact CA.
  - exact CF.
  - reflexivity.
  - unfold vFuncFxd_now. destruct vFuncBool; [|reflexivity].
    unfold vNvrsFuncFxd, vNvrsFuncFxd_by_Share. cbn [well_shaped].
    rewrite length_map, length_seq. unfold ShareCount. rewrite Nat.eqb_refl. cbn [andb].
    apply forallb_map_seq. intros j. unfold np_insert0. cbn [well_shaped length].
    rewrite !length_col, length_vNvrs_temp2, length_vNvrsP_temp2.
    unfold mNrm_temp2. rewrite length_meshgrid_xy_fst. now rewrite Nat.eqb_refl.
  - unfold dvdmFuncFxd_now. cbn [well_shaped]. exact CF.
  - unfold dvdsFuncFxd_now, dvdsFuncFxd_by_Share. cbn [well_shaped].
    rewrite length_map, length_seq. unfold ShareCount. rewrite Nat.eqb_refl. cbn [andb].
    apply forallb_map_seq. intros j. cbn [well_shaped]. apply Nat.eqb_eq.
    unfold mNrmFxd_temp, cNrmFxd_temp, dvdsFxd_temp, np_insert0, drop1. cbn [length tl].
    rewrite length_zipWith, !length_col, length_EndOfPrd_dvdaNvrs, length_EndOfPrd_dvds.
    now rewrite Nat.min_id.
Qed.

(** *** The value function of the agent who cannot adjust *)

Lemma col0_meshgrid_xy : forall xs ys,
  col 0 (fst (meshgrid_xy xs ys)) = repeat (nth 0 xs NonFinite) (length ys).
Proof.
  intros xs ys. unfold col, meshgrid_xy. cbn [fst]. rewrite map_map.
  induction ys as [|y ys IH]; simpl; [reflexivity|]. now rewrite IH.
Qed.

Lemma increasing_b_repeat : forall (x0 a : float) n,
  (2 <= n)%nat -> increasing_b (x0 :: repeat a n) = false.
Proof.
  intros x0 a n H. destruct n as [|[|n]]; try lia.
  cbn [repeat increasing_b].
  assert (E : (a <? a) = false).
  { destruct a as [q|]; [|reflexivity]. unfold fltb, fleb.
    assert (Q : Qle_bool q q = true) by (apply Qle_bool_iff; lra).
    now rewrite Q. }
  rewrite E. cbn [andb]. apply andb_false_r.
Qed.

(** X4: With the value function requested, the value function of the agent who
    cannot adjust is an interpolant over the share of one cubic interpolant
    per share gridpoint; the abscissas of each of them are 0 followed by one
    copy of the first asset gridpoint [aXtraGrid[0]] per share gridpoint
    ([np.meshgrid] is called with its default indexing there, so the first
    column of its first output repeats [aXtraGrid[0]]): they are not the
    market-resources grid, and with two or more shares they are not
    increasing. *)
Theorem vFuncFxd_abscissas_repeat_first_gridpoint :
  forall s, solve' true = Return s ->
  exists fs,
    PortfolioSolution.vFuncFxd s = ValueFuncCRRA (LinearInterpOnInterp1D fs ShareGrid) CRRA
    /\ length fs = length ShareGrid
    /\ forall f, In f fs ->
         exists f_list dfdx_list,
           f = CubicInterp (Fin 0 :: repeat (nth 0 aXtraGrid NonFinite) (length ShareGrid))
                 f_list dfdx_list
           /\ ((2 <= length ShareGrid)%nat ->
               increasing_b (Fin 0 :: repeat (nth 0 aXtraGrid NonFinite) (length ShareGrid))
               = false).
Proof.
  intros s HS. destruct (solve_Return _ _ HS) as [-> _].
  eexists. split; [reflexivity|]. split.
  - unfold vNvrsFuncFxd_by_Share. now rewrite length_map, length_seq.
  - intros f Hf. unfold vNvrsFuncFxd_by_Share in Hf.
    apply in_map_iff in Hf. destruct Hf as [j [<- _]].
    unfold mNrm_temp2, np_insert0. rewrite col0_meshgrid_xy.
    do 2 eexists. split; [reflexivity|]. apply increasing_b_repeat.
Qed.

(** X5: With the value function requested and more share gridpoints than asset
    gridpoints, the solver cannot finish: once the configuration checks,
    the reductions over the shock distributions, the quotient [1.0 / CRRA]
    and the attribute look-ups have passed, the loop over the shares indexes
    the asset axis of [vNvrs_temp] with a share index and runs out of
    bounds.  On the joint path the asset grid must have two points for the
    run to get that far: on a single point the end-of-period value function
    fails first, when [CubicInterp] is built (line 753). *)
Theorem more_shares_than_assets_raises_IndexError :
  exactly_zero BoroCnstArt ->
  IncShkDstn <> [] -> RiskyDstn <> [] ->
  PortfolioSolution.MPCmin solution_next <> None ->
  PortfolioSolution.hNrm solution_next <> None ->
  (CRRA ==? 0) = false ->
  (IndepDstnBool = false -> (2 <= length aNrmGrid')%nat) ->
  (1 <= length aXtraGrid)%nat ->
  (length aXtraGrid < length ShareGrid)%nat ->
  exists msg, solve' true = Raise (IndexError msg).
Proof.
  intros HB HI HR HM HH HC HJ H1 H2.
  apply BoroCnstArt_nonzero_spec in HB.
  assert (EJ : negb IndepDstnBool && true && negb (ShareCount ShareGrid =? 0)%nat
               && (aNrmCount IncShkDstn aXtraGrid =? 1)%nat = false).
  { destruct IndepDstnBool; [reflexivity|]. specialize (HJ eq_refl).
    unfold aNrmCount. apply andb_false_iff. right. apply Nat.eqb_neq. lia. }
  unfold solve_one_period_ConsPortfolio, raised, config_guards, runtime_guards.
  rewrite HB, HC, EJ. rewrite andb_false_r.
  destruct IncShkDstn as [|i0 it]; [congruence|].
  destruct RiskyDstn as [|r0 rt]; [congruence|].
  destruct (PortfolioSolution.MPCmin solution_next); [|congruence].
  destruct (PortfolioSolution.hNrm solution_next); [|congruence].
  destruct aXtraGrid as [|a0 at']; [simpl in H1; lia|].
  cbn [app first_raised is_empty is_None andb].
  rewrite andb_false_r. cbn [first_raised].
  unfold ShareCount.
  assert (E1 : (if DiscreteShareBool then (length ShareGrid =? 0)%nat
                else (length ShareGrid <=? 1)%nat) = false).
  { destruct DiscreteShareBool; [apply Nat.eqb_neq | apply Nat.leb_gt]; simpl in *; lia. }
  rewrite E1.
  assert (E2 : (length (a0 :: at') <? length ShareGrid)%nat = true)
    by (apply Nat.ltb_lt; exact H2).
  rewrite E2. eexists. reflexivity.
Qed.

(** *** The share function of the discrete mode *)



(** *** The share function below the first endogenous gridpoint *)

(** A piecewise-linear interpolant with finite, increasing abscissas is
    constant on a segment whose two ordinates coincide. *)
Lemma LinearInterp_flat_segment : forall xs ys il sl j (y m : Q),
  increasing_b xs = true -> all_finite ys = true -> length ys = length xs ->
  (S j < length xs)%nat ->
  nth j ys NonFinite = Fin y -> nth (S j) ys NonFinite = Fin y ->
  (nth j xs NonFinite <=? Fin m) = true -> (Fin m <=? nth (S j) xs NonFinite) = true ->
  call1 (LinearInterp xs ys il sl) (Fin m) =f= Fin y.
Proof.
  intros xs ys il sl j y m HI HY HL Hj Y0 Y1 H0 H1.
  assert (X2 : (2 <= length xs)%nat) by lia.
  destruct (all_finite_map_Fin xs (increasing_b_finite xs HI X2)) as [qs EX].
  destruct (all_finite_map_Fin ys HY) as [yq EY].
  subst xs ys. rewrite !length_map in *.
  assert (QI : q_increasing qs) by (now apply increasing_b_map_Fin).
  rewrite (nth_map_lt Fin qs j NonFinite 0%Q) in H0 by lia.
  rewrite (nth_map_lt Fin qs (S j) NonFinite 0%Q) in H1 by lia.
  rewrite (nth_map_lt Fin yq j NonFinite 0%Q) in Y0 by lia.
  rewrite (nth_map_lt Fin yq (S j) NonFinite 0%Q) in Y1 by lia.
  cbn [fleb] in H0, H1. apply Qle_bool_iff in H0. apply Qle_bool_iff in H1.
  inversion Y0 as [Y0']. inversion Y1 as [Y1'].
  assert (HD : (hd 0 qs <= m)%Q).
  { destruct qs as [|q0 qs]; [simpl in X2; lia|]. cbn [hd].
    destruct j as [|j]; [exact H0|].
    pose proof (q_increasing_from_head qs q0 j QI ltac:(simpl in *; lia)) as P.
    cbn [nth] in H0. lra. }
  assert (HT : (m <= last qs 0)%Q).
  { destruct (Nat.eq_dec (S (S j)) (length qs)) as [EL|NL].
    - rewrite <- (nth_last_index qs (S j) EL). exact H1.
    - pose proof (q_increasing_nth_lt_last qs (S j) QI ltac:(lia)). lra. }
  rewrite call1_LinearInterp_pl by (auto; lia).
  cbn [feq].
  destruct (pl_segment_range qs yq j y y m QI ltac:(lia) ltac:(lia)
              ltac:(rewrite Y0'; split; lra) ltac:(rewrite Y1'; split; lra) H0 H1)
    as [P1 P2].
  rewrite Y0'. lra.
Qed.

Lemma nth_0_set0 : forall (x : float) (v : vec), v <> [] -> nth 0 (set0 x v) NonFinite = x.
Proof. intros x [|y v] H; [congruence | reflexivity]. Qed.

(** X8: When the smallest transitory income shock is not zero, an agent whose
    market resources do not exceed the second node of the share function
    (the first endogenous gridpoint in continuous mode, the first midpoint
    in discrete mode) puts everything into the risky asset: the share
    function is 1 there, in both modes.  Stated for a returned solution
    whose share nodes are finite and whose abscissas are increasing. *)
Theorem share_is_one_below_the_second_node :
  forall s, solve' vFuncBool = Return s ->
  BoroCnstNat_iszero IncShkDstn = false ->
  all_finite (y_nodes (PortfolioSolution.ShareFuncAdj s)) = true ->
  increasing_b (x_nodes (PortfolioSolution.ShareFuncAdj s)) = true ->
  forall m : Q,
    (0 <= m)%Q ->
    (Fin m <=? nth 1 (x_nodes (PortfolioSolution.ShareFuncAdj s)) NonFinite) = true ->
    call1 (PortfolioSolution.ShareFuncAdj s) (Fin m) =f= Fin 1.
Proof.
  intros s HS HZ HY HI m H0 H1.
  destruct (solve_Return _ _ HS) as [Es HR]. subst s.
  destruct (raised_None_grids _ HR) as [HN _].
  change (PortfolioSolution.ShareFuncAdj (solution_now' vFuncBool))
    with ShareFuncAdj_now' in *.
  assert (A1 : (1 <= length aNrmGrid')%nat)
    by (destruct aNrmGrid'; [congruence | simpl; lia]).
  assert (B : nth 0 ShareAdj_now' NonFinite = Fin 1).
  { unfold ShareAdj_now, fix_bottom_share. rewrite HZ. cbn [negb].
    apply nth_0_set0. intros C.
    pose proof length_ShareAdj_opt as L.
    rewrite C in L. simpl in L. lia. }
  destruct (Bool.bool_dec DiscreteShareBool true) as [D|D].
  - rewrite (ShareFuncAdj_now_discrete D) in *. cbn [x_nodes y_nodes] in *.
    destruct (nth_interleave_self ShareAdj_now' 0 NonFinite
                ltac:(rewrite length_ShareAdj_now; lia)) as [Y0 Y1].
    apply (LinearInterp_flat_segment _ _ None None 0 1 m);
      [exact HI | exact HY | | | | | | exact H1].
    + unfold Share_comb. rewrite length_interleave by reflexivity.
      rewrite length_mNrmAdj_comb by exact HN. now rewrite length_ShareAdj_now.
    + rewrite length_mNrmAdj_comb by exact HN. lia.
    + unfold Share_comb. change (2 * 0)%nat with 0%nat in Y0. rewrite Y0. exact B.
    + unfold Share_comb. change (S (2 * 0)) with 1%nat in Y1. rewrite Y1. exact B.
    + unfold mNrmAdj_comb, np_append, np_insert0. cbn [app nth fleb].
      now apply Qle_bool_iff.
  - apply not_true_is_false in D.
    rewrite (ShareFuncAdj_now_continuous D) in *. cbn [x_nodes y_nodes] in *.
    apply (LinearInterp_flat_segment _ _ (Some ShareLimit) (Some (Fin 0)) 0 1 m);
      [exact HI | exact HY | | | | | | exact H1].
    + rewrite length_mNrmAdj_now. unfold ShareAdj_now0, np_insert0. cbn [length].
      now rewrite length_ShareAdj_now.
    + rewrite length_mNrmAdj_now. lia.
    + unfold ShareAdj_now0, np_insert0, Share_lower_bound. rewrite HZ. reflexivity.
    + unfold ShareAdj_now0, np_insert0. cbn [nth]. exact B.
    + unfold mNrmAdj_now, np_insert0. cbn [nth fleb]. now apply Qle_bool_iff.
Qed.

End PeriodClaims.

(* ================================================================== *)
(** ** What the period solver reads *)
(* ================================================================== *)

Lemma expected_ext_eq {A} (f g : A -> float) (d : Distribution A) :
  (forall s, f s = g s) -> expected f d = expected g d.
Proof.
  intros H. unfold expected. induction d as [|[p a] d IH]; simpl; [reflexivity|].
  now rewrite IH, H.
Qed.

Lemma expected_on_ext {A} (f g : A -> float -> float -> float) d X Z :
  (forall s x z, f s x z = g s x z) -> expected_on f d X Z = expected_on g d X Z.
Proof.
  intros H. unfold expected_on, mat_zipWith, zipWith.
  apply map_ext. intros [xs zs]. cbn [fst snd].
  apply map_ext. intros [x z]. cbn [fst snd].
  apply expected_ext_eq. intros s. apply H.
Qed.

Section ShockDstnUnused.
Context {lib : NumLib}.
Variables
  (solution_next : PortfolioSolution.t)
  (IncShkDstn : Distribution IncShk)
  (RiskyDstn : Distribution float)
  (LivPrb DiscFac CRRA Rfree PermGroFac : float)
  (BoroCnstArt : option float)
  (aXtraGrid ShareGrid : vec)
  (AdjustPrb ShareLimit : float)
  (vFuncBool DiscreteShareBool : bool).

(** X1: With [IndepDstnBool] set, the joint distribution [ShockDstn] is read for
    one thing only, the human wealth [hNrm]: two runs that differ in
    [ShockDstn] alone return solutions that agree on every other attribute,
    and each [hNrm] is the expectation of [calc_hNrm] over that run's
    [ShockDstn], divided by [R_adj]. *)
Theorem ShockDstn_read_only_for_hNrm : forall ShockDstn1 ShockDstn2 s1,
  solve_one_period_ConsPortfolio solution_next ShockDstn1 IncShkDstn RiskyDstn
    LivPrb DiscFac CRRA Rfree PermGroFac BoroCnstArt aXtraGrid ShareGrid
    AdjustPrb ShareLimit vFuncBool DiscreteShareBool true = Return s1 ->
  exists s2,
    solve_one_period_ConsPortfolio solution_next ShockDstn2 IncShkDstn RiskyDstn
      LivPrb DiscFac CRRA Rfree PermGroFac BoroCnstArt aXtraGrid ShareGrid
      AdjustPrb ShareLimit vFuncBool DiscreteShareBool true = Return s2
    /\ same_but_hNrm s1 s2
    /\ PortfolioSolution.hNrm s1
       = Some (expected (calc_hNrm solution_next CRRA Rfree PermGroFac ShareLimit) ShockDstn1
               / R_adj RiskyDstn CRRA Rfree ShareLimit)
    /\ PortfolioSolution.hNrm s2
       = Some (expected (calc_hNrm solution_next CRRA Rfree PermGroFac ShareLimit) ShockDstn2
               / R_adj RiskyDstn CRRA Rfree ShareLimit).
Proof.
  intros S1 S2 s1 H. unfold solve_one_period_ConsPortfolio in *.
  destruct (raised solution_next IncShkDstn RiskyDstn CRRA BoroCnstArt aXtraGrid ShareGrid
              vFuncBool DiscreteShareBool true) as [e|]; [discriminate|].
  inversion H; subst s1; clear H.
  eexists; split; [reflexivity|].
  split; [|split; reflexivity].
  unfold same_but_hNrm. repeat split.
Qed.

End ShockDstnUnused.

Section ReadsOnly.
Context {lib : NumLib}.
Variables
  (sol1 sol2 : PortfolioSolution.t)
  (ShockDstn : Distribution JointShk)
  (IncShkDstn : Distribution IncShk)
  (RiskyDstn : Distribution float)
  (LivPrb DiscFac CRRA Rfree PermGroFac : float)
  (BoroCnstArt : option float)
  (aXtraGrid ShareGrid : vec)
  (AdjustPrb ShareLimit : float)
  (IndepDstnBool : bool).

Hypothesis same_vPfuncAdj :
  PortfolioSolution.vPfuncAdj sol1 = PortfolioSolution.vPfuncAdj sol2.
Hypothesis same_hNrm : PortfolioSolution.hNrm sol1 = PortfolioSolution.hNrm sol2.
Hypothesis same_MPCmin : PortfolioSolution.MPCmin sol1 = PortfolioSolution.MPCmin sol2.
Hypothesis same_Fxd :
  (AdjustPrb <? 1) = true ->
  PortfolioSolution.dvdmFuncFxd sol1 = PortfolioSolution.dvdmFuncFxd sol2
  /\ PortfolioSolution.dvdsFuncFxd sol1 = PortfolioSolution.dvdsFuncFxd sol2.

Lemma same_calc_dvdm_next : forall S b z,
  calc_dvdm_next sol1 CRRA PermGroFac AdjustPrb S b z
  = calc_dvdm_next sol2 CRRA PermGroFac AdjustPrb S b z.
Proof.
  intros. unfold calc_dvdm_next, vPfuncAdj_next, dvdmFuncFxd_next.
  rewrite same_vPfuncAdj.
  destruct (AdjustPrb <? 1) eqn:E; [|reflexivity].
  destruct (same_Fxd eq_refl) as [-> _]. reflexivity.
Qed.

Lemma same_calc_dvds_next : forall S b z,
  calc_dvds_next sol1 CRRA PermGroFac AdjustPrb S b z
  = calc_dvds_next sol2 CRRA PermGroFac AdjustPrb S b z.
Proof.
  intros. unfold calc_dvds_next, dvdsFuncFxd_next.
  destruct (AdjustPrb <? 1) eqn:E; [|reflexivity].
  destruct (same_Fxd eq_refl) as [_ ->]. reflexivity.
Qed.

Lemma same_calc_EndOfPrd_dvdx : forall S a z,
  calc_EndOfPrd_dvdx sol1 CRRA Rfree PermGroFac AdjustPrb S a z
  = calc_EndOfPrd_dvdx sol2 CRRA Rfree PermGroFac AdjustPrb S a z.
Proof.
  intros. unfold calc_EndOfPrd_dvdx, vPfuncAdj_next, dvdmFuncFxd_next, dvdsFuncFxd_next.
  rewrite same_vPfuncAdj.
  destruct (AdjustPrb <? 1) eqn:E; [|reflexivity].
  destruct (same_Fxd eq_refl) as [-> ->]. reflexivity.
Qed.

Lemma same_dvdb_intermed :
  dvdb_intermed sol1 IncShkDstn RiskyDstn CRRA PermGroFac aXtraGrid ShareGrid AdjustPrb
  = dvdb_intermed sol2 IncShkDstn RiskyDstn CRRA PermGroFac aXtraGrid ShareGrid AdjustPrb.
Proof. apply expected_on_ext, same_calc_dvdm_next. Qed.

Lemma same_dvds_intermed :
  dvds_intermed sol1 IncShkDstn RiskyDstn CRRA PermGroFac aXtraGrid ShareGrid AdjustPrb
  = dvds_intermed sol2 IncShkDstn RiskyDstn CRRA PermGroFac aXtraGrid ShareGrid AdjustPrb.
Proof. apply expected_on_ext, same_calc_dvds_next. Qed.

Lemma same_EndOfPrd_dvda_joint :
  EndOfPrd_dvda_joint sol1 ShockDstn IncShkDstn LivPrb DiscFac CRRA Rfree PermGroFac
    aXtraGrid ShareGrid AdjustPrb
  = EndOfPrd_dvda_joint sol2 ShockDstn IncShkDstn LivPrb DiscFac CRRA Rfree PermGroFac
      aXtraGrid ShareGrid AdjustPrb.
Proof.
  unfold EndOfPrd_dvda_joint. f_equal. apply expected_on_ext.
  intros. now rewrite same_calc_EndOfPrd_dvdx.
Qed.

Lemma same_EndOfPrd_dvds_joint :
  EndOfPrd_dvds_joint sol1 ShockDstn IncShkDstn LivPrb DiscFac CRRA Rfree PermGroFac
    aXtraGrid ShareGrid AdjustPrb
  = EndOfPrd_dvds_joint sol2 ShockDstn IncShkDstn LivPrb DiscFac CRRA Rfree PermGroFac
      aXtraGrid ShareGrid AdjustPrb.
Proof.
  unfold EndOfPrd_dvds_joint. f_equal. apply expected_on_ext.
  intros. now rewrite same_calc_EndOfPrd_dvdx.
Qed.

Lemma same_MPCminNow :
  MPCminNow sol1 RiskyDstn LivPrb DiscFac CRRA Rfree ShareLimit
  = MPCminNow sol2 RiskyDstn LivPrb DiscFac CRRA Rfree ShareLimit.
Proof. unfold MPCminNow. now rewrite same_MPCmin. Qed.

Lemma same_hNrmNow :
  hNrmNow sol1 ShockDstn RiskyDstn CRRA Rfree PermGroFac ShareLimit
  = hNrmNow sol2 ShockDstn RiskyDstn CRRA Rfree PermGroFac ShareLimit.
Proof.
  unfold hNrmNow. f_equal. apply expected_ext_eq. intros s.
  unfold calc_hNrm. now rewrite same_hNrm.
Qed.

Lemma same_raised : forall vFuncBool DiscreteShareBool IndepDstnBool,
  raised sol1 IncShkDstn RiskyDstn CRRA BoroCnstArt aXtraGrid ShareGrid vFuncBool
    DiscreteShareBool IndepDstnBool
  = raised sol2 IncShkDstn RiskyDstn CRRA BoroCnstArt aXtraGrid ShareGrid vFuncBool
      DiscreteShareBool IndepDstnBool.
Proof.
  intros. unfold raised, runtime_guards. now rewrite same_MPCmin, same_hNrm.
Qed.

Section ValueFunctions.
Hypothesis same_vFuncAdj :
  PortfolioSolution.vFuncAdj sol1 = PortfolioSolution.vFuncAdj sol2.
Hypothesis same_vFuncFxd :
  (AdjustPrb <? 1) = true ->
  PortfolioSolution.vFuncFxd sol1 = PortfolioSolution.vFuncFxd sol2.

Lemma same_calc_v_intermed : forall S b z,
  calc_v_intermed sol1 CRRA PermGroFac AdjustPrb S b z
  = calc_v_intermed sol2 CRRA PermGroFac AdjustPrb S b z.
Proof.
  intros. unfold calc_v_intermed, vFuncAdj_next, vFuncFxd_next.
  rewrite same_vFuncAdj.
  destruct (AdjustPrb <? 1) eqn:E; [|reflexivity].
  now rewrite (same_vFuncFxd eq_refl).
Qed.

Lemma same_calc_EndOfPrd_v_joint : forall S a z,
  calc_EndOfPrd_v_joint sol1 CRRA Rfree PermGroFac AdjustPrb S a z
  = calc_EndOfPrd_v_joint sol2 CRRA Rfree PermGroFac AdjustPrb S a z.
Proof.
  intros. unfold calc_EndOfPrd_v_joint, vFuncAdj_next, vFuncFxd_next.
  rewrite same_vFuncAdj.
  destruct (AdjustPrb <? 1) eqn:E; [|reflexivity].
  now rewrite (same_vFuncFxd eq_refl).
Qed.

Lemma same_v_intermed :
  v_intermed sol1 IncShkDstn RiskyDstn CRRA PermGroFac aXtraGrid ShareGrid AdjustPrb
  = v_intermed sol2 IncShkDstn RiskyDstn CRRA PermGroFac aXtraGrid ShareGrid AdjustPrb.
Proof. apply expected_on_ext, same_calc_v_intermed. Qed.

Lemma same_EndOfPrd_v_joint :
  EndOfPrd_v_joint sol1 ShockDstn IncShkDstn LivPrb DiscFac CRRA Rfree PermGroFac
    aXtraGrid ShareGrid AdjustPrb
  = EndOfPrd_v_joint sol2 ShockDstn IncShkDstn LivPrb DiscFac CRRA Rfree PermGroFac
      aXtraGrid ShareGrid AdjustPrb.
Proof.
  unfold EndOfPrd_v_joint. f_equal. apply expected_on_ext, same_calc_EndOfPrd_v_joint.
Qed.

End ValueFunctions.

End ReadsOnly.

Ltac unfold_solution :=
  repeat progress unfold solution_now, cFuncAdj_now, ShareFuncAdj_now, vFuncAdj_now, vPfuncAdj_now,
    cFuncFxd_now, ShareFuncFxd_now, vFuncFxd_now, dvdmFuncFxd_now, dvdsFuncFxd_now,
    save_a, save_share_adj, save_eop_dvda_adj, save_share_grid, save_eop_dvda_fxd,
    save_eop_dvds_fxd, mNrmAdj_comb, mNrmAdj_plus, mNrmAdj_mid, Share_comb,
    ShareAdj_now0, mNrmAdj_now, cNrmAdj_now0, cNrmAdj_now, ShareAdj_now,
    ShareAdj_opt, cNrmAdj_opt, cFuncFxd_by_Share, dvdsFuncFxd_by_Share, cNrmFxd_temp,
    mNrmFxd_temp, dvdsFxd_temp, vNvrsFuncAdj, vNvrs_temp, vNvrsP_temp, v_temp, cNrm_temp,
    aNrm_temp, Share_temp, vNvrsFuncFxd, vNvrsFuncFxd_by_Share, vNvrs_temp2, vNvrsP_temp2,
    v_temp2, aNrm_temp2, cNrm_temp2, EndOfPrd_vFunc, EndOfPrd_v, EndOfPrd_dvdaNvrs,
    EndOfPrd_dvda, EndOfPrd_dvds, EndOfPrd_vNvrsFunc_indep, EndOfPrd_vNvrsFunc_joint,
    EndOfPrd_vNvrsFunc_by_Share, EndOfPrd_vNvrsP_joint, EndOfPrd_dvda_indep,
    EndOfPrd_dvds_indep, EndOfPrd_v_indep, calc_EndOfPrd_dvda, calc_EndOfPrddvds,
    calc_EndOfPrd_v_indep, dvdbFunc_intermed, dvdbNvrsFunc_intermed, dvdbNvrs_intermed,
    dvdsFunc_intermed, vFunc_intermed, vNvrsFunc_intermed, vNvrs_intermed.

(** X2: The solver reads at most seven attributes of [solution_next]: its
    marginal value function [vPfuncAdj] and its scalars [hNrm] and [MPCmin] always;
    its fixed-share marginal value functions only when the share may stay
    fixed ([AdjustPrb < 1.0]); its value functions only when the value
    function is requested, the fixed-share one only when moreover
    [AdjustPrb < 1.0].  Two next-period solutions that agree on these give
    the same result (solution or exception): the policy functions and the
    stored arrays of [solution_next] are never read. *)
Theorem solver_reads_only_what_it_needs {lib : NumLib} :
  forall (sol1 sol2 : PortfolioSolution.t)
    ShockDstn IncShkDstn RiskyDstn LivPrb DiscFac CRRA Rfree PermGroFac BoroCnstArt
    aXtraGrid ShareGrid AdjustPrb ShareLimit vFuncBool DiscreteShareBool IndepDstnBool,
  PortfolioSolution.vPfuncAdj sol1 = PortfolioSolution.vPfuncAdj sol2 ->
  PortfolioSolution.hNrm sol1 = PortfolioSolution.hNrm sol2 ->
  PortfolioSolution.MPCmin sol1 = PortfolioSolution.MPCmin sol2 ->
  ((AdjustPrb <? 1) = true ->
     PortfolioSolution.dvdmFuncFxd sol1 = PortfolioSolution.dvdmFuncFxd sol2
     /\ PortfolioSolution.dvdsFuncFxd sol1 = PortfolioSolution.dvdsFuncFxd sol2) ->
  (vFuncBool = true ->
     PortfolioSolution.vFuncAdj sol1 = PortfolioSolution.vFuncAdj sol2
     /\ ((AdjustPrb <? 1) = true ->
         PortfolioSolution.vFuncFxd sol1 = PortfolioSolution.vFuncFxd sol2)) ->
  solve_one_period_ConsPortfolio sol1 ShockDstn IncShkDstn RiskyDstn
    LivPrb DiscFac CRRA Rfree PermGroFac BoroCnstArt aXtraGrid ShareGrid
    AdjustPrb ShareLimit vFuncBool DiscreteShareBool IndepDstnBool
  = solve_one_period_ConsPortfolio sol2 ShockDstn IncShkDstn RiskyDstn
      LivPrb DiscFac CRRA Rfree PermGroFac BoroCnstArt aXtraGrid ShareGrid
      AdjustPrb ShareLimit vFuncBool DiscreteShareBool IndepDstnBool.
Proof.
  intros sol1 sol2 ShockDstn IncShkDstn RiskyDstn LivPrb DiscFac CRRA Rfree PermGroFac
    BoroCnstArt aXtraGrid ShareGrid AdjustPrb ShareLimit vFuncBool DiscreteShareBool
    IndepDstnBool HP Hh Hk HF HV.
  unfold solve_one_period_ConsPortfolio.
  rewrite (same_raised sol1 sol2 IncShkDstn RiskyDstn CRRA BoroCnstArt aXtraGrid ShareGrid
             Hh Hk).
  destruct (raised sol2 IncShkDstn RiskyDstn CRRA BoroCnstArt aXtraGrid ShareGrid vFuncBool
              DiscreteShareBool IndepDstnBool) as [e|] eqn:ER; [reflexivity|].
  f_equal.
  pose proof (@same_dvdb_intermed lib sol1 sol2 IncShkDstn RiskyDstn CRRA PermGroFac
                aXtraGrid ShareGrid AdjustPrb HP HF) as E1.
  pose proof (@same_dvds_intermed lib sol1 sol2 IncShkDstn RiskyDstn CRRA PermGroFac
                aXtraGrid ShareGrid AdjustPrb HF) as E2.
  pose proof (@same_EndOfPrd_dvda_joint lib sol1 sol2 ShockDstn IncShkDstn LivPrb DiscFac
                CRRA Rfree PermGroFac aXtraGrid ShareGrid AdjustPrb HP HF) as E3.
  pose proof (@same_EndOfPrd_dvds_joint lib sol1 sol2 ShockDstn IncShkDstn LivPrb DiscFac
                CRRA Rfree PermGroFac aXtraGrid ShareGrid AdjustPrb HP HF) as E4.
  pose proof (@same_MPCminNow lib sol1 sol2 RiskyDstn LivPrb DiscFac CRRA Rfree ShareLimit
                Hk) as E5.
  pose proof (@same_hNrmNow lib sol1 sol2 ShockDstn RiskyDstn CRRA Rfree PermGroFac
                ShareLimit Hh) as E6.
  destruct vFuncBool.
  - destruct (HV eq_refl) as [HA HX].
    pose proof (@same_v_intermed lib sol1 sol2 IncShkDstn RiskyDstn CRRA PermGroFac
                  aXtraGrid ShareGrid AdjustPrb HF HA HX) as E7.
    pose proof (@same_EndOfPrd_v_joint lib sol1 sol2 ShockDstn IncShkDstn LivPrb DiscFac
                  CRRA Rfree PermGroFac aXtraGrid ShareGrid AdjustPrb HF HA HX) as E8.
    unfold_solution.
    rewrite E1, E2, E3, E4, E5, E6, E7, E8. reflexivity.
  - destruct DiscreteShareBool.
    + exfalso. unfold raised, config_guards in ER. cbn [app first_raised andb negb] in ER.
      destruct (BoroCnstArt_nonzero BoroCnstArt); discriminate.
    + unfold_solution.
      rewrite E1, E2, E3, E4, E5, E6. reflexivity.
Qed.

(* ================================================================== *)
(** ** The discrete share choice *)
(* ================================================================== *)

(** X6: In discrete-share mode, at an asset gridpoint whose row of
    end-of-period values is finite, the solver takes the share gridpoint
    with the largest value, the first one among equals, and reads
    consumption off the same column of the inverse-marginal-utility
    array. *)
Theorem discrete_share_choice :
  forall (ShareGrid : vec) (EndOfPrd_v EndOfPrd_dvdaNvrs : mat) (i : nat),
  (i < length EndOfPrd_v)%nat ->
  length EndOfPrd_v = length EndOfPrd_dvdaNvrs ->
  let row := nth i EndOfPrd_v [] in
  row <> [] ->
  all_finite row = true ->
  let k := argmax_float row in
  (k < length row)%nat
  /\ nth i (ShareAdj_discrete ShareGrid EndOfPrd_v) NonFinite = nth k ShareGrid NonFinite
  /\ nth i (cNrmAdj_discrete EndOfPrd_v EndOfPrd_dvdaNvrs) NonFinite
     = nth k (nth i EndOfPrd_dvdaNvrs []) NonFinite
  /\ (forall j, (j < length row)%nat ->
        (nth j row NonFinite <=? nth k row NonFinite) = true)
  /\ (forall j, (j < k)%nat -> (nth j row NonFinite <? nth k row NonFinite) = true).
Proof.
  intros SG V Nvrs i Hi HL row HN HF k.
  assert (K : nth i (opt_idx V) 0%nat = k).
  { unfold opt_idx. now rewrite (nth_map_lt argmax_float V i 0%nat []) by exact Hi. }
  split; [apply argmax_float_lt; exact HN|].
  split.
  { unfold ShareAdj_discrete. rewrite nth_take_at; [now rewrite K|].
    unfold opt_idx. now rewrite length_map. }
  split.
  { unfold cNrmAdj_discrete. unfold mat in *.
    rewrite nth_pick; [now rewrite K | lia | unfold opt_idx; now rewrite length_map]. }
  destruct (all_finite_map_Fin row HF) as [qs E].
  destruct qs as [|q0 qs]; [rewrite E in HN; simpl in HN; congruence|].
  pose proof (argmax_float_max q0 qs) as M. cbv zeta in M.
  subst k. rewrite E. set (k := argmax_float (map Fin (q0 :: qs))) in *.
  destruct M as [M0 [M1 M2]].
  rewrite length_map.
  split.
  - intros j Hj.
    rewrite (nth_map_lt Fin (q0 :: qs) j NonFinite 0%Q) by exact Hj.
    rewrite (nth_map_lt Fin (q0 :: qs) k NonFinite 0%Q) by exact M0.
    cbn [fleb]. apply Qle_bool_iff. now apply M1.
  - intros j Hj.
    rewrite (nth_map_lt Fin (q0 :: qs) j NonFinite 0%Q) by lia.
    rewrite (nth_map_lt Fin (q0 :: qs) k NonFinite 0%Q) by exact M0.
    unfold fltb, fleb. apply negb_true_iff. apply not_true_is_false. intros C.
    apply Qle_bool_iff in C. specialize (M2 j Hj). lra.
Qed.

(* ================================================================== *)
(** ** The scalars [hNrm] and [MPCmin] *)
(* ================================================================== *)

Section Scalars.
Context {lib : NumLib}.
Variables
  (ShockDstn : Distribution JointShk)
  (IncShkDstn : Distribution IncShk)
  (RiskyDstn : Distribution float)
  (LivPrb DiscFac CRRA Rfree PermGroFac : float)
  (BoroCnstArt : option float)
  (aXtraGrid ShareGrid : vec)
  (AdjustPrb ShareLimit : float)
  (vFuncBool DiscreteShareBool IndepDstnBool : bool).

(** X9: The constructor of [PortfolioSolution] does not set [hNrm] and
    [MPCmin]; the callers attach them afterwards.  A solution that comes
    straight from the constructor cannot serve as [solution_next]: once the
    configuration checks and the reductions over the two distributions have
    passed, the solver stops with an [AttributeError] at [MPCmin], which it
    reads first.  (When [CRRA] is 0.0 it stops one line earlier, with a
    [ZeroDivisionError].) *)
Theorem solution_from_constructor_lacks_MPCmin :
  forall cA sA vA vpA cF sF vF dmF dsF aG Sadj Eadj SG Efxd Esfxd Adj,
  exactly_zero BoroCnstArt ->
  (DiscreteShareBool = true -> vFuncBool = true) ->
  IncShkDstn <> [] -> RiskyDstn <> [] ->
  (CRRA ==? 0) = false ->
  solve_one_period_ConsPortfolio
    (PortfolioSolution.__init__ cA sA vA vpA cF sF vF dmF dsF aG Sadj Eadj SG Efxd Esfxd Adj)
    ShockDstn IncShkDstn RiskyDstn LivPrb DiscFac CRRA Rfree PermGroFac BoroCnstArt
    aXtraGrid ShareGrid AdjustPrb ShareLimit vFuncBool DiscreteShareBool IndepDstnBool
  = Raise (AttributeError "'PortfolioSolution' object has no attribute 'MPCmin'").
Proof.
  intros cA sA vA vpA cF sF vF dmF dsF aG Sadj Eadj SG Efxd Esfxd Adj HB HD HI HR HC.
  apply BoroCnstArt_nonzero_spec in HB.
  unfold solve_one_period_ConsPortfolio, raised, config_guards, runtime_guards.
  rewrite HB, HC.
  assert (E : DiscreteShareBool && negb vFuncBool = false).
  { destruct DiscreteShareBool; [|reflexivity]. now rewrite (HD eq_refl). }
  rewrite E.
  destruct IncShkDstn as [|i0 it]; [congruence|].
  destruct RiskyDstn as [|r0 rt]; [congruence|].
  reflexivity.
Qed.

(** Every solution the solver returns carries both scalars, and so does the
    terminal solution: each can serve as [solution_next] of the next
    backward step. *)
Lemma period_solutions_carry_hNrm_and_MPCmin : forall s,
  is_period_solution s ->
  PortfolioSolution.hNrm s <> None /\ PortfolioSolution.MPCmin s <> None.
Proof.
  intros s H. destruct H as [c | ? ? ? ? ? ? ? ? ? ? ? ? ? ? ? ? ? s HS].
  - split; discriminate.
  - unfold solve_one_period_ConsPortfolio in HS.
    destruct (raised _ _ _ _ _ _ _ _ _ _); [discriminate|]. inversion HS.
    split; discriminate.
Qed.

(** X10: The minimal marginal propensity to consume of a returned solution: with
    a finite non-negative patience factor [PatFac] and a finite positive
    [MPCmin] next period, the solution's [MPCmin] is a number between 0 and
    1 (both included). *)
Theorem MPCmin_is_between_0_and_1 : forall solution_next (p k : Q) s,
  PatFac RiskyDstn LivPrb DiscFac CRRA Rfree ShareLimit = Fin p -> (0 <= p)%Q ->
  PortfolioSolution.MPCmin solution_next = Some (Fin k) -> (0 < k)%Q ->
  solve_one_period_ConsPortfolio solution_next
    ShockDstn IncShkDstn RiskyDstn LivPrb DiscFac CRRA Rfree PermGroFac BoroCnstArt
    aXtraGrid ShareGrid AdjustPrb ShareLimit vFuncBool DiscreteShareBool IndepDstnBool
  = Return s ->
  exists q, PortfolioSolution.MPCmin s = Some (Fin q) /\ (0 <= q)%Q /\ (q <= 1)%Q.
Proof.
  intros sn p k s HP Hp HK Hk HS.
  unfold solve_one_period_ConsPortfolio in HS.
  destruct (raised _ _ _ _ _ _ _ _ _ _); [discriminate|]. inversion HS; subst s; clear HS.
  cbn [PortfolioSolution.MPCmin solution_now PortfolioSolution.set_hNrm_MPCmin].
  unfold MPCminNow. rewrite HP, HK. cbn [attr].
  unfold fdiv, fadd, lift2.
  assert (E1 : Qeq_bool k 0 = false).
  { apply not_true_is_false. intros C. apply Qeq_bool_iff in C. lra. }
  rewrite E1.
  assert (D : (0 < 1 + p / k)%Q).
  { assert (0 <= p / k)%Q by (apply Qle_shift_div_l; lra). lra. }
  assert (E2 : Qeq_bool (1 + p / k) 0 = false).
  { apply not_true_is_false. intros C. apply Qeq_bool_iff in C. lra. }
  rewrite E2. eexists. split; [reflexivity|].
  assert (Q1 : (1 / (1 + p / k) == k / (k + p))%Q) by (field; split; lra).
  rewrite Q1. split.
  - apply Qle_shift_div_l; lra.
  - apply Qle_shift_div_r; lra.
Qed.

End Scalars.

(* ================================================================== *)
(** ** The controls of the simulated agents *)
(* ================================================================== *)

Lemma length_scatter {A} : forall (mask : list bool) (new v : list A),
  length (scatter mask new v) = length v.
Proof.
  induction mask as [|b mask IH]; intros new v; [destruct v; reflexivity|].
  destruct v as [|x v]; [destruct b; reflexivity|].
  destruct b; [destruct new as [|n new]|]; cbn [scatter length]; now rewrite IH.
Qed.

Lemma length_select_same {A B} : forall (mask : list bool) (v : list A) (w : list B),
  length v = length w -> length (select mask v) = length (select mask w).
Proof.
  induction mask as [|b mask IH]; intros v w H; [reflexivity|].
  destruct v as [|x v]; destruct w as [|y w]; try (simpl in H; lia).
  - destruct b; reflexivity.
  - destruct b; cbn [select length]; rewrite (IH v w); auto; simpl in H; lia.
Qed.

(** Assigning, at the places of a mask, a function of the entries another
    array has at those places. *)
Lemma nth_scatter_select1 : forall (f : float -> float) mask (m v : vec) i d,
  length m = length mask -> length v = length mask -> (i < length mask)%nat ->
  nth i (scatter mask (map f (select mask m)) v) d
  = if nth i mask false then f (nth i m d) else nth i v d.
Proof.
  intros f. induction mask as [|b mask IH]; intros m v i d Hm Hv Hi; [simpl in Hi; lia|].
  destruct m as [|x m]; [simpl in Hm; lia|]. destruct v as [|y v]; [simpl in Hv; lia|].
  destruct b; cbn [select map scatter]; destruct i as [|i]; cbn [nth]; try reflexivity;
    apply IH; simpl in *; lia.
Qed.

Lemma nth_scatter_select2 : forall (g : float -> float -> float) mask (m s v : vec) i d,
  length m = length mask -> length s = length mask -> length v = length mask ->
  (i < length mask)%nat ->
  nth i (scatter mask (zipWith g (select mask m) (select mask s)) v) d
  = if nth i mask false then g (nth i m d) (nth i s d) else nth i v d.
Proof.
  intros g. induction mask as [|b mask IH]; intros m s v i d Hm Hs Hv Hi;
    [simpl in Hi; lia|].
  destruct m as [|x m]; [simpl in Hm; lia|]. destruct s as [|z s]; [simpl in Hs; lia|].
  destruct v as [|y v]; [simpl in Hv; lia|].
  destruct b; cbn [select scatter]; unfold zipWith in *; cbn [combine map fst snd scatter];
    destruct i as [|i]; cbn [nth]; try reflexivity; apply IH; simpl in *; lia.
Qed.

Lemma length_zipWith_select : forall (g : float -> float -> float) mask (m s w : vec),
  length m = length s -> length m = length w ->
  length (zipWith g (select mask m) (select mask s)) = length (select mask w).
Proof.
  intros g mask m s w H1 H2. rewrite length_zipWith.
  rewrite <- (length_select_same mask m s H1), Nat.min_id.
  now apply length_select_same.
Qed.

Lemma np_logical_and_same_length : forall a b,
  length a = length b -> np_logical_and a b = Return (zipWith andb a b).
Proof. intros a b H. unfold np_logical_and. apply Nat.eqb_eq in H. now rewrite H. Qed.

Lemma bool_index_same_length {A} : forall (v : list A) mask,
  length v = length mask -> bool_index v mask = Return (select mask v).
Proof. intros v mask H. unfold bool_index. apply Nat.eqb_eq in H. now rewrite H. Qed.

Lemma bool_assign_same_length {A} : forall (v : list A) mask new,
  length v = length mask -> length new = length (select mask v) ->
  bool_assign v mask new = Return (scatter mask new v).
Proof.
  intros v mask new H1 H2. unfold bool_assign.
  apply Nat.eqb_eq in H1. apply Nat.eqb_eq in H2. now rewrite H1, H2.
Qed.

Lemma existsb_eqb_seq : forall p k, existsb (Nat.eqb p) (seq 0 k) = (p <? k)%nat.
Proof.
  intros p k. destruct (p <? k)%nat eqn:E.
  - apply Nat.ltb_lt in E. apply existsb_exists. exists p. split.
    + apply in_seq. lia.
    + apply Nat.eqb_refl.
  - apply Nat.ltb_ge in E. apply not_true_is_false. intros C.
    apply existsb_exists in C. destruct C as [q [Hq Eq']].
    apply Nat.eqb_eq in Eq'. subst q. apply in_seq in Hq. lia.
Qed.

Section ControlsFacts.
Context {lib : NumLib}.
Variable self : PortfolioConsumerType.t.

Local Abbreviation n := (PortfolioConsumerType.AgentCount self).
Local Abbreviation period_of i := (nth i (PortfolioConsumerType.t_cycle self) 0%nat).
Local Abbreviation adjusts i := (nth i (PortfolioConsumerType.shocks_Adjust self) false).
Local Abbreviation mNrm_of i := (nth i (PortfolioConsumerType.state_now_mNrm self) NonFinite).

Local Abbreviation cNrm_in_period := (PortfolioConsumerType.cNrm_in_period self).
Local Abbreviation Share_in_period := (PortfolioConsumerType.Share_in_period self).

Hypothesis shapes :
  length (PortfolioConsumerType.t_cycle self) = n
  /\ length (PortfolioConsumerType.shocks_Adjust self) = n
  /\ length (PortfolioConsumerType.state_now_mNrm self) = n.

Lemma get_controls_body_pointwise : forall period sol (c s : vec),
  nth_error (PortfolioConsumerType.solution self) period = Some sol ->
  length c = n -> length s = n ->
  exists c' s',
    PortfolioConsumerType.get_controls_body self period (c, s) = Return (c', s')
    /\ length c' = n /\ length s' = n
    /\ forall i, (i < n)%nat ->
         nth i c' NonFinite
         = (if (period =? period_of i)%nat
            then cNrm_in_period sol i (nth i s NonFinite) else nth i c NonFinite)
         /\ nth i s' NonFinite
            = (if (period =? period_of i)%nat
               then Share_in_period sol i (nth i s NonFinite) else nth i s NonFinite).
Proof.
  intros period sol c s HS Hc Hs. destruct shapes as [Ht [Ha Hm]].
  unfold PortfolioConsumerType.get_controls_body. rewrite HS.
  set (these := map (Nat.eqb period) (PortfolioConsumerType.t_cycle self)).
  assert (Lthese : length these = n) by (unfold these; now rewrite length_map).
  rewrite np_logical_and_same_length by congruence. cbn [bind].
  set (those := zipWith andb these (PortfolioConsumerType.shocks_Adjust self)).
  assert (Lthose : length those = n)
    by (unfold those; rewrite length_zipWith, Lthese, Ha; apply Nat.min_id).
  rewrite bool_index_same_length by congruence. cbn [bind].
  rewrite bool_assign_same_length;
    [|congruence | rewrite length_map; apply length_select_same; congruence].
  cbn [bind].
  rewrite bool_assign_same_length;
    [|congruence | rewrite length_map; apply length_select_same; congruence].
  cbn [bind].
  set (c1 := scatter those _ c). set (s1 := scatter those _ s).
  assert (Lc1 : length c1 = n) by (unfold c1; now rewrite length_scatter).
  assert (Ls1 : length s1 = n) by (unfold s1; now rewrite length_scatter).
  unfold np_logical_not.
  rewrite np_logical_and_same_length by (rewrite length_map; congruence). cbn [bind].
  set (those' := zipWith andb these (map negb (PortfolioConsumerType.shocks_Adjust self))).
  assert (Lthose' : length those' = n)
    by (unfold those'; rewrite length_zipWith, length_map, Lthese, Ha; apply Nat.min_id).
  rewrite bool_index_same_length by congruence. cbn [bind].
  rewrite bool_index_same_length by congruence. cbn [bind].
  rewrite bool_assign_same_length;
    [|congruence | apply length_zipWith_select; congruence].
  cbn [bind].
  rewrite bool_assign_same_length;
    [|congruence | apply length_zipWith_select; congruence].
  cbn [bind].
  do 2 eexists. split; [reflexivity|].
  split; [now rewrite length_scatter|]. split; [now rewrite length_scatter|].
  intros i Hi.
  assert (T1 : nth i those false = (period =? period_of i)%nat && adjusts i).
  { unfold those. rewrite (nth_zipWith andb these _ i false false false) by lia.
    unfold these. now rewrite (nth_map_lt (Nat.eqb period) _ i false 0%nat) by lia. }
  assert (T2 : nth i those' false = (period =? period_of i)%nat && negb (adjusts i)).
  { unfold those'.
    rewrite (nth_zipWith andb these _ i false false false) by (rewrite ?length_map; lia).
    unfold these. rewrite (nth_map_lt (Nat.eqb period) _ i false 0%nat) by lia.
    now rewrite (nth_map_lt negb _ i false false) by lia. }
  assert (C1 : nth i c1 NonFinite
               = if nth i those false
                 then call1 (PortfolioSolution.cFuncAdj sol) (mNrm_of i)
                 else nth i c NonFinite).
  { unfold c1. apply nth_scatter_select1; congruence || lia. }
  assert (S1 : nth i s1 NonFinite
               = if nth i those false
                 then call1 (PortfolioSolution.ShareFuncAdj sol) (mNrm_of i)
                 else nth i s NonFinite).
  { unfold s1. apply nth_scatter_select1; congruence || lia. }
  rewrite !nth_scatter_select2 by (congruence || lia).
  rewrite T2, C1, S1, T1.
  unfold PortfolioConsumerType.cNrm_in_period, PortfolioConsumerType.Share_in_period.
  destruct (period =? period_of i)%nat; destruct (adjusts i); cbn [andb negb]; auto.
Qed.

Lemma get_controls_loop_pointwise : forall ts (c s : vec),
  NoDup ts ->
  (forall p, In p ts -> (p < length (PortfolioConsumerType.solution self))%nat) ->
  length c = n -> length s = n ->
  exists c' s',
    PortfolioConsumerType.get_controls_loop self ts (c, s) = Return (c', s')
    /\ length c' = n /\ length s' = n
    /\ forall i sol, (i < n)%nat ->
         nth_error (PortfolioConsumerType.solution self) (period_of i) = Some sol
         \/ ~ In (period_of i) ts ->
         nth i c' NonFinite
         = (if existsb (Nat.eqb (period_of i)) ts
            then cNrm_in_period sol i (nth i s NonFinite) else nth i c NonFinite)
         /\ nth i s' NonFinite
            = (if existsb (Nat.eqb (period_of i)) ts
               then Share_in_period sol i (nth i s NonFinite) else nth i s NonFinite).
Proof.
  induction ts as [|p ts IH]; intros c s ND HB Hc Hs.
  - exists c, s. cbn [PortfolioConsumerType.get_controls_loop existsb]. auto.
  - inversion ND as [|? ? Hp ND']; subst.
    destruct (nth_error (PortfolioConsumerType.solution self) p) as [solp|] eqn:EP.
    2:{ exfalso. apply nth_error_None in EP. specialize (HB p (or_introl eq_refl)). lia. }
    destruct (get_controls_body_pointwise p solp c s EP Hc Hs)
      as [c1 [s1 [E1 [Lc1 [Ls1 P1]]]]].
    destruct (IH c1 s1 ND' (fun q Hq => HB q (or_intror Hq)) Lc1 Ls1)
      as [c2 [s2 [E2 [Lc2 [Ls2 P2]]]]].
    exists c2, s2. cbn [PortfolioConsumerType.get_controls_loop]. rewrite E1. cbn [bind].
    split; [exact E2|]. split; [exact Lc2|]. split; [exact Ls2|].
    intros i sol Hi Hsol.
    destruct (P1 i Hi) as [Pc Ps].
    cbn [existsb]. rewrite (Nat.eqb_sym (period_of i) p).
    destruct (p =? period_of i)%nat eqn:EQ.
    + apply Nat.eqb_eq in EQ.
      assert (NI : ~ In (period_of i) ts) by (rewrite <- EQ; exact Hp).
      destruct (P2 i sol Hi (or_intror NI)) as [Qc Qs].
      assert (EX : existsb (Nat.eqb (period_of i)) ts = false).
      { apply not_true_is_false. intros C. apply existsb_exists in C.
        destruct C as [q [Hq Eq']]. apply Nat.eqb_eq in Eq'. subst q. contradiction. }
      rewrite EX in Qc, Qs. cbn [orb].
      assert (solp = sol).
      { destruct Hsol as [Hsol|Hsol].
        - rewrite <- EQ in Hsol. congruence.
        - exfalso. apply Hsol. left. exact EQ. }
      subst solp. rewrite Qc, Qs, Pc, Ps. auto.
    + cbn [orb].
      assert (Hsol' : nth_error (PortfolioConsumerType.solution self) (period_of i)
                      = Some sol \/ ~ In (period_of i) ts).
      { destruct Hsol as [Hsol|Hsol]; [left; exact Hsol|].
        right. intros C. apply Hsol. right. exact C. }
      destruct (P2 i sol Hi Hsol') as [Qc Qs].
      rewrite Qc, Qs, Pc, Ps. auto.
Qed.

Lemma get_controls_loop_app : forall ts1 ts2 now,
  PortfolioConsumerType.get_controls_loop self (ts1 ++ ts2) now
  = bind (PortfolioConsumerType.get_controls_loop self ts1 now)
         (PortfolioConsumerType.get_controls_loop self ts2).
Proof.
  induction ts1 as [|p ts1 IH]; intros ts2 now; [reflexivity|].
  cbn [app PortfolioConsumerType.get_controls_loop].
  destruct (PortfolioConsumerType.get_controls_body self p now) as [now'|e];
    cbn [bind]; [apply IH | reflexivity].
Qed.

End ControlsFacts.

Section ControlsTheorems.
Context {lib : NumLib}.

(** X11: [get_controls], agent by agent.  On a well-formed agent type it returns
    two arrays with one entry per agent.  An agent whose period belongs to
    the cycle and who can adjust gets [cFuncAdj] and [ShareFuncAdj] of its
    period at its market resources; one who cannot adjust gets [cFuncFxd]
    and [ShareFuncFxd] at its market resources and at the share [nan]: the
    share array is created full of [nan] within [get_controls], and the
    entry of this agent has not been written when it is read.  An agent
    whose period lies outside the cycle keeps [nan] for both controls. *)
Theorem get_controls_agent_by_agent : forall self,
  PortfolioConsumerType.well_formed self ->
  exists cNrmNow ShareNow,
    PortfolioConsumerType.get_controls self = Return (cNrmNow, ShareNow)
    /\ length cNrmNow = PortfolioConsumerType.AgentCount self
    /\ length ShareNow = PortfolioConsumerType.AgentCount self
    /\ forall i, (i < PortfolioConsumerType.AgentCount self)%nat ->
         let period := nth i (PortfolioConsumerType.t_cycle self) 0%nat in
         (forall sol,
            (period < PortfolioConsumerType.T_cycle self)%nat ->
            nth_error (PortfolioConsumerType.solution self) period = Some sol ->
            nth i cNrmNow NonFinite
            = PortfolioConsumerType.cNrm_in_period self sol i NonFinite
            /\ nth i ShareNow NonFinite
               = PortfolioConsumerType.Share_in_period self sol i NonFinite)
         /\ ((PortfolioConsumerType.T_cycle self <= period)%nat ->
             nth i cNrmNow NonFinite = NonFinite /\ nth i ShareNow NonFinite = NonFinite).
Proof.
  intros self [Ht [Ha [Hm HT]]].
  unfold PortfolioConsumerType.get_controls.
  destruct (get_controls_loop_pointwise self (conj Ht (conj Ha Hm))
              (seq 0 (PortfolioConsumerType.T_cycle self))
              (repeat NonFinite (PortfolioConsumerType.AgentCount self))
              (repeat NonFinite (PortfolioConsumerType.AgentCount self)))
    as [c [s [E [Lc [Ls P]]]]].
  - apply seq_NoDup.
  - intros p Hp. apply in_seq in Hp. lia.
  - apply repeat_length.
  - apply repeat_length.
  - exists c, s. split; [exact E|]. split; [exact Lc|]. split; [exact Ls|].
    intros i Hi. cbv zeta.
    assert (N : nth i (repeat NonFinite (PortfolioConsumerType.AgentCount self)) NonFinite
                = NonFinite) by (apply nth_repeat).
    split.
    + intros sol Hp Hsol. destruct (P i sol Hi (or_introl Hsol)) as [Pc Ps].
      rewrite existsb_eqb_seq in Pc, Ps.
      assert (LT : (nth i (PortfolioConsumerType.t_cycle self) 0 <?
                    PortfolioConsumerType.T_cycle self)%nat = true)
        by (apply Nat.ltb_lt; exact Hp).
      rewrite LT, N in Pc, Ps. auto.
    + intros Hp.
      assert (NI : ~ In (nth i (PortfolioConsumerType.t_cycle self) 0%nat)
                     (seq 0 (PortfolioConsumerType.T_cycle self)))
        by (intros C; apply in_seq in C; lia).
      destruct (P i (update_solution_terminal NonFinite) Hi (or_intror NI)) as [Pc Ps].
      rewrite existsb_eqb_seq in Pc, Ps.
      assert (GE : (nth i (PortfolioConsumerType.t_cycle self) 0 <?
                    PortfolioConsumerType.T_cycle self)%nat = false)
        by (apply Nat.ltb_ge; exact Hp).
      rewrite GE, N in Pc, Ps. auto.
Qed.

Lemma ShareFuncFxd_of_period_solution : forall sol,
  is_period_solution sol -> PortfolioSolution.ShareFuncFxd sol = IdentityFunction 1 2.
Proof.
  intros sol H. destruct H as [CRRA | ? ? ? ? ? ? ? ? ? ? ? ? ? ? ? ? ? s HS].
  - reflexivity.
  - unfold solve_one_period_ConsPortfolio in HS.
    destruct (raised _ _ _ _ _ _ _ _ _ _); [discriminate|]. inversion HS. reflexivity.
Qed.

(** X12: An agent who cannot adjust gets the share [nan]: with the solution of
    its period built by the terminal update or returned by the period
    solver, the fixed-share share function is the identity in the share,
    and [get_controls] hands it [nan] for the share, whatever share the
    agent held before. *)
Theorem agent_who_cannot_adjust_gets_nan_share : forall self cNrmNow ShareNow i sol,
  PortfolioConsumerType.well_formed self ->
  PortfolioConsumerType.get_controls self = Return (cNrmNow, ShareNow) ->
  (i < PortfolioConsumerType.AgentCount self)%nat ->
  (nth i (PortfolioConsumerType.t_cycle self) 0 < PortfolioConsumerType.T_cycle self)%nat ->
  nth i (PortfolioConsumerType.shocks_Adjust self) false = false ->
  nth_error (PortfolioConsumerType.solution self)
    (nth i (PortfolioConsumerType.t_cycle self) 0%nat) = Some sol ->
  is_period_solution sol ->
  nth i ShareNow NonFinite = NonFinite
  /\ nth i cNrmNow NonFinite
     = call2 (PortfolioSolution.cFuncFxd sol)
         (nth i (PortfolioConsumerType.state_now_mNrm self) NonFinite) NonFinite.
Proof.
  intros self c s i sol [Ht [Ha [Hm HT]]] HG Hi Hp HA Hsol HB.
  unfold PortfolioConsumerType.get_controls in HG.
  destruct (get_controls_loop_pointwise self (conj Ht (conj Ha Hm))
              (seq 0 (PortfolioConsumerType.T_cycle self))
              (repeat NonFinite (PortfolioConsumerType.AgentCount self))
              (repeat NonFinite (PortfolioConsumerType.AgentCount self))
              (seq_NoDup _ _))
    as [c' [s' [E [Lc [Ls P]]]]].
  - intros p Hq. apply in_seq in Hq. lia.
  - apply repeat_length.
  - apply repeat_length.
  - assert (EQ : Return (c', s') = Return (c, s))
      by (rewrite <- E; exact HG).
    inversion EQ; subst c' s'.
    destruct (P i sol Hi (or_introl Hsol)) as [Pc Ps].
    rewrite existsb_eqb_seq in Pc, Ps.
    apply Nat.ltb_lt in Hp. rewrite Hp, nth_repeat in Pc, Ps.
    unfold PortfolioConsumerType.cNrm_in_period in Pc.
    unfold PortfolioConsumerType.Share_in_period in Ps.
    rewrite HA in Pc, Ps.
    rewrite (ShareFuncFxd_of_period_solution sol HB) in Ps.
    split; [exact Ps | exact Pc].
Qed.

(** X13: When the cycle has more periods than there are solutions,
    [get_controls] raises an [IndexError]: the loop reaches a period whose
    solution is missing from the list [solution]. *)
Theorem get_controls_without_solution_raises_IndexError : forall self,
  length (PortfolioConsumerType.t_cycle self) = PortfolioConsumerType.AgentCount self ->
  length (PortfolioConsumerType.shocks_Adjust self) = PortfolioConsumerType.AgentCount self ->
  length (PortfolioConsumerType.state_now_mNrm self) = PortfolioConsumerType.AgentCount self ->
  (length (PortfolioConsumerType.solution self) < PortfolioConsumerType.T_cycle self)%nat ->
  PortfolioConsumerType.get_controls self = Raise (IndexError "list index out of range").
Proof.
  intros self Ht Ha Hm HT.
  unfold PortfolioConsumerType.get_controls.
  set (L := length (PortfolioConsumerType.solution self)) in *.
  replace (PortfolioConsumerType.T_cycle self)
    with (L + S (PortfolioConsumerType.T_cycle self - S L))%nat by lia.
  rewrite seq_app, get_controls_loop_app.
  destruct (get_controls_loop_pointwise self (conj Ht (conj Ha Hm)) (seq 0 L)
              (repeat NonFinite (PortfolioConsumerType.AgentCount self))
              (repeat NonFinite (PortfolioConsumerType.AgentCount self))
              (seq_NoDup _ _))
    as [c' [s' [E [Lc [Ls _]]]]].
  - intros p Hq. apply in_seq in Hq. unfold L in Hq. lia.
  - apply repeat_length.
  - apply repeat_length.
  - rewrite E. cbn [bind seq PortfolioConsumerType.get_controls_loop Nat.add].
    unfold PortfolioConsumerType.get_controls_body.
    rewrite np_logical_and_same_length by (rewrite length_map; congruence).
    cbn [bind].
    assert (N : nth_error (PortfolioConsumerType.solution self) L = None)
      by (apply nth_error_None; unfold L; lia).
    rewrite N. reflexivity.
Qed.

End ControlsTheorems.

(* ================================================================== *)
(** ** The parameters of a [PortfolioConsumerType] *)
(* ================================================================== *)

Lemma dict_get_set_same : forall k v d, dict_get k (dict_set k v d) = Some v.
Proof.
  intros k v. induction d as [|[k' v'] d IH]; cbn [dict_set dict_get].
  - now rewrite String.eqb_refl.
  - destruct (String.eqb k k') eqn:E; cbn [dict_get]; rewrite E; auto.
Qed.

Lemma dict_get_set_other : forall k k' v d,
  k <> k' -> dict_get k (dict_set k' v d) = dict_get k d.
Proof.
  intros k k' v d N. induction d as [|[k2 v2] d IH]; cbn [dict_set dict_get].
  - apply String.eqb_neq in N. now rewrite N.
  - destruct (String.eqb k' k2) eqn:E; cbn [dict_get].
    + apply String.eqb_eq in E. subst k2. apply String.eqb_neq in N. now rewrite N.
    + now rewrite IH.
Qed.

Lemma dict_get_None_not_In : forall k d, dict_get k d = None -> ~ In k (map fst d).
Proof.
  intros k. induction d as [|[k' v] d IH]; cbn [dict_get map fst]; intros H C; [exact C|].
  destruct (String.eqb k k') eqn:E; [discriminate|].
  destruct C as [C|C]; [subst k'; now rewrite String.eqb_refl in E | now apply IH].
Qed.

(** Updating a dictionary: a key of [other] gets the last value [other]
    gives it, any other key keeps its value. *)
Lemma dict_get_update : forall other d k,
  dict_get k (dict_update d other)
  = match dict_get k (rev other) with
    | Some v => Some v
    | None => dict_get k d
    end.
Proof.
  unfold dict_update.
  induction other as [|[k' v'] other IH]; intros d k; [reflexivity|].
  cbn [fold_left fst snd rev]. rewrite IH.
  assert (A : forall l, dict_get k (l ++ [(k', v')])
                        = match dict_get k l with
                          | Some v => Some v
                          | None => if String.eqb k k' then Some v' else None
                          end).
  { induction l as [|[k2 v2] l IHl]; cbn [app dict_get]; [reflexivity|].
    destruct (String.eqb k k2); auto. }
  rewrite A. destruct (dict_get k (rev other)) as [v|]; [reflexivity|].
  destruct (String.eqb k k') eqn:E.
  - apply String.eqb_eq in E. subst k'. apply dict_get_set_same.
  - apply String.eqb_neq in E. now apply dict_get_set_other.
Qed.

Lemma dict_get_rev_NoDup : forall d k,
  NoDup (map fst d) -> dict_get k (rev d) = dict_get k d.
Proof.
  induction d as [|[k' v'] d IH]; intros k ND; [reflexivity|].
  cbn [map fst] in ND. inversion ND as [|? ? NI ND']; subst.
  cbn [rev dict_get].
  assert (A : forall l, dict_get k (l ++ [(k', v')])
                        = match dict_get k l with
                          | Some v => Some v
                          | None => if String.eqb k k' then Some v' else None
                          end).
  { induction l as [|[k2 v2] l IHl]; cbn [app dict_get]; [reflexivity|].
    destruct (String.eqb k k2); auto. }
  rewrite A, IH by exact ND'.
  destruct (String.eqb k k') eqn:E.
  - apply String.eqb_eq in E. subst k'.
    destruct (dict_get k d) as [v|] eqn:G; [|reflexivity].
    exfalso. apply NI. clear - G.
    induction d as [|[k2 v2] d IHd]; [discriminate|].
    cbn [dict_get] in G. cbn [map fst].
    destruct (String.eqb k k2) eqn:E; [left; symmetry; now apply String.eqb_eq | right; auto].
  - destruct (dict_get k d); reflexivity.
Qed.

(** X14: The parameters of a new [PortfolioConsumerType]: a keyword of the call
    wins; otherwise one of the twelve settings of [init_portfolio]; otherwise
    the value of [init_idiosyncratic_shocks].  In particular, unless the
    call says otherwise, [BoroCnstArt] is 0.0 and [DiscreteShareBool] is
    False, the values the configuration checks of the period solver need,
    whatever [init_idiosyncratic_shocks] holds. *)
Theorem PortfolioConsumerType_params_lookup :
  forall (init_idiosyncratic_shocks kwds : dict) (k : string),
  NoDup (map fst kwds) ->
  dict_get k (PortfolioConsumerType_params init_idiosyncratic_shocks kwds)
  = match dict_get k kwds with
    | Some v => Some v
    | None =>
        match dict_get k init_portfolio_items with
        | Some v => Some v
        | None => dict_get k init_idiosyncratic_shocks
        end
    end.
Proof.
  intros base kwds k ND. unfold PortfolioConsumerType_params.
  rewrite dict_get_update, (dict_get_rev_NoDup kwds k ND).
  destruct (dict_get k kwds); [reflexivity|].
  unfold init_portfolio. fold (dict_update base init_portfolio_items).
  rewrite dict_get_update. rewrite dict_get_rev_NoDup; [reflexivity|].
  unfold init_portfolio_items. cbn [map fst].
  repeat (constructor; [cbn [In]; intros C;
                        repeat (destruct C as [C|C]; [discriminate|]); exact C|]).
  constructor.
Qed.

(* ================================================================== *)
(** ** The claims at the sample inputs *)
(* ================================================================== *)

(** The sample inputs keep every exponent an integer (or a half-integer of
    a perfect square), so [pow_exact] is exact on them: with [CRRA = 1] the
    exponents are [-1], [0] and [1]. *)
Example sample_solves :
  Sample.solve Sample.IncShkDstn Sample.RiskyDstn false
  = Return (Sample.solution Sample.IncShkDstn Sample.RiskyDstn false).
Proof. reflexivity. Qed.

(** The sample runs do not depend on the part of the library that the
    model leaves out: whatever [extern_call] is, the solver returns the same
    solutions, the two paths compute the same arrays, and the functions of
    the solutions take the same values at the points used below. *)
Example sample_runs_ignore_extern_call (ext : Func -> list float -> float) :
  (forall Inc Rsk,
      In Inc [Sample.IncShkDstn] ->
      In Rsk [Sample.RiskyDstn; Sample.RiskyDstn_flat] ->
      @solve_one_period_ConsPortfolio (lib_with ext)
        (update_solution_terminal (Fin 1)) (product_dstn Inc Rsk) Inc Rsk
        (Fin 1) (Fin (9 # 10)) (Fin 1) (Fin 1) (Fin 1) (Some (Fin 0))
        Sample.aXtraGrid Sample.ShareGrid (Fin 1) Sample.half false false false
      = Sample.solve Inc Rsk false)
  /\ @EndOfPrd_dvda_indep (lib_with ext) (update_solution_terminal (Fin 1))
       Sample.IncShkDstn Sample.RiskyDstn (Fin 1) (Fin (9 # 10)) (Fin 1) (Fin 1) (Fin 1)
       Sample.aXtraGrid Sample.ShareGrid (Fin 1)
     = Sample.dvda_indep
  /\ @EndOfPrd_dvda_joint (lib_with ext) (update_solution_terminal (Fin 1))
       (product_dstn Sample.IncShkDstn Sample.RiskyDstn) Sample.IncShkDstn
       (Fin 1) (Fin (9 # 10)) (Fin 1) (Fin 1) (Fin 1)
       Sample.aXtraGrid Sample.ShareGrid (Fin 1)
     = Sample.dvda_joint
  /\ @solve_one_period_ConsPortfolio (lib_with ext) Sample.next_two_crossings
       (product_dstn Sample.IncShkDstn Sample.RiskyDstn_flat)
       Sample.IncShkDstn Sample.RiskyDstn_flat
       (Fin 1) (Fin (9 # 10)) (Fin 1) (Fin 1) (Fin 1) (Some (Fin 0))
       Sample.aXtraGrid Sample.ShareGrid4 (Fin 0) Sample.half false false false
     = Sample.solve_two_crossings
  /\ (let s := Sample.solution Sample.IncShkDstn Sample.RiskyDstn_flat false in
      @call1 (lib_with ext) (PortfolioSolution.ShareFuncAdj s) (Fin 2) = NonFinite
      /\ @call1 (lib_with ext) (PortfolioSolution.cFuncAdj s) (Fin 2) = NonFinite).
Proof.
  split; [|split; [|split; [|split; [|split]]]].
  - intros Inc Rsk [<-|[]] [<-|[<-|[]]]; vm_compute; reflexivity.
  - vm_compute; reflexivity.
  - vm_compute; reflexivity.
  - vm_compute; reflexivity.
  - vm_compute; reflexivity.
  - vm_compute; reflexivity.
Qed.



(** C2 fails as stated: on a row with two sign changes the solver brackets
    the first one (segment 0, share 1/6), not "the last index where the
    value is >= 0 followed by a value <= 0" (segment 2, share 5/6).  The
    solver meets such rows on the input [Sample.solve_two_crossings]: it
    stores the share 1/6 at both asset gridpoints above the bottom one
    (entries 2 and 3 of [Share_adj]; entry 0 is the lower bound of the share
    function, entry 1 the bottom gridpoint, reset to the top share). *)
Lemma C2_counterexample_two_crossings :
  share_idx Sample.FOC_two_crossings = [0%nat]
  /\ share_idx_last_crossing Sample.FOC_two_crossings = [2%nat]
  /\ vec_eq (ShareAdj_continuous Sample.ShareGrid4 Sample.FOC_two_crossings) [Fin (1 # 6)]
  /\ vec_eq (ShareAdj_last_crossing Sample.ShareGrid4 Sample.FOC_two_crossings) [Fin (5 # 6)]
  /\ ~ vec_eq (ShareAdj_continuous Sample.ShareGrid4 Sample.FOC_two_crossings)
              (ShareAdj_last_crossing Sample.ShareGrid4 Sample.FOC_two_crossings)
  /\ match Sample.solve_two_crossings with
     | Return s =>
         match PortfolioSolution.EndOfPrddvds_fxd s, PortfolioSolution.Share_adj s with
         | Some FOC, Some shares =>
             mat_eq FOC
               [[Fin (9 # 10); Fin (-9 # 10); Fin (9 # 10); Fin (-9 # 10)];
                [Fin (9 # 10); Fin (-9 # 10); Fin (9 # 10); Fin (-9 # 10)];
                [Fin (9 # 10); Fin (-9 # 10); Fin (9 # 10); Fin (-9 # 10)]]
             /\ vec_eq shares [Fin 1; Fin 1; Fin (1 # 6); Fin (1 # 6)]
             /\ vec_eq (ShareAdj_last_crossing Sample.ShareGrid4 FOC)
                       [Fin (5 # 6); Fin (5 # 6); Fin (5 # 6)]
         | _, _ => False
         end
     | Raise _ => False
     end.
Proof.
  vm_compute. repeat split; try (repeat constructor; reflexivity).
  intros H. inversion H as [|x y l l' E T]; subst. vm_compute in E. discriminate.
Qed.

(** C2 at a sample: the row [2, 1, -1] over shares [0, 1/2, 1] is
    constrained at neither end and changes sign on its second segment. *)
Lemma C2_witness_one_crossing :
  exists j,
    (S j < 3)%nat
    /\ crosses_at [Fin 2; Fin 1; Fin (-1)] j = true
    /\ (forall k, (k < j)%nat -> crosses_at [Fin 2; Fin 1; Fin (-1)] k = false)
    /\ let bot_f := nth j [Fin 2; Fin 1; Fin (-1)] NonFinite in
       let top_f := nth (S j) [Fin 2; Fin 1; Fin (-1)] NonFinite in
       let alpha := 1 - top_f / (top_f - bot_f) in
       nth 0 (ShareAdj_continuous Sample.ShareGrid Sample.FOC_one_crossing) NonFinite
       = (1 - alpha) * nth j Sample.ShareGrid NonFinite
         + alpha * nth (S j) Sample.ShareGrid NonFinite
       /\ nth 0 (cNrmAdj_continuous Sample.FOC_one_crossing Sample.Nvrs_one_crossing)
              NonFinite
          = (1 - alpha) * nth j [Fin 1; Fin 2; Fin 3] NonFinite
            + alpha * nth (S j) [Fin 1; Fin 2; Fin 3] NonFinite.
Proof.
  destruct (C2_continuous_share_choice Sample.ShareGrid Sample.FOC_one_crossing
              Sample.Nvrs_one_crossing 0 (Nat.lt_0_succ 0) eq_refl eq_refl
              (le_S 2 2 (le_n 2))) as [_ [_ [H _]]].
  apply H; reflexivity.
Defined.

(** C3 fails as stated, in four ways (share grid and [ShareLimit = 0.5]
    within [[0, 1]] each time).
    - With a risky return equal to the risk-free return every marginal value
      of share is exactly zero, the crossing fraction is 0/0, and the share
      function is [nan] at [m = 2]: not a number between 0 and 1.
    - With a next-period marginal value of share that is 1 at share 0, 2 at
      share 1/3 and undefined above, no sign change is found in the rows
      [0.9, 1.8, nan, nan], the first segment is extended, and the share
      stored at the upper two gridpoints is -1/3: the share function is a
      number below 0 at the gridpoint [m = 37/12].
    - At the inputs of [solve] the marginal values of share are finite and
      the share nodes are 1, 1, 168/571 and 30624/169601 (about 0.18): the
      share falls toward the last gridpoint, to a value below [ShareLimit],
      so the decay rate is negative, the gap to [ShareLimit] widens beyond
      the last gridpoint (about 22.2), and the share function is below 0 at
      [m = 100].  (With the partial sum that stands for the exponential here
      the value is about -0.62; the exponential itself is larger, and the
      value lower still.)
    - The same on the asset grid [1, 1e20]: the slope of the last segment is
      within [1e-15] of 0 without being 0, so there is no decay, the last
      segment is continued, and the share function is below 0 at
      [m = 1e40]. *)
Lemma C3_counterexample_share_function :
  (forallb (in_range_b 0 1) Sample.ShareGrid = true
   /\ forallb (in_range_b 0 1) Sample.ShareGrid4 = true
   /\ in_range_b 0 1 Sample.half = true)
  /\ match Sample.solve Sample.IncShkDstn Sample.RiskyDstn_flat false with
     | Return s =>
         PortfolioSolution.EndOfPrddvds_fxd s
         = Some [[Fin (0 # 120); Fin (0 # 120); Fin (0 # 120)];
                 [Fin (0 # 600); Fin (0 # 600); Fin (0 # 600)];
                 [Fin (0 # 19320); Fin (0 # 19320); Fin (0 # 19320)]]
         /\ PortfolioSolution.Share_adj s = Some [Fin 1; Fin 1; NonFinite; NonFinite]
         /\ @call1 exact_lib (PortfolioSolution.ShareFuncAdj s) (Fin 2) = NonFinite
         /\ ~ in_range 0 1 (@call1 exact_lib (PortfolioSolution.ShareFuncAdj s) (Fin 2))
     | Raise _ => False
     end
  /\ match Sample.solve_undefined_dvds with
     | Return s =>
         let ShareFunc := PortfolioSolution.ShareFuncAdj s in
         match PortfolioSolution.EndOfPrddvds_fxd s with
         | Some FOC => forallb all_finite FOC = false
         | None => False
         end
         /\ all_finite (x_nodes ShareFunc) = true
         /\ all_finite (y_nodes ShareFunc) = true
         /\ nth 2 (x_nodes ShareFunc) NonFinite =f= Fin (37 # 12)
         /\ exists q : Q,
              @call1 exact_lib ShareFunc (Fin (37 # 12)) = Fin q /\ (q == - (1 # 3))%Q
     | Raise _ => False
     end
  /\ match Sample.solve_series Sample.half Sample.aXtraGrid with
     | Return s =>
         let ShareFunc := PortfolioSolution.ShareFuncAdj s in
         let xs := x_nodes ShareFunc in
         let ys := y_nodes ShareFunc in
         match PortfolioSolution.EndOfPrddvds_fxd s with
         | Some FOC => forallb all_finite FOC = true
         | None => False
         end
         /\ forallb (in_range_b 0 1) ys = true
         /\ forallb (fun x => x <? Fin 100) xs = true
         /\ decay_extrap xs ys (Some Sample.half) (Some (Fin 0)) = true
         /\ (decay_extrap_B xs ys Sample.half (Fin 0) <? Fin 0) = true
         /\ (exists e : Q,
               @decay_factor series_lib xs ys Sample.half (Fin 0) (Fin 100) = Fin e
               /\ (1 < e)%Q)
         /\ exists q : Q, @call1 series_lib ShareFunc (Fin 100) = Fin q /\ (q < 0)%Q
     | Raise _ => False
     end
  /\ match Sample.solve_series Sample.half [Fin 1; Fin 100000000000000000000] with
     | Return s =>
         let ShareFunc := PortfolioSolution.ShareFuncAdj s in
         let xs := x_nodes ShareFunc in
         let ys := y_nodes ShareFunc in
         match PortfolioSolution.EndOfPrddvds_fxd s with
         | Some FOC => forallb all_finite FOC = true
         | None => False
         end
         /\ forallb (in_range_b 0 1) ys = true
         /\ forallb (fun x => x <? Fin 10000000000000000000000000000000000000000) xs = true
         /\ decay_extrap xs ys (Some Sample.half) (Some (Fin 0)) = false
         /\ (y_below_top xs ys ==? y_top xs ys) = false
         /\ exists q : Q,
              @call1 series_lib ShareFunc
                (Fin 10000000000000000000000000000000000000000) = Fin q
              /\ (q < 0)%Q
     | Raise _ => False
     end.
Proof.
  split; [vm_compute; repeat split; reflexivity|].
  split; [vm_compute; repeat split; auto|].
  split; [vm_compute; do 4 (split; [reflexivity|]);
          eexists; split; reflexivity|].
  split; [vm_compute; do 5 (split; [reflexivity|]);
          split; eexists; split; reflexivity|].
  vm_compute. do 5 (split; [reflexivity|]). eexists; split; reflexivity.
Qed.

(** C3 at two samples.  In continuous mode, the inputs of [solve] with
    [ShareLimit = 0.1], below the share at the last gridpoint: the share at
    [m = 1], between gridpoints, and at [m = 100], beyond the last gridpoint
    (about 22.2), where the share function decays toward [ShareLimit].  In
    discrete mode: the share at [m = 100], beyond the last gridpoint. *)
Lemma C3_witness_sample :
  (exists q q' : Q,
     @call1 series_lib
       (PortfolioSolution.ShareFuncAdj
          (Sample.solution_series (Fin (1 # 10)) Sample.aXtraGrid)) (Fin 1) = Fin q
     /\ @call1 series_lib
          (PortfolioSolution.ShareFuncAdj
             (Sample.solution_series (Fin (1 # 10)) Sample.aXtraGrid)) (Fin 100) = Fin q'
     /\ (0 <= q <= 1)%Q /\ (0 <= q' <= 1)%Q)
  /\ (exists q : Q,
        @call1 series_lib
          (PortfolioSolution.ShareFuncAdj Sample.solution_discrete) (Fin 100) = Fin q
        /\ (0 <= q <= 1)%Q).
Proof.
  pose proof (@C3_share_function series_lib
                (update_solution_terminal (Fin 1))
                (product_dstn Sample.IncShkDstn Sample.RiskyDstn)
                Sample.IncShkDstn Sample.RiskyDstn
                (Fin 1) (Fin (9 # 10)) (Fin 1) (Fin 1) (Fin 1) (Some (Fin 0))
                Sample.aXtraGrid Sample.ShareGrid (Fin 1) (Fin (1 # 10)) false false false
                (Sample.solution_series (Fin (1 # 10)) Sample.aXtraGrid)
                eq_refl eq_refl eq_refl
                ltac:(intros _; vm_compute; reflexivity)) as HC.
  pose proof (@C3_share_function series_lib
                (update_solution_terminal (Fin 1))
                (product_dstn Sample.IncShkDstn Sample.RiskyDstn)
                Sample.IncShkDstn Sample.RiskyDstn
                (Fin 1) (Fin (9 # 10)) (Fin 1) (Fin 1) (Fin 1) (Some (Fin 0))
                Sample.aXtraGrid3 Sample.ShareGrid (Fin 1) Sample.half true true false
                Sample.solution_discrete
                eq_refl eq_refl eq_refl
                ltac:(intros C; discriminate C)) as HD.
  assert (V1 : { q : Q | @call1 series_lib
                           (PortfolioSolution.ShareFuncAdj
                              (Sample.solution_series (Fin (1 # 10)) Sample.aXtraGrid))
                           (Fin 1) = Fin q })
    by (eexists; vm_compute; reflexivity).
  assert (V2 : { q : Q | @call1 series_lib
                           (PortfolioSolution.ShareFuncAdj
                              (Sample.solution_series (Fin (1 # 10)) Sample.aXtraGrid))
                           (Fin 100) = Fin q })
    by (eexists; vm_compute; reflexivity).
  assert (V3 : { q : Q | @call1 series_lib
                           (PortfolioSolution.ShareFuncAdj Sample.solution_discrete)
                           (Fin 100) = Fin q })
    by (eexists; vm_compute; reflexivity).
  destruct V1 as [q E1]. destruct V2 as [q' E2]. destruct V3 as [q'' E3].
  split.
  - exists q, q'. split; [exact E1|]. split; [exact E2|]. split.
    + apply (HC 1 q); [discriminate | exact E1 | left; vm_compute; reflexivity].
    + apply (HC 100 q'); [discriminate | exact E2 |].
      right; right; right. split; [vm_compute; reflexivity|].
      vm_compute. split; discriminate.
  - exists q''. split; [exact E3|].
    apply (HD 100 q''); [discriminate | exact E3 | right; left; reflexivity].
Defined.



(** C8 at two samples: transitory shocks 0.5 and 1.5 (smallest one
    positive), and transitory shocks 0 and 1 (smallest one zero). *)
Lemma C8_witness_sample :
  (nth_error
     (@ShareAdj_now exact_lib (update_solution_terminal (Fin 1))
        (product_dstn Sample.IncShkDstn Sample.RiskyDstn)
        Sample.IncShkDstn Sample.RiskyDstn (Fin 1) (Fin (9 # 10)) (Fin 1) (Fin 1)
        (Fin 1) Sample.aXtraGrid Sample.ShareGrid (Fin 1) false false) 0
   = Some (Fin 1))
  /\ aNrmGrid [ (Sample.half, {| PermShk := Fin 1; TranShk := Fin 0 |});
                (Sample.half, {| PermShk := Fin 1; TranShk := Fin 1 |}) ]
       Sample.aXtraGrid
     = Sample.aXtraGrid.
Proof.
  split.
  - apply (proj1 (@C8_zero_asset_gridpoint exact_lib (update_solution_terminal (Fin 1))
                    (product_dstn Sample.IncShkDstn Sample.RiskyDstn)
                    Sample.IncShkDstn Sample.RiskyDstn (Fin 1) (Fin (9 # 10)) (Fin 1)
                    (Fin 1) (Fin 1) Sample.aXtraGrid Sample.ShareGrid (Fin 1)
                    Sample.half false false false) eq_refl).
  - apply (proj2 (@C8_zero_asset_gridpoint exact_lib (update_solution_terminal (Fin 1))
                    (product_dstn Sample.IncShkDstn Sample.RiskyDstn)
                    [ (Sample.half, {| PermShk := Fin 1; TranShk := Fin 0 |});
                      (Sample.half, {| PermShk := Fin 1; TranShk := Fin 1 |}) ]
                    Sample.RiskyDstn (Fin 1) (Fin (9 # 10)) (Fin 1)
                    (Fin 1) (Fin 1) Sample.aXtraGrid Sample.ShareGrid (Fin 1)
                    Sample.half false false false) eq_refl).
Defined.

(** C10 at a sample: the value-function fields of the sample solution. *)
Lemma C10_witness_sample :
  PortfolioSolution.vFuncAdj (Sample.solution Sample.IncShkDstn Sample.RiskyDstn false)
  = NullFunc
  /\ PortfolioSolution.vFuncFxd (Sample.solution Sample.IncShkDstn Sample.RiskyDstn false)
     = NullFunc.
Proof.
  apply (proj2 (proj2 (proj2
           (@C10_NullFunc_placeholders exact_lib (update_solution_terminal (Fin 1))
              (product_dstn Sample.IncShkDstn Sample.RiskyDstn)
              Sample.IncShkDstn Sample.RiskyDstn (Fin 1) (Fin (9 # 10)) (Fin 1)
              (Fin 1) (Fin 1) (Some (Fin 0)) Sample.aXtraGrid Sample.ShareGrid (Fin 1)
              Sample.half false false)))).
  reflexivity.
Defined.

(** C9 fails on the code: at the sample input (continuous mode) the asset
    grid has 3 points while [Share_adj] and [EndOfPrddvda_adj] have 4
    entries, the first being the lower bound of the share function and the
    marginal utility of zero consumption; and [EndOfPrddvda_fxd] holds the
    marginal utility OF the marginal value of assets: 25/12 where the
    marginal value of assets is 12/25. *)
Theorem C9_stored_arrays_at_sample :
  match Sample.solve Sample.IncShkDstn Sample.RiskyDstn false with
  | Return s =>
      option_map (@length float) (PortfolioSolution.aGrid s) = Some 3%nat
      /\ option_map (@length float) (PortfolioSolution.Share_adj s) = Some 4%nat
      /\ option_map (@length float) (PortfolioSolution.EndOfPrddvda_adj s) = Some 4%nat
      /\ option_map (hd (Fin 0)) (PortfolioSolution.EndOfPrddvda_adj s) = Some NonFinite
      /\ at2 Sample.dvda_joint 1 0 =f= Fin (12 # 25)
      /\ match PortfolioSolution.EndOfPrddvda_fxd s with
         | Some M => at2 M 1 0 =f= Fin (25 # 12)
         | None => False
         end
  | Raise _ => False
  end.
Proof. vm_compute. repeat split; reflexivity. Qed.

(* ================================================================== *)
(** ** The further properties at sample inputs *)
(* ================================================================== *)

(** Two runs of the independent path on different joint distributions. *)
Lemma ShockDstn_read_only_for_hNrm_witness :
  exists s2,
    @solve_one_period_ConsPortfolio exact_lib (update_solution_terminal (Fin 1))
      (product_dstn Sample.IncShkDstn Sample.RiskyDstn_flat) Sample.IncShkDstn
      Sample.RiskyDstn
      (Fin 1) (Fin (9 # 10)) (Fin 1) (Fin 1) (Fin 1) (Some (Fin 0))
      Sample.aXtraGrid Sample.ShareGrid (Fin 1) Sample.half false false true = Return s2
    /\ same_but_hNrm (Sample.solution Sample.IncShkDstn Sample.RiskyDstn true) s2
    /\ PortfolioSolution.hNrm (Sample.solution Sample.IncShkDstn Sample.RiskyDstn true)
       = Some (expected (@calc_hNrm exact_lib (update_solution_terminal (Fin 1))
                           (Fin 1) (Fin 1) (Fin 1) Sample.half)
                 (product_dstn Sample.IncShkDstn Sample.RiskyDstn)
               / @R_adj exact_lib Sample.RiskyDstn (Fin 1) (Fin 1) Sample.half)
    /\ PortfolioSolution.hNrm s2
       = Some (expected (@calc_hNrm exact_lib (update_solution_terminal (Fin 1))
                           (Fin 1) (Fin 1) (Fin 1) Sample.half)
                 (product_dstn Sample.IncShkDstn Sample.RiskyDstn_flat)
               / @R_adj exact_lib Sample.RiskyDstn (Fin 1) (Fin 1) Sample.half).
Proof.
  apply (@ShockDstn_read_only_for_hNrm exact_lib (update_solution_terminal (Fin 1))
           Sample.IncShkDstn Sample.RiskyDstn (Fin 1) (Fin (9 # 10)) (Fin 1) (Fin 1) (Fin 1)
           (Some (Fin 0)) Sample.aXtraGrid Sample.ShareGrid (Fin 1) Sample.half false false
           (product_dstn Sample.IncShkDstn Sample.RiskyDstn)
           (product_dstn Sample.IncShkDstn Sample.RiskyDstn_flat)).
  reflexivity.
Defined.

(** The terminal solution and a solution stripped of everything the solver
    does not read give the same result. *)
Lemma solver_reads_only_what_it_needs_witness :
  Sample.solve Sample.IncShkDstn Sample.RiskyDstn false
  = @solve_one_period_ConsPortfolio exact_lib SampleSim.terminal_stripped
      (product_dstn Sample.IncShkDstn Sample.RiskyDstn) Sample.IncShkDstn Sample.RiskyDstn
      (Fin 1) (Fin (9 # 10)) (Fin 1) (Fin 1) (Fin 1) (Some (Fin 0))
      Sample.aXtraGrid Sample.ShareGrid (Fin 1) Sample.half false false false.
Proof.
  apply (@solver_reads_only_what_it_needs exact_lib (update_solution_terminal (Fin 1))
           SampleSim.terminal_stripped).
  - reflexivity.
  - reflexivity.
  - reflexivity.
  - intros H. vm_compute in H. discriminate.
  - intros H. discriminate.
Defined.

Lemma returned_functions_are_well_shaped_witness :
  let s := Sample.solution Sample.IncShkDstn Sample.RiskyDstn false in
  well_shaped (PortfolioSolution.cFuncAdj s) = true
  /\ well_shaped (PortfolioSolution.ShareFuncAdj s) = true
  /\ well_shaped (PortfolioSolution.vFuncAdj s) = true
  /\ well_shaped (PortfolioSolution.vPfuncAdj s) = true
  /\ well_shaped (PortfolioSolution.cFuncFxd s) = true
  /\ well_shaped (PortfolioSolution.ShareFuncFxd s) = true
  /\ well_shaped (PortfolioSolution.vFuncFxd s) = true
  /\ well_shaped (PortfolioSolution.dvdmFuncFxd s) = true
  /\ well_shaped (PortfolioSolution.dvdsFuncFxd s) = true.
Proof.
  apply (@returned_functions_are_well_shaped exact_lib (update_solution_terminal (Fin 1))
           (product_dstn Sample.IncShkDstn Sample.RiskyDstn)
           Sample.IncShkDstn Sample.RiskyDstn
           (Fin 1) (Fin (9 # 10)) (Fin 1) (Fin 1) (Fin 1) (Some (Fin 0))
           Sample.aXtraGrid Sample.ShareGrid (Fin 1) Sample.half false false false).
  reflexivity.
Defined.

Lemma vFuncFxd_abscissas_repeat_first_gridpoint_witness :
  exists fs,
    PortfolioSolution.vFuncFxd SampleSim.solution_discrete
    = ValueFuncCRRA (LinearInterpOnInterp1D fs SampleSim.ShareGrid2) (Fin 1)
    /\ length fs = length SampleSim.ShareGrid2
    /\ forall f, In f fs ->
         exists f_list dfdx_list,
           f = CubicInterp
                 (Fin 0 :: repeat (nth 0 Sample.aXtraGrid NonFinite)
                             (length SampleSim.ShareGrid2))
                 f_list dfdx_list
           /\ ((2 <= length SampleSim.ShareGrid2)%nat ->
               increasing_b
                 (Fin 0 :: repeat (nth 0 Sample.aXtraGrid NonFinite)
                             (length SampleSim.ShareGrid2))
               = false).
Proof.
  apply (@vFuncFxd_abscissas_repeat_first_gridpoint exact_lib
           (update_solution_terminal (Fin 1))
           (product_dstn Sample.IncShkDstn Sample.RiskyDstn)
           Sample.IncShkDstn Sample.RiskyDstn
           (Fin 1) (Fin (9 # 10)) (Fin 1) (Fin 1) (Fin 1) (Some (Fin 0))
           Sample.aXtraGrid SampleSim.ShareGrid2 (Fin 1) Sample.half true false).
  reflexivity.
Defined.

(** One asset gridpoint above the zero-asset point (the smallest transitory
    shock is positive, so the asset grid has two points), three shares,
    value function requested. *)
Lemma more_shares_than_assets_raises_IndexError_witness :
  exists msg,
    @solve_one_period_ConsPortfolio exact_lib (update_solution_terminal (Fin 1))
      (product_dstn Sample.IncShkDstn Sample.RiskyDstn) Sample.IncShkDstn Sample.RiskyDstn
      (Fin 1) (Fin (9 # 10)) (Fin 1) (Fin 1) (Fin 1) (Some (Fin 0))
      [Fin 1] Sample.ShareGrid (Fin 1) Sample.half true false false
    = Raise (IndexError msg).
Proof.
  apply (@more_shares_than_assets_raises_IndexError exact_lib
           (update_solution_terminal (Fin 1))
           (product_dstn Sample.IncShkDstn Sample.RiskyDstn)
           Sample.IncShkDstn Sample.RiskyDstn
           (Fin 1) (Fin (9 # 10)) (Fin 1) (Fin 1) (Fin 1) (Some (Fin 0))
           [Fin 1] Sample.ShareGrid (Fin 1) Sample.half false false).
  - exists 0%Q. split; reflexivity.
  - discriminate.
  - discriminate.
  - discriminate.
  - discriminate.
  - reflexivity.
  - intros _. vm_compute. lia.
  - simpl. lia.
  - simpl. lia.
Defined.

(** A row of values [1, 3, 3, 2]: the first of the two largest is taken. *)
Lemma discrete_share_choice_witness :
  let row := [Fin 1; Fin 3; Fin 3; Fin 2] in
  let k := argmax_float row in
  (k < length row)%nat
  /\ nth 0 (ShareAdj_discrete Sample.ShareGrid4 [row]) NonFinite
     = nth k Sample.ShareGrid4 NonFinite
  /\ nth 0 (cNrmAdj_discrete [row] [[Fin 5; Fin 6; Fin 7; Fin 8]]) NonFinite
     = nth k [Fin 5; Fin 6; Fin 7; Fin 8] NonFinite
  /\ (forall j, (j < length row)%nat ->
        (nth j row NonFinite <=? nth k row NonFinite) = true)
  /\ (forall j, (j < k)%nat -> (nth j row NonFinite <? nth k row NonFinite) = true).
Proof.
  apply (discrete_share_choice Sample.ShareGrid4 [[Fin 1; Fin 3; Fin 3; Fin 2]]
           [[Fin 5; Fin 6; Fin 7; Fin 8]] 0).
  - simpl. lia.
  - reflexivity.
  - discriminate.
  - reflexivity.
Defined.


Lemma share_is_one_below_the_second_node_witness :
  @call1 exact_lib
    (PortfolioSolution.ShareFuncAdj
       (Sample.solution Sample.IncShkDstn Sample.RiskyDstn false)) (Fin (1 # 2))
  =f= Fin 1.
Proof.
  apply (@share_is_one_below_the_second_node exact_lib
           (update_solution_terminal (Fin 1))
           (product_dstn Sample.IncShkDstn Sample.RiskyDstn)
           Sample.IncShkDstn Sample.RiskyDstn
           (Fin 1) (Fin (9 # 10)) (Fin 1) (Fin 1) (Fin 1) (Some (Fin 0))
           Sample.aXtraGrid Sample.ShareGrid (Fin 1) Sample.half false false false).
  - reflexivity.
  - reflexivity.
  - vm_compute. reflexivity.
  - vm_compute. reflexivity.
  - vm_compute. discriminate.
  - vm_compute. reflexivity.
Defined.

Lemma solution_from_constructor_lacks_MPCmin_witness :
  @solve_one_period_ConsPortfolio exact_lib
    (PortfolioSolution.__init__
       (Some cFuncAdj_terminal) (Some ShareFuncAdj_terminal)
       (Some (vFuncAdj_terminal (Fin 1))) (Some (vPfuncAdj_terminal (Fin 1)))
       (Some cFuncFxd_terminal) (Some ShareFuncFxd_terminal)
       (Some (vFuncFxd_terminal (Fin 1))) (Some (dvdmFuncFxd_terminal (Fin 1)))
       (Some dvdsFuncFxd_terminal) None None None None None None None)
    (product_dstn Sample.IncShkDstn Sample.RiskyDstn) Sample.IncShkDstn Sample.RiskyDstn
    (Fin 1) (Fin (9 # 10)) (Fin 1) (Fin 1) (Fin 1) (Some (Fin 0))
    Sample.aXtraGrid Sample.ShareGrid (Fin 1) Sample.half false false false
  = Raise (AttributeError "'PortfolioSolution' object has no attribute 'MPCmin'").
Proof.
  apply (@solution_from_constructor_lacks_MPCmin exact_lib).
  - exists 0%Q. split; reflexivity.
  - discriminate.
  - discriminate.
  - discriminate.
  - reflexivity.
Defined.

Lemma MPCmin_is_between_0_and_1_witness :
  exists q,
    PortfolioSolution.MPCmin (Sample.solution Sample.IncShkDstn Sample.RiskyDstn false)
    = Some (Fin q)
    /\ (0 <= q)%Q /\ (q <= 1)%Q.
Proof.
  apply (@MPCmin_is_between_0_and_1 exact_lib
           (product_dstn Sample.IncShkDstn Sample.RiskyDstn)
           Sample.IncShkDstn Sample.RiskyDstn
           (Fin 1) (Fin (9 # 10)) (Fin 1) (Fin 1) (Fin 1) (Some (Fin 0))
           Sample.aXtraGrid Sample.ShareGrid (Fin 1) Sample.half false false false
           (update_solution_terminal (Fin 1)) (9 # 10) 1).
  - vm_compute. reflexivity.
  - lra.
  - reflexivity.
  - lra.
  - reflexivity.
Defined.

Lemma get_controls_agent_by_agent_witness :
  exists cNrmNow ShareNow,
    @PortfolioConsumerType.get_controls exact_lib SampleSim.agents
    = Return (cNrmNow, ShareNow)
    /\ length cNrmNow = 3%nat
    /\ length ShareNow = 3%nat
    /\ forall i, (i < 3)%nat ->
         let period := nth i [0; 0; 5]%nat 0%nat in
         (forall sol,
            (period < 1)%nat ->
            nth_error [update_solution_terminal (Fin 1)] period = Some sol ->
            nth i cNrmNow NonFinite
            = @PortfolioConsumerType.cNrm_in_period exact_lib SampleSim.agents sol i NonFinite
            /\ nth i ShareNow NonFinite
               = @PortfolioConsumerType.Share_in_period exact_lib SampleSim.agents sol i
                   NonFinite)
         /\ ((1 <= period)%nat ->
             nth i cNrmNow NonFinite = NonFinite /\ nth i ShareNow NonFinite = NonFinite).
Proof.
  apply (@get_controls_agent_by_agent exact_lib SampleSim.agents).
  repeat split; simpl; lia.
Defined.

Lemma agent_who_cannot_adjust_gets_nan_share_witness :
  nth 1 [Fin 0; NonFinite; NonFinite] NonFinite = NonFinite
  /\ nth 1 [Fin 2; Fin 3; NonFinite] NonFinite
     = @call2 exact_lib (PortfolioSolution.cFuncFxd (update_solution_terminal (Fin 1)))
         (nth 1 [Fin 2; Fin 3; Fin 4] NonFinite) NonFinite.
Proof.
  apply (@agent_who_cannot_adjust_gets_nan_share exact_lib SampleSim.agents
           [Fin 2; Fin 3; NonFinite] [Fin 0; NonFinite; NonFinite] 1
           (update_solution_terminal (Fin 1))).
  - repeat split; simpl; lia.
  - reflexivity.
  - simpl. lia.
  - simpl. lia.
  - reflexivity.
  - reflexivity.
  - apply terminal_period.
Defined.

Lemma get_controls_without_solution_raises_IndexError_witness :
  @PortfolioConsumerType.get_controls exact_lib SampleSim.agents_two_periods
  = Raise (IndexError "list index out of range").
Proof.
  apply (@get_controls_without_solution_raises_IndexError exact_lib
           SampleSim.agents_two_periods).
  - reflexivity.
  - reflexivity.
  - reflexivity.
  - simpl. lia.
Defined.

(** A call with [CRRA=3.0] on a base dictionary that holds [CRRA], [Rfree]
    and [BoroCnstArt]. *)
Lemma PortfolioConsumerType_params_lookup_witness :
  dict_get "BoroCnstArt"%string
    (PortfolioConsumerType_params
       [("CRRA", PyFloat 2); ("Rfree", PyFloat (103 # 100)); ("BoroCnstArt", PyNone)]%string
       [("CRRA", PyFloat 3)]%string)
  = match dict_get "BoroCnstArt"%string [("CRRA", PyFloat 3)]%string with
    | Some v => Some v
    | None =>
        match dict_get "BoroCnstArt"%string init_portfolio_items with
        | Some v => Some v
        | None =>
            dict_get "BoroCnstArt"%string
              [("CRRA", PyFloat 2); ("Rfree", PyFloat (103 # 100)); ("BoroCnstArt", PyNone)]%string
        end
    end.
Proof.
  apply (PortfolioConsumerType_params_lookup
           [("CRRA", PyFloat 2); ("Rfree", PyFloat (103 # 100)); ("BoroCnstArt", PyNone)]%string
           [("CRRA", PyFloat 3)]%string "BoroCnstArt"%string).
  repeat constructor. intros C. exact C.
Defined.
